(** * A verification model of the Deno Replit-DB client ([src/index.ts])

    The client is a thin layer over three platform services: the [fetch]
    transport, the [JSON] codec and the URI component coder.  The class
    [Client] itself is embedded function by function (constructor, [get],
    [set], [delete], [list], [empty], [getAll], [setAll], [deleteMultiple]);
    the platform services are modelled after the ECMAScript definitions they
    implement, so that the client can be evaluated on concrete inputs. *)

From Stdlib Require Import List NArith ZArith Ascii String Bool Arith Lia.
Import ListNotations.

Set Implicit Arguments.
Set Warnings "-register-all".

(** ** ECMAScript strings: finite sequences of UTF-16 code units *)

Abbreviation code_unit := N (only parsing).
Abbreviation jsstring := (list N) (only parsing).

(** Embedding of ASCII literals, one code unit per character. *)
Fixpoint js (s : string) : jsstring :=
  match s with
  | EmptyString => []
  | String a s' => N_of_ascii a :: js s'
  end.

(** The same, with an apostrophe in the literal standing for a double
    quote, to write JSON texts legibly. *)
Fixpoint jsq (s : string) : jsstring :=
  match s with
  | EmptyString => []
  | String a s' =>
      (if N.eqb (N_of_ascii a) 39 then 34%N else N_of_ascii a) :: jsq s'
  end.

Definition jsstring_eq_dec : forall s t : jsstring, {s = t} + {s <> t} :=
  list_eq_dec N.eq_dec.

Fixpoint jsstring_eqb (s t : jsstring) : bool :=
  match s, t with
  | [], [] => true
  | c :: s', d :: t' => N.eqb c d && jsstring_eqb s' t'
  | _, _ => false
  end.

(** [s.split("\n")]: always at least one segment; a trailing newline gives a
    trailing empty segment. *)
Fixpoint split_on (sep : code_unit) (s : jsstring) : list jsstring :=
  match s with
  | [] => [[]]
  | c :: s' =>
      if N.eqb c sep then [] :: split_on sep s'
      else match split_on sep s' with
           | seg :: segs => (c :: seg) :: segs
           | [] => [[c]]
           end
  end.

(** Does [s] begin with [p]? *)
Fixpoint is_prefix (p s : jsstring) : bool :=
  match p, s with
  | [], _ => true
  | c :: p', d :: s' => N.eqb c d && is_prefix p' s'
  | _ :: _, [] => false
  end.

(** Is [needle] a contiguous part of [hay]? *)
Fixpoint contains (needle hay : jsstring) : bool :=
  is_prefix needle hay ||
  match hay with
  | [] => false
  | _ :: hay' => contains needle hay'
  end.

Section CharClasses.
Local Open Scope N_scope.

Definition is_digit (c : code_unit) : bool := (48 <=? c) && (c <=? 57).
Definition is_upper (c : code_unit) : bool := (65 <=? c) && (c <=? 90).
Definition is_lower (c : code_unit) : bool := (97 <=? c) && (c <=? 122).

Definition is_high_surrogate (c : code_unit) : bool :=
  (0xD800 <=? c) && (c <=? 0xDBFF).
Definition is_low_surrogate (c : code_unit) : bool :=
  (0xDC00 <=? c) && (c <=? 0xDFFF).

(** Value of a hexadecimal digit, either case. *)
Definition hex_value (c : code_unit) : option N :=
  if is_digit c then Some (c - 48)
  else if (65 <=? c) && (c <=? 70) then Some (c - 55)
  else if (97 <=? c) && (c <=? 102) then Some (c - 87)
  else None.

Definition hex_upper (d : N) : code_unit := if d <? 10 then 48 + d else 55 + d.
Definition hex_lower (d : N) : code_unit := if d <? 10 then 48 + d else 87 + d.
End CharClasses.

(** ** URI component coding (ECMAScript [Encode] / [Decode]) *)

Module URI.
Local Open Scope N_scope.

(** uriUnreserved: letters, digits and the marks [-_.!~*'()]. *)
Definition unreserved (c : code_unit) : bool :=
  is_digit c || is_upper c || is_lower c ||
  existsb (N.eqb c) [45; 95; 46; 33; 126; 42; 39; 40; 41].

Definition utf8_encode (cp : N) : list N :=
  if cp <? 0x80 then [cp]
  else if cp <? 0x800 then [0xC0 + cp / 64; 0x80 + cp mod 64]
  else if cp <? 0x10000 then
    [0xE0 + cp / 4096; 0x80 + (cp / 64) mod 64; 0x80 + cp mod 64]
  else
    [0xF0 + cp / 262144; 0x80 + (cp / 4096) mod 64;
     0x80 + (cp / 64) mod 64; 0x80 + cp mod 64].

Definition percent (b : N) : jsstring :=
  [37; hex_upper (b / 16); hex_upper (b mod 16)].

Definition escape_code_point (cp : N) : jsstring :=
  flat_map percent (utf8_encode cp).

Definition pair_code_point (hi lo : code_unit) : N :=
  (hi - 0xD800) * 0x400 + (lo - 0xDC00) + 0x10000.

(** [encodeURIComponent]; [None] is the [URIError] thrown on a lone
    surrogate. *)
Fixpoint encodeURIComponent (s : jsstring) : option jsstring :=
  match s with
  | [] => Some []
  | c :: rest =>
      if unreserved c then option_map (cons c) (encodeURIComponent rest)
      else if is_low_surrogate c then None
      else if is_high_surrogate c then
        match rest with
        | d :: rest' =>
            if is_low_surrogate d
            then option_map (app (escape_code_point (pair_code_point c d)))
                            (encodeURIComponent rest')
            else None
        | [] => None
        end
      else option_map (app (escape_code_point c)) (encodeURIComponent rest)
  end.

(** First pass of [Decode]: resolve every [%XX] escape to an octet. *)
Inductive piece := Lit (c : code_unit) | Octet (b : N).

Fixpoint unescape (s : jsstring) : option (list piece) :=
  match s with
  | [] => Some []
  | c :: rest =>
      if c =? 37 then
        match rest with
        | h1 :: h2 :: rest' =>
            match hex_value h1, hex_value h2 with
            | Some a, Some b =>
                option_map (cons (Octet (16 * a + b))) (unescape rest')
            | _, _ => None
            end
        | _ => None
        end
      else option_map (cons (Lit c)) (unescape rest)
  end.

Definition continuation (b : N) : bool := (0x80 <=? b) && (b <=? 0xBF).

Definition utf16_encode (cp : N) : jsstring :=
  if cp <? 0x10000 then [cp]
  else [0xD800 + (cp - 0x10000) / 0x400; 0xDC00 + (cp - 0x10000) mod 0x400].

(** A decoded code point is accepted when it is the shortest encoding, is
    not a surrogate and lies inside the Unicode range. *)
Definition scalar_in (lo : N) (cp : N) : option jsstring :=
  if (lo <=? cp) && (cp <=? 0x10FFFF) && negb ((0xD800 <=? cp) && (cp <=? 0xDFFF))
  then Some (utf16_encode cp) else None.

(** Second pass: an octet below 0x80 is a character; a lead octet must be
    followed by the right number of escaped continuation octets. *)
Fixpoint assemble (ps : list piece) : option jsstring :=
  match ps with
  | [] => Some []
  | Lit c :: rest => option_map (cons c) (assemble rest)
  | Octet b :: rest =>
      if b <? 0x80 then option_map (cons b) (assemble rest)
      else if b <? 0xC0 then None
      else if b <? 0xE0 then
        match rest with
        | Octet b2 :: rest' =>
            if continuation b2 then
              match scalar_in 0x80 ((b - 0xC0) * 64 + (b2 - 0x80)), assemble rest' with
              | Some u, Some t => Some (u ++ t)
              | _, _ => None
              end
            else None
        | _ => None
        end
      else if b <? 0xF0 then
        match rest with
        | Octet b2 :: Octet b3 :: rest' =>
            if continuation b2 && continuation b3 then
              match scalar_in 0x800
                      ((b - 0xE0) * 4096 + (b2 - 0x80) * 64 + (b3 - 0x80)),
                    assemble rest' with
              | Some u, Some t => Some (u ++ t)
              | _, _ => None
              end
            else None
        | _ => None
        end
      else if b <? 0xF8 then
        match rest with
        | Octet b2 :: Octet b3 :: Octet b4 :: rest' =>
            if continuation b2 && continuation b3 && continuation b4 then
              match scalar_in 0x10000
                      ((b - 0xF0) * 262144 + (b2 - 0x80) * 4096 +
                       (b3 - 0x80) * 64 + (b4 - 0x80)),
                    assemble rest' with
              | Some u, Some t => Some (u ++ t)
              | _, _ => None
              end
            else None
        | _ => None
        end
      else None
  end.

(** [decodeURIComponent]; [None] is the [URIError] thrown on a malformed
    escape or on octets that are not UTF-8. *)
Definition decodeURIComponent (s : jsstring) : option jsstring :=
  match unescape s with
  | Some ps => assemble ps
  | None => None
  end.
End URI.

(** ** ECMAScript values and the JSON codec *)

(** The Number type is the platform's (IEEE-754 doubles); the codec only
    needs how a number prints ([Number::toString]), whether it is finite, and
    how a JSON number token converts back ([StringToNumber]). *)
Class NumberModel := {
  number : Type;
  Number_toString : number -> jsstring;
  Number_isFinite : number -> bool;
  StringToNumber : jsstring -> number
}.

Section Values.
Context {NM : NumberModel}.

(** The values a caller can hand to [set] and get back from [get]: the
    JSON-shaped fragment of [any], with [undefined].  An object is its list
    of own enumerable properties in enumeration order. *)
Inductive value : Type :=
| Undefined
| Null
| Bool (b : bool)
| Num (n : number)
| Str (s : jsstring)
| Arr (elems : list value)
| Obj (props : list (jsstring * value)).

Definition object := list (jsstring * value).
End Values.

(** *** Objects: ordinary property order *)

Section Objects.
Local Open Scope N_scope.
Variable A : Type.

Definition digits_value (s : jsstring) : N :=
  fold_left (fun acc c => 10 * acc + (c - 48)) s 0.

(** An array index is the canonical decimal text of an integer below
    2^32 - 1; such keys enumerate first, in ascending numeric order. *)
Definition array_index (k : jsstring) : option N :=
  match k with
  | [] => None
  | c :: rest =>
      if forallb is_digit k && (negb (c =? 48) || match rest with [] => true | _ => false end)
         && (List.length k <=? 10)%nat
      then let n := digits_value k in
           if n <? 4294967295 then Some n else None
      else None
  end.

Fixpoint obj_has (o : list (jsstring * A)) (k : jsstring) : bool :=
  match o with
  | [] => false
  | (k', _) :: o' => jsstring_eqb k' k || obj_has o' k
  end.

Fixpoint obj_replace (o : list (jsstring * A)) (k : jsstring) (v : A)
  : list (jsstring * A) :=
  match o with
  | [] => []
  | (k', v') :: o' =>
      if jsstring_eqb k' k then (k', v) :: o' else (k', v') :: obj_replace o' k v
  end.

(** Place a new index key [i] before the first property that is not an
    index key or has a larger index. *)
Fixpoint obj_insert_index (o : list (jsstring * A)) (i : N) (k : jsstring) (v : A)
  : list (jsstring * A) :=
  match o with
  | [] => [(k, v)]
  | (k', v') :: o' =>
      match array_index k' with
      | Some j => if j <? i then (k', v') :: obj_insert_index o' i k v
                  else (k, v) :: (k', v') :: o'
      | None => (k, v) :: (k', v') :: o'
      end
  end.

(** [o[k] = v] on an ordinary object (CreateDataProperty / Set). *)
Definition obj_set (o : list (jsstring * A)) (k : jsstring) (v : A)
  : list (jsstring * A) :=
  if obj_has o k then obj_replace o k v
  else match array_index k with
       | Some i => obj_insert_index o i k v
       | None => o ++ [(k, v)]
       end.

Fixpoint obj_lookup (o : list (jsstring * A)) (k : jsstring) : option A :=
  match o with
  | [] => None
  | (k', v) :: o' => if jsstring_eqb k' k then Some v else obj_lookup o' k
  end.

Definition obj_keys (o : list (jsstring * A)) : list jsstring := map fst o.

Definition obj_of_entries (es : list (jsstring * A)) : list (jsstring * A) :=
  fold_left (fun o e => obj_set o (fst e) (snd e)) es [].

(** The index keys of an object come first and ascend strictly. *)
Fixpoint index_keys_ascend (lo : option N) (ks : list jsstring) : bool :=
  match ks with
  | [] => true
  | k :: ks' =>
      match array_index k with
      | Some i =>
          match lo with
          | Some j => (j <? i) && index_keys_ascend (Some i) ks'
          | None => index_keys_ascend (Some i) ks'
          end
      | None => forallb (fun k' => match array_index k' with
                                   | Some _ => false | None => true end) ks'
      end
  end.

Fixpoint keys_distinct (ks : list jsstring) : bool :=
  match ks with
  | [] => true
  | k :: ks' => negb (existsb (jsstring_eqb k) ks') && keys_distinct ks'
  end.

(** The shape every ordinary object has: distinct keys in property order. *)
Definition obj_wf (o : list (jsstring * A)) : bool :=
  keys_distinct (obj_keys o) && index_keys_ascend None (obj_keys o).
End Objects.

(** *** [JSON.stringify] *)

Section Codec.
Context {NM : NumberModel}.
Local Open Scope N_scope.

Definition unicode_escape (c : code_unit) : jsstring :=
  [92; 117; hex_lower (c / 4096 mod 16); hex_lower (c / 256 mod 16);
   hex_lower (c / 16 mod 16); hex_lower (c mod 16)].

(** The two-character escapes of QuoteJSONString. *)
Definition short_escape (c : code_unit) : option code_unit :=
  if c =? 8 then Some 98 else if c =? 9 then Some 116
  else if c =? 10 then Some 110 else if c =? 12 then Some 102
  else if c =? 13 then Some 114 else if c =? 34 then Some 34
  else if c =? 92 then Some 92 else None.

Fixpoint quote_chars (s : jsstring) : jsstring :=
  match s with
  | [] => []
  | c :: rest =>
      match short_escape c with
      | Some e => 92 :: e :: quote_chars rest
      | None =>
          if c <? 32 then unicode_escape c ++ quote_chars rest
          else if is_high_surrogate c then
            match rest with
            | d :: rest' =>
                if is_low_surrogate d then c :: d :: quote_chars rest'
                else unicode_escape c ++ quote_chars rest
            | [] => unicode_escape c
            end
          else if is_low_surrogate c then unicode_escape c ++ quote_chars rest
          else c :: quote_chars rest
      end
  end.

Definition quote (s : jsstring) : jsstring := 34 :: quote_chars s ++ [34].

Fixpoint join (sep : jsstring) (parts : list jsstring) : jsstring :=
  match parts with
  | [] => []
  | [p] => p
  | p :: ps => p ++ sep ++ join sep ps
  end.

(** SerializeJSONProperty without replacer or indentation; [None] is the
    result [undefined].  In an array an unserializable element prints as
    [null]; in an object such a property is left out. *)
Fixpoint stringify (v : value) : option jsstring :=
  match v with
  | Undefined => None
  | Null => Some (js "null")
  | Bool true => Some (js "true")
  | Bool false => Some (js "false")
  | Num n => Some (if Number_isFinite n then Number_toString n else js "null")
  | Str s => Some (quote s)
  | Arr elems =>
      Some (91 :: join [44]
              (map (fun e => match stringify e with
                             | Some t => t
                             | None => js "null"
                             end) elems) ++ [93])
  | Obj props =>
      Some (123 :: join [44]
              (flat_map (fun p => match stringify (snd p) with
                                  | Some t => [quote (fst p) ++ 58 :: t]
                                  | None => []
                                  end) props) ++ [125])
  end.

Definition JSON_stringify : value -> option jsstring := stringify.

(** *** [JSON.parse] *)

Definition is_ws (c : code_unit) : bool :=
  (c =? 32) || (c =? 9) || (c =? 10) || (c =? 13).

Fixpoint skip_ws (s : jsstring) : jsstring :=
  match s with
  | c :: s' => if is_ws c then skip_ws s' else s
  | [] => []
  end.

Definition unescape_char (e : code_unit) : option code_unit :=
  if e =? 34 then Some 34 else if e =? 92 then Some 92
  else if e =? 47 then Some 47 else if e =? 98 then Some 8
  else if e =? 102 then Some 12 else if e =? 110 then Some 10
  else if e =? 114 then Some 13 else if e =? 116 then Some 9
  else None.

Definition hex4 (a b c d : code_unit) : option code_unit :=
  match hex_value a, hex_value b, hex_value c, hex_value d with
  | Some x, Some y, Some z, Some w => Some (4096 * x + 256 * y + 16 * z + w)
  | _, _, _, _ => None
  end.

(** The characters of a string literal after its opening quote, up to and
    including the closing quote. *)
Fixpoint string_chars (s : jsstring) : option (jsstring * jsstring) :=
  match s with
  | [] => None
  | c :: rest =>
      if c =? 34 then Some ([], rest)
      else if c =? 92 then
        match rest with
        | e :: rest1 =>
            if e =? 117 then
              match rest1 with
              | h1 :: h2 :: h3 :: h4 :: rest2 =>
                  match hex4 h1 h2 h3 h4, string_chars rest2 with
                  | Some u, Some (t, r) => Some (u :: t, r)
                  | _, _ => None
                  end
              | _ => None
              end
            else
              match unescape_char e, string_chars rest1 with
              | Some u, Some (t, r) => Some (u :: t, r)
              | _, _ => None
              end
        | [] => None
        end
      else if c <? 32 then None
      else match string_chars rest with
           | Some (t, r) => Some (c :: t, r)
           | None => None
           end
  end.

(** Does [s] begin with the code unit [c]?  If so, what follows it. *)
Definition starts_with (c : code_unit) (s : jsstring) : option jsstring :=
  match s with
  | d :: s' => if d =? c then Some s' else None
  | [] => None
  end.

Definition is_number_char (c : code_unit) : bool :=
  is_digit c || (c =? 45) || (c =? 43) || (c =? 46) || (c =? 101) || (c =? 69).

Fixpoint span (p : code_unit -> bool) (s : jsstring) : jsstring * jsstring :=
  match s with
  | c :: s' => if p c then let (a, b) := span p s' in (c :: a, b) else ([], s)
  | [] => ([], [])
  end.

(** The JSON number grammar: an optional minus sign; then a single zero,
    or a non-zero digit followed by digits; then optionally a point and at
    least one digit; then optionally e or E, an optional sign and at least
    one digit. *)
Definition exponent_part (t : jsstring) : bool :=
  match t with
  | [] => true
  | e :: t1 =>
      ((e =? 101) || (e =? 69)) &&
      let t2 := match t1 with
                | sgn :: t' => if (sgn =? 43) || (sgn =? 45) then t' else t1
                | [] => t1
                end in
      match t2 with
      | [] => false
      | _ :: _ => forallb is_digit t2
      end
  end.

Definition fraction_part (t : jsstring) : bool :=
  match starts_with 46 t with
  | Some t1 =>
      let (ds, t2) := span is_digit t1 in
      match ds with
      | [] => false
      | _ :: _ => exponent_part t2
      end
  | None => exponent_part t
  end.

Definition json_number_token (t : jsstring) : bool :=
  let t1 := match starts_with 45 t with Some t' => t' | None => t end in
  match t1 with
  | [] => false
  | d :: t2 =>
      if d =? 48 then fraction_part t2
      else if is_digit d then fraction_part (snd (span is_digit t2))
      else false
  end.

Inductive parsed (A : Type) : Type :=
| Parsed (a : A) (rest : jsstring)
| Invalid
| OutOfFuel.
Arguments Invalid {A}.
Arguments OutOfFuel {A}.

Definition parsed_map {A B} (f : A -> B) (p : parsed A) : parsed B :=
  match p with
  | Parsed a rest => Parsed (f a) rest
  | Invalid => Invalid
  | OutOfFuel => OutOfFuel
  end.

Fixpoint parse_value (fuel : nat) (s : jsstring) : parsed value :=
  match fuel with
  | O => OutOfFuel
  | S fuel' =>
      match skip_ws s with
      | [] => Invalid
      | c :: rest =>
          if c =? 123 then
            match starts_with 125 (skip_ws rest) with
            | Some rest' => Parsed (Obj []) rest'
            | None => parsed_map (fun es => Obj (obj_of_entries es))
                                 (parse_members fuel' rest)
            end
          else if c =? 91 then
            match starts_with 93 (skip_ws rest) with
            | Some rest' => Parsed (Arr []) rest'
            | None => parsed_map Arr (parse_elements fuel' rest)
            end
          else if c =? 34 then
            match string_chars rest with
            | Some (t, rest') => Parsed (Str t) rest'
            | None => Invalid
            end
          else if is_prefix (js "true") (c :: rest)
          then Parsed (Bool true) (skipn 4 (c :: rest))
          else if is_prefix (js "false") (c :: rest)
          then Parsed (Bool false) (skipn 5 (c :: rest))
          else if is_prefix (js "null") (c :: rest)
          then Parsed Null (skipn 4 (c :: rest))
          else if is_number_char c then
            let (tok, rest') := span is_number_char (c :: rest) in
            if json_number_token tok
            then Parsed (Num (StringToNumber tok)) rest'
            else Invalid
          else Invalid
      end
  end
with parse_elements (fuel : nat) (s : jsstring) : parsed (list value) :=
  match fuel with
  | O => OutOfFuel
  | S fuel' =>
      match parse_value fuel' s with
      | Parsed v rest =>
          match starts_with 44 (skip_ws rest) with
          | Some rest' => parsed_map (cons v) (parse_elements fuel' rest')
          | None =>
              match starts_with 93 (skip_ws rest) with
              | Some rest' => Parsed [v] rest'
              | None => Invalid
              end
          end
      | Invalid => Invalid
      | OutOfFuel => OutOfFuel
      end
  end
with parse_members (fuel : nat) (s : jsstring)
  : parsed (list (jsstring * value)) :=
  match fuel with
  | O => OutOfFuel
  | S fuel' =>
      match starts_with 34 (skip_ws s) with
      | Some rest =>
          match string_chars rest with
          | Some (k, rest1) =>
              match starts_with 58 (skip_ws rest1) with
              | Some rest2 =>
                  match parse_value fuel' rest2 with
                  | Parsed v rest3 =>
                      match starts_with 44 (skip_ws rest3) with
                      | Some rest4 =>
                          parsed_map (cons (k, v)) (parse_members fuel' rest4)
                      | None =>
                          match starts_with 125 (skip_ws rest3) with
                          | Some rest4 => Parsed [(k, v)] rest4
                          | None => Invalid
                          end
                      end
                  | Invalid => Invalid
                  | OutOfFuel => OutOfFuel
                  end
              | None => Invalid
              end
          | None => Invalid
          end
      | None => Invalid
      end
  end.

(** [JSON.parse(text)]; [None] is the [SyntaxError] it throws.  The fuel
    is twice the length of the text plus one, which the parser never
    exhausts (lemma [parse_fuel]). *)
Definition JSON_parse (text : jsstring) : option value :=
  match parse_value (2 * List.length text + 1) text with
  | Parsed v rest =>
      match skip_ws rest with
      | [] => Some v
      | _ :: _ => None
      end
  | _ => None
  end.
End Codec.

Arguments Invalid {A}.
Arguments OutOfFuel {A}.

(** *** A number model to run the codec: exact decimals

    Finite numbers are [m * 10^e] with [m] not divisible by ten, so that
    every number has one representation; printing follows the cases of
    [Number::toString], and conversion of a token is exact. *)

Module ExactDecimal.
Inductive t := NaN | Infinity (negative : bool) | Finite (m : Z) (e : Z).

Fixpoint uint_codes (u : Decimal.uint) : jsstring :=
  match u with
  | Decimal.Nil => []
  | Decimal.D0 u' => 48%N :: uint_codes u'
  | Decimal.D1 u' => 49%N :: uint_codes u'
  | Decimal.D2 u' => 50%N :: uint_codes u'
  | Decimal.D3 u' => 51%N :: uint_codes u'
  | Decimal.D4 u' => 52%N :: uint_codes u'
  | Decimal.D5 u' => 53%N :: uint_codes u'
  | Decimal.D6 u' => 54%N :: uint_codes u'
  | Decimal.D7 u' => 55%N :: uint_codes u'
  | Decimal.D8 u' => 56%N :: uint_codes u'
  | Decimal.D9 u' => 57%N :: uint_codes u'
  end.

Definition digits (n : N) : jsstring := uint_codes (N.to_uint n).

Definition zeros (n : Z) : jsstring := repeat 48%N (Z.to_nat n).

Definition toString (x : t) : jsstring :=
  match x with
  | NaN => js "NaN"
  | Infinity false => js "Infinity"
  | Infinity true => js "-Infinity"
  | Finite m e =>
      if (m =? 0)%Z then js "0" else
      let sign := if (m <? 0)%Z then js "-" else [] in
      let ds := digits (Z.abs_N m) in
      let k := Z.of_nat (List.length ds) in
      let n := (k + e)%Z in
      sign ++
      if ((k <=? n) && (n <=? 21))%Z then ds ++ zeros (n - k)
      else if ((0 <? n) && (n <=? 21))%Z
      then firstn (Z.to_nat n) ds ++ 46%N :: skipn (Z.to_nat n) ds
      else if ((-6 <? n) && (n <=? 0))%Z
      then js "0." ++ zeros (- n) ++ ds
      else
        let ex := (if (n - 1 <? 0)%Z then js "e-" else js "e+")
                  ++ digits (Z.abs_N (n - 1)) in
        match ds with
        | [d] => d :: ex
        | d :: ds' => d :: 46%N :: ds' ++ ex
        | [] => ex
        end
  end.

(** Strip the trailing decimal zeros of the mantissa into the exponent. *)
Fixpoint normalize (fuel : nat) (m e : Z) : t :=
  match fuel with
  | O => Finite m e
  | S fuel' =>
      if (m =? 0)%Z then Finite 0 0
      else if (m mod 10 =? 0)%Z then normalize fuel' (m / 10) (e + 1)
      else Finite m e
  end.

Definition of_token (tok : jsstring) : t :=
  let (neg, body) := match tok with
                     | 45%N :: r => (true, r)
                     | _ => (false, tok)
                     end in
  let (int_ds, r1) := span is_digit body in
  let (frac_ds, r2) := match r1 with
                       | 46%N :: r => span is_digit r
                       | _ => ([], r1)
                       end in
  let ex := match r2 with
            | _ :: 45%N :: ds => (- Z.of_N (digits_value ds))%Z
            | _ :: 43%N :: ds => Z.of_N (digits_value ds)
            | _ :: ds => Z.of_N (digits_value ds)
            | [] => 0%Z
            end in
  let m := Z.of_N (digits_value (int_ds ++ frac_ds)) in
  normalize (List.length (int_ds ++ frac_ds))
            (if neg then - m else m)%Z
            (ex - Z.of_nat (List.length frac_ds))%Z.

Definition isFinite (x : t) : bool :=
  match x with Finite _ _ => true | _ => false end.

Definition eqb (x y : t) : bool :=
  match x, y with
  | NaN, NaN => true
  | Infinity a, Infinity b => Bool.eqb a b
  | Finite m e, Finite m' e' => ((m =? m') && (e =? e'))%Z
  | _, _ => false
  end.

Definition model : NumberModel :=
  {| number := t;
     Number_toString := toString;
     Number_isFinite := isFinite;
     StringToNumber := of_token |}.
End ExactDecimal.

(** ** The transport and asynchronous functions *)

Inductive http_method := GET | POST | DELETE.

Record request := {
  method : http_method;
  url : jsstring;
  headers : list (jsstring * jsstring);
  body : option jsstring
}.

(** What the network makes of a request: a response of any status with its
    body text, or no response at all (the promise of [fetch] rejects). *)
Inductive reply :=
| Response (status : N) (text : jsstring)
| NetworkError (reason : jsstring).

Inductive exn :=
| SyntaxError (message : jsstring)
| URIError
| TypeError
| TransportError (reason : jsstring)
| PermissionDenied.

Inductive outcome (A : Type) : Type :=
| Done (a : A)
| Failed (e : exn).
Arguments Failed {A}.

(** An [async] function body that suspends only on [fetch]: it has returned,
    has thrown, or is suspended on one request with the rest of the body as
    continuation. *)
Inductive prog (A : Type) : Type :=
| Return (a : A)
| Throw (e : exn)
| Fetch (r : request) (k : reply -> prog A).
Arguments Throw {A}.

Fixpoint bind {A B : Type} (p : prog A) (f : A -> prog B) : prog B :=
  match p with
  | Return a => f a
  | Throw e => Throw e
  | Fetch r k => Fetch r (fun rep => bind (k rep) f)
  end.

Notation "x <- p ;; q" := (bind p (fun x => q))
  (at level 61, p at next level, right associativity).

(** [await fetch(r).then(e => e.text())]: the body text of whatever response
    arrives, reading the body being part of the reply; a rejected [fetch]
    rethrows at the [await]. *)
Definition fetch_text (r : request) : prog jsstring :=
  Fetch r (fun rep => match rep with
                      | Response _ t => Return t
                      | NetworkError reason => Throw (TransportError reason)
                      end).

(** [await fetch(r)] where the response is not looked at. *)
Definition fetch_ (r : request) : prog unit :=
  Fetch r (fun rep => match rep with
                      | Response _ _ => Return tt
                      | NetworkError reason => Throw (TransportError reason)
                      end).

(** Either a thrown [URIError] or the result. *)
Definition uri_result {A} (o : option A) : prog A :=
  match o with
  | Some a => Return a
  | None => Throw URIError
  end.

Fixpoint traverse {A B} (f : A -> option B) (l : list A) : option (list B) :=
  match l with
  | [] => Some []
  | a :: l' =>
      match f a with
      | Some b => option_map (cons b) (traverse f l')
      | None => None
      end
  end.

(** A body of the shape
    [promises = [...]; await Promise.all(promises); return result]:
    the promises it starts, in order, and what it returns once
    [Promise.all] has fulfilled. *)
Record fan_out (A B : Type) := {
  promises : prog (list (prog B));
  result : A
}.

(** ** Arguments of type [any], objects with their prototypes *)

Section Arguments.
Context {NM : NumberModel}.

(** What a caller can pass where the source says [any], as far as
    [JSON.stringify] tells values apart: a value of the JSON-shaped fragment,
    a BigInt, or an array or object that may hold BigInts.  (An object that
    contains itself is no tree and is not a value of this type;
    [JSON.stringify] throws on it as it does on a BigInt.) *)
Inductive any : Type :=
| Plain (v : value)
| BigInt (z : Z)
| ArrOf (elems : list any)
| ObjOf (props : list (jsstring * any)).

(** SerializeJSONProperty throws a [TypeError] when it comes to a BigInt,
    and it comes to every element and every property value.  [None]: it
    throws; otherwise the JSON-shaped value that is being serialized. *)
Fixpoint json_shaped (a : any) : option value :=
  match a with
  | Plain v => Some v
  | BigInt _ => None
  | ArrOf elems => option_map Arr (traverse json_shaped elems)
  | ObjOf props =>
      option_map Obj
        (traverse (fun p => option_map (pair (fst p)) (json_shaped (snd p))) props)
  end.

(** A data property of an object. *)
Record property := {
  prop_name : jsstring;
  prop_enumerable : bool;
  prop_value : any
}.

(** An object as [for...in] and [obj[key]] see it: its own string-keyed
    data properties in property order, then those of its prototype, and so on
    to the end of the prototype chain. *)
Definition jsobject := list (list property).

Definition has_name (k : jsstring) (props : list property) : bool :=
  existsb (fun p => jsstring_eqb (prop_name p) k) props.

(** EnumerateObjectProperties, the keys of a [for...in] loop: the own
    enumerable keys, then the keys the prototype enumerates, those left out
    that the object has a property for, enumerable or not. *)
Fixpoint for_in_keys (obj : jsobject) : list jsstring :=
  match obj with
  | [] => []
  | own :: proto =>
      map prop_name (filter prop_enumerable own) ++
      filter (fun k => negb (has_name k own)) (for_in_keys proto)
  end.

(** [obj[key]]: the own property, or else the prototype's; [undefined] when
    the chain has none. *)
Fixpoint get_property (obj : jsobject) (k : jsstring) : any :=
  match obj with
  | [] => Plain Undefined
  | own :: proto =>
      match find (fun p => jsstring_eqb (prop_name p) k) own with
      | Some p => prop_value p
      | None => get_property proto k
      end
  end.

(** An object literal of JSON-shaped values: every property is its own and
    enumerable, and its prototype, [Object.prototype], has nothing that
    [for...in] enumerates. *)
Definition literal (o : object) : jsobject :=
  [map (fun p => {| prop_name := fst p; prop_enumerable := true;
                    prop_value := Plain (snd p) |}) o].
End Arguments.

(** ** class Client *)

Module Client.

(** The one field, [key]: the endpoint, or [undefined]. *)
Record t := { key : option jsstring }.

(** [this.key] where a string is needed. *)
Definition key_text (this : t) : jsstring :=
  match key this with
  | Some u => u
  | None => js "undefined"
  end.

(** [options?: { raw?: boolean }] *)
Record get_options := { raw : option bool }.

Section ClientCode.
Context {NM : NumberModel}.

(** [constructor(key?)], lines 11-14: a non-empty [key] is taken; otherwise
    the environment variable, whatever [Deno.env.get] gives for it (the
    non-null assertion after the call is erased at run time).  [env] is
    [Deno.env.get], which may itself throw. *)
Definition constructor (env : jsstring -> outcome (option jsstring))
           (k : option jsstring) : outcome t :=
  match k with
  | Some (c :: k') => Done {| key := Some (c :: k') |}
  | _ =>
      match env (js "REPLIT_DB_URL") with
      | Done v => Done {| key := v |}
      | Failed e => Failed e
      end
  end.

Definition wants_raw (options : option get_options) : bool :=
  match options with
  | Some {| raw := Some true |} => true
  | _ => false
  end.

Definition parse_failure (k : jsstring) : exn :=
  SyntaxError (js "Failed to parse value of " ++ k ++
               js ", try passing a raw option to get the raw value").

(** The second callback of [get] (lines 25-49) applied to the body text:
    raw mode first, then the empty body, then [JSON.parse] with its failure
    rethrown as the client's own [SyntaxError], then the [null] test. *)
Definition decode (k : jsstring) (options : option get_options)
           (strValue : jsstring) : prog value :=
  if wants_raw options then Return (Str strValue)
  else match strValue with
       | [] => Return Null
       | _ :: _ =>
           match JSON_parse strValue with
           | None => Throw (parse_failure k)
           | Some Null => Return Null
           | Some Undefined => Return Null
           | Some v => Return v
           end
       end.

Definition get_request (this : t) (k : jsstring) : request :=
  {| method := GET; url := key_text this ++ js "/" ++ k;
     headers := []; body := None |}.

(** [async get(key, options)], lines 22-50. *)
Definition get (this : t) (k : jsstring) (options : option get_options)
  : prog value :=
  strValue <- fetch_text (get_request this k) ;;
  decode k options strValue.

(** [JSON.stringify(value)], for a value on which it does not throw, as it
    lands in a string concatenation. *)
Definition encode (v : value) : jsstring :=
  match JSON_stringify v with
  | Some t => t
  | None => js "undefined"
  end.

Definition set_request (this : t) (k : jsstring) (v : value) : request :=
  {| method := POST; url := key_text this;
     headers := [(js "Content-Type", js "application/x-www-form-urlencoded")];
     body := Some (k ++ js "=" ++ encode v) |}.

(** [async set(key, value)], lines 57-66: [JSON.stringify(value)] comes
    first and may throw; the status of the response is not looked at. *)
Definition set (this : t) (k : jsstring) (value : any) : prog t :=
  match json_shaped value with
  | None => Throw TypeError
  | Some v =>
      _ <- fetch_ (set_request this k v) ;;
      Return this
  end.

Definition delete_request (this : t) (k : jsstring) : request :=
  {| method := DELETE; url := key_text this ++ js "/" ++ k;
     headers := []; body := None |}.

(** [async delete(key)], lines 72-75. *)
Definition delete (this : t) (k : jsstring) : prog t :=
  _ <- fetch_ (delete_request this k) ;;
  Return this.

Definition list_request (this : t) (encoded : jsstring) : request :=
  {| method := GET;
     url := key_text this ++ js "?encode=true&prefix=" ++ encoded;
     headers := []; body := None |}.

(** The second callback of [list], lines 86-91. *)
Definition keys_of_text (t : jsstring) : prog (list jsstring) :=
  match t with
  | [] => Return []
  | _ :: _ => uri_result (traverse URI.decodeURIComponent (split_on 10%N t))
  end.

(** [async list(prefix)], lines 81-92, the prefix being the empty string by
    default. *)
Definition list (this : t) (prefix : option jsstring)
  : prog (list jsstring) :=
  let prefix := match prefix with Some p => p | None => [] end in
  encoded <- uri_result (URI.encodeURIComponent prefix) ;;
  t <- fetch_text (list_request this encoded) ;;
  keys_of_text t.

(** The loop of [getAll] over the keys still to read; [output[key] = value]
    defines or overwrites an own property (under Deno an object literal has
    no [__proto__] accessor, so every key is an ordinary one). *)
Fixpoint getAll_loop (this : t) (keys : Datatypes.list jsstring) (output : object)
  : prog object :=
  match keys with
  | [] => Return output
  | k :: keys' =>
      v <- get this k None ;;
      getAll_loop this keys' (obj_set output k v)
  end.

(** [async getAll()], lines 112-119. *)
Definition getAll (this : t) : prog object :=
  keys <- list this None ;;
  getAll_loop this keys [].

(** The loop of [setAll] over the keys that [for...in] has still to give:
    [let val = obj[key]; await this.set(key, val)]. *)
Fixpoint setAll_loop (this : t) (obj : jsobject) (keys : Datatypes.list jsstring)
  : prog t :=
  match keys with
  | [] => Return this
  | k :: keys' =>
      _ <- set this k (get_property obj k) ;;
      setAll_loop this obj keys'
  end.

(** [async setAll(obj)], lines 125-131: [for (const key in obj)], own and
    inherited keys alike. *)
Definition setAll (this : t) (obj : jsobject) : prog t :=
  setAll_loop this obj (for_in_keys obj).

(** [async empty()], lines 98-107: the loop runs once [list] has answered
    and has no [await] of its own. *)
Definition empty (this : t) : fan_out t t :=
  {| promises := keys <- list this None ;; Return (map (delete this) keys);
     result := this |}.

(** [async deleteMultiple(...args)], lines 137-147. *)
Definition deleteMultiple (this : t) (args : Datatypes.list jsstring)
  : fan_out t t :=
  {| promises := Return (map (delete this) args);
     result := this |}.
End ClientCode.
End Client.

(** ** Running asynchronous functions *)

(** *** One function at a time, against a transport

    The transport answers each request from its current state; the run
    records the requests in the order they were issued. *)

Record run_result (A W : Type) := {
  settled : outcome A;
  world : W;
  trace : list request
}.

Section Sequential.
Variable W : Type.
Variable transport : W -> request -> W * reply.

Fixpoint run {A : Type} (p : prog A) (w : W) : run_result A W :=
  match p with
  | Return a => {| settled := Done a; world := w; trace := [] |}
  | Throw e => {| settled := Failed e; world := w; trace := [] |}
  | Fetch r k =>
      let (w', rep) := transport w r in
      let res := run (k rep) w' in
      {| settled := settled res; world := world res;
         trace := r :: trace res |}
  end.

(** The transport on a series of requests, one after the other. *)
Fixpoint feed (w : W) (rs : list request) : W * list reply :=
  match rs with
  | [] => (w, [])
  | r :: rs' =>
      let (w', rep) := transport w r in
      let (w'', reps) := feed w' rs' in
      (w'', rep :: reps)
  end.
End Sequential.

Definition is_response (rep : reply) : bool :=
  match rep with
  | Response _ _ => true
  | NetworkError _ => false
  end.

(** A transport that plays back a script of replies, whatever the requests. *)
Definition scripted (script : list reply) (r : request) : list reply * reply :=
  match script with
  | rep :: rest => (rest, rep)
  | [] => ([], NetworkError (js "no reply"))
  end.

(** The request a suspended function is waiting on. *)
Definition outstanding {A} (p : prog A) : list request :=
  match p with
  | Fetch r _ => [r]
  | _ => []
  end.

Definition is_outstanding {A} (p : prog A) : bool :=
  match p with
  | Fetch _ _ => true
  | _ => false
  end.

(** *** Fan-out: promises in flight together, joined by [Promise.all] *)

Fixpoint replace_nth {A} (i : nat) (a : A) (l : list A) : list A :=
  match l, i with
  | [], _ => []
  | _ :: l', O => a :: l'
  | b :: l', S i' => b :: replace_nth i' a l'
  end.

Section Joining.
Variables A B : Type.

(** A call to an async function runs to its first [await] at once: its
    request, if it has one, is issued when the promise is created. *)
Definition first_requests (ps : list (prog B)) : list request :=
  flat_map (@outstanding B) ps.

Fixpoint first_failure (ps : list (prog B)) : option exn :=
  match ps with
  | [] => None
  | Throw e :: _ => Some e
  | _ :: ps' => first_failure ps'
  end.

Definition all_values (ps : list (prog B)) : option (list B) :=
  traverse (fun p => match p with Return b => Some b | _ => None end) ps.

(** [Promise.all]: rejected as soon as one promise is rejected, fulfilled
    once every promise is fulfilled, pending otherwise. *)
Definition Promise_all (ps : list (prog B)) : option (outcome (list B)) :=
  match first_failure ps with
  | Some e => Some (Failed e)
  | None => option_map (@Done _) (all_values ps)
  end.

(** State of a running fan-out: the loop that creates the promises while
    it is still suspended, the promises created (each as the program it has
    left to run), the settlement of the whole call once the caller can
    observe it, and the requests issued so far. *)
Record joining := {
  prelude : option (prog (list (prog B)));
  children : list (prog B);
  verdict : option (outcome A);
  issued : list request
}.

Variable f : fan_out A B.

Definition settle (ps : list (prog B)) : option (outcome A) :=
  match Promise_all ps with
  | Some (Done _) => Some (Done (result f))
  | Some (Failed e) => Some (Failed e)
  | None => None
  end.

(** Run the promise-creating loop as far as it goes without a reply. *)
Definition enter (p : prog (list (prog B))) (log : list request) : joining :=
  match p with
  | Return ps =>
      {| prelude := None; children := ps; verdict := settle ps;
         issued := log ++ first_requests ps |}
  | Throw e =>
      {| prelude := None; children := []; verdict := Some (Failed e);
         issued := log |}
  | Fetch r k =>
      {| prelude := Some p; children := []; verdict := None;
         issued := log ++ [r] |}
  end.

Definition launch : joining := enter (promises f) [].

(** The network settles one request: the one the loop is suspended on, or
    the one promise [i] is suspended on. *)
Inductive event :=
| LoopReply (rep : reply)
| PromiseReply (i : nat) (rep : reply).

Definition step (st : joining) (ev : event) : joining :=
  match prelude st, ev with
  | Some (Fetch _ k), LoopReply rep => enter (k rep) (issued st)
  | None, PromiseReply i rep =>
      match nth_error (children st) i with
      | Some (Fetch _ k) =>
          let children' := replace_nth i (k rep) (children st) in
          {| prelude := None;
             children := children';
             verdict := match verdict st with
                        | Some v => Some v
                        | None => settle children'
                        end;
             issued := issued st ++ outstanding (k rep) |}
      | _ => st
      end
  | _, _ => st
  end.

Definition steps (evs : list event) : joining := fold_left step evs launch.

(** Are requests still in flight? *)
Definition in_flight (st : joining) : list nat :=
  map fst (filter (fun ip => is_outstanding (snd ip))
                  (combine (seq 0 (List.length (children st))) (children st))).
End Joining.

(** ** Notions used in the statements *)

Section Serializable.
Context {NM : NumberModel}.

(** Induction over values that reaches inside arrays and objects. *)
Section ValueInduction.
Variable P : value -> Prop.
Hypothesis P_undefined : P Undefined.
Hypothesis P_null : P Null.
Hypothesis P_bool : forall b, P (Bool b).
Hypothesis P_num : forall n, P (Num n).
Hypothesis P_str : forall s, P (Str s).
Hypothesis P_arr : forall elems, Forall P elems -> P (Arr elems).
Hypothesis P_obj : forall props, Forall (fun p => P (snd p)) props -> P (Obj props).

Fixpoint value_induction (v : value) : P v :=
  match v with
  | Undefined => P_undefined
  | Null => P_null
  | Bool b => P_bool b
  | Num n => P_num n
  | Str s => P_str s
  | Arr elems =>
      P_arr ((fix all (l : list value) : Forall P l :=
                match l with
                | [] => Forall_nil P
                | e :: l' => Forall_cons e (value_induction e) (all l')
                end) elems)
  | Obj props =>
      P_obj ((fix all (l : list (jsstring * value)) : Forall (fun p => P (snd p)) l :=
                match l with
                | [] => Forall_nil _
                | p :: l' => Forall_cons p (value_induction (snd p)) (all l')
                end) props)
  end.
End ValueInduction.

(** The structurally-serializable values: no [undefined] anywhere, numbers
    that are finite and that the platform prints as a JSON number and reads
    back as the same number (every finite double but negative zero), objects
    as ordinary objects are, with distinct keys in property order. *)
Inductive serializable : value -> Prop :=
| ser_null : serializable Null
| ser_bool (b : bool) : serializable (Bool b)
| ser_num (n : number) :
    Number_isFinite n = true ->
    json_number_token (Number_toString n) = true ->
    StringToNumber (Number_toString n) = n ->
    serializable (Num n)
| ser_str (s : jsstring) : serializable (Str s)
| ser_arr (elems : list value) :
    Forall serializable elems -> serializable (Arr elems)
| ser_obj (props : list (jsstring * value)) :
    obj_wf props = true ->
    Forall (fun p => serializable (snd p)) props ->
    serializable (Obj props).

(** The text of a value as an array element. *)
Definition text_of (v : value) : jsstring :=
  match stringify v with
  | Some t => t
  | None => js "null"
  end.

Definition member_text (p : jsstring * value) : jsstring :=
  quote (fst p) ++ 58%N :: text_of (snd p).

(** What may follow a value in a text: not a character that would extend a
    number. *)
Definition follow_ok (rest : jsstring) : Prop :=
  match rest with
  | [] => True
  | c :: _ => is_number_char c = false
  end.

(** A text that begins a value: neither white space nor a closing bracket. *)
Definition value_start (t : jsstring) : Prop :=
  exists c t', t = c :: t' /\ is_ws c = false /\ c <> 93%N /\ c <> 125%N.

(** Parsing the text of [v] with anything acceptable after it gives [v] and
    stops there, unless the fuel runs out. *)
Definition round_trips (v : value) : Prop :=
  forall fuel rest,
    follow_ok rest ->
    parse_value fuel (text_of v ++ rest) = Parsed v rest \/
    parse_value fuel (text_of v ++ rest) = OutOfFuel.
End Serializable.

(** The transport's state after [get] has read each of [keys] in turn. *)
Definition after_gets {NM : NumberModel} (W : Type)
           (transport : W -> request -> W * reply) (this : Client.t)
           (keys : list jsstring) (w : W) : W :=
  fold_left (fun w' k => world (run transport (Client.get this k None) w')) keys w.

Definition and_then (c : code_unit) (r : option (jsstring * jsstring)) :=
  match r with
  | Some (t, rest) => Some (c :: t, rest)
  | None => None
  end.

(** What a promise made by [delete] can be: still waiting for its reply,
    fulfilled with the client, or rejected with the transport's error. *)
Definition delete_promise (this : Client.t) (k : jsstring) (p : prog Client.t) : Prop :=
  p = Client.delete this k \/ p = Return this \/
  exists reason, p = Throw (TransportError reason).

(** States of a fan-out whose promises are the deletes of [keys]. *)
Definition deleting (this : Client.t) (keys : list jsstring)
           (st : joining Client.t Client.t) : Prop :=
  prelude st = None /\
  Forall2 (delete_promise this) keys (children st) /\
  (verdict st = None -> first_failure (children st) = None) /\
  (forall v, verdict st = Some (Done v) ->
             v = this /\ exists vs, all_values (children st) = Some vs).


(** *** Strings and URI texts *)

Definition no_surrogate (c : code_unit) : bool :=
  negb (is_high_surrogate c || is_low_surrogate c).

(** A surrogate at the head of [s] that has no partner: a low one, or a high
    one that no low one follows. *)
Definition lone_surrogate_first (s : jsstring) : bool :=
  match s with
  | [] => false
  | c :: rest =>
      is_low_surrogate c ||
      (is_high_surrogate c &&
       match rest with
       | d :: _ => negb (is_low_surrogate d)
       | [] => true
       end)
  end.

(** Is every surrogate of [s] one half of a pair, a high one followed by a
    low one? *)
Fixpoint paired_surrogates (s : jsstring) : bool :=
  match s with
  | [] => true
  | c :: rest =>
      if is_low_surrogate c then false
      else if is_high_surrogate c then
        match rest with
        | d :: rest' => is_low_surrogate d && paired_surrogates rest'
        | [] => false
        end
      else paired_surrogates rest
  end.

(** A string of 16-bit code units, as every ECMAScript string is. *)
Definition sixteen_bit (s : jsstring) : bool := forallb (fun c => c <? 65536)%N s.

(** The characters [encodeURIComponent] produces: the unreserved ones, the
    percent sign and the upper-case hexadecimal digits. *)
Definition uri_safe (c : code_unit) : bool :=
  (URI.unreserved c || (c =? 37) || is_digit c || ((65 <=? c) && (c <=? 70)))%N.

(** *** Values after one trip through the codec *)

Section Normal.
Context {NM : NumberModel}.

(** What comes back of a value that went through [JSON.stringify] and
    [JSON.parse]: [undefined] elements of arrays and numbers that are not
    finite have become [null], properties whose value is [undefined] are
    gone. *)
Fixpoint json_image (v : value) : value :=
  match v with
  | Undefined => Null
  | Num n => if Number_isFinite n then Num n else Null
  | Arr elems => Arr (map json_image elems)
  | Obj props =>
      Obj (flat_map (fun p => match snd p with
                              | Undefined => []
                              | _ => [(fst p, json_image (snd p))]
                              end) props)
  | _ => v
  end.
End Normal.

(** *** Sequential reads *)

(** Does [get] return a value for each of [keys], read in turn from [w]? *)
Fixpoint reads_ok {NM : NumberModel} (W : Type)
         (transport : W -> request -> W * reply) (this : Client.t)
         (keys : list jsstring) (w : W) : bool :=
  match keys with
  | [] => true
  | k :: keys' =>
      match settled (run transport (Client.get this k None) w) with
      | Done _ => reads_ok transport this keys'
                           (world (run transport (Client.get this k None) w))
      | Failed _ => false
      end
  end.

(** *** Sequential writes *)

(** The requests of [set] for keys with their values, in order. *)
Definition posts {NM : NumberModel} (this : Client.t)
           (keys : list jsstring) (values : list value) : list request :=
  map (fun kv => Client.set_request this (fst kv) (snd kv)) (combine keys values).

(** The properties that a [for...in] loop comes to: the own enumerable
    ones, then those the prototype contributes, the ones left out that the
    object has a property of the same name for. *)
Fixpoint for_in_entries {NM : NumberModel} (obj : jsobject) : list property :=
  match obj with
  | [] => []
  | own :: proto =>
      filter prop_enumerable own ++
      filter (fun p => negb (has_name (prop_name p) own)) (for_in_entries proto)
  end.

(** *** Replies to a fan-out *)

(** The reply is a response (of any status) to one of the promises. *)
Definition is_answer (ev : event) : bool :=
  match ev with
  | PromiseReply _ (Response _ _) => true
  | _ => false
  end.

(** The event settles the request of promise [i]. *)
Definition answers (i : nat) (ev : event) : bool :=
  match ev with
  | PromiseReply j _ => Nat.eqb j i
  | LoopReply _ => false
  end.

Definition answered (evs : list event) (i : nat) : bool := existsb (answers i) evs.

(** ** Inputs for concrete runs *)

Module Sample.
#[local] Existing Instance ExactDecimal.model.

Definition db : Client.t := {| Client.key := Some (js "https://kv.example/db") |}.

Definition dec (m e : Z) : value := Num (ExactDecimal.Finite m e : number).

(** An object with an index key, a nested array and a nested object. *)
Definition sample : value :=
  Obj [(js "1", Arr [dec 25 (-1); Str (jsq "a'b"); Bool true; Null]);
       (js "name", Obj [(js "n", dec (-12) 1)])].

Definition listing : jsstring := js "a%2Fb" ++ 10%N :: js "a%20c".

Definition three : object :=
  [(js "a", dec 1 0); (js "b", dec 2 0); (js "c", dec 3 0)].

Definition post (k : jsstring) (text : jsstring) : request :=
  {| method := POST; url := js "https://kv.example/db";
     headers := [(js "Content-Type", js "application/x-www-form-urlencoded")];
     body := Some (k ++ js "=" ++ text) |}.

Definition no_variables (name : jsstring) : outcome (option jsstring) := Done None.

Definition two_keys : jsstring := js "a" ++ 10%N :: js "b".

Definition k123 : list jsstring := [js "k1"; js "k2"; js "k3"].


Definition raw_option : option Client.get_options :=
  Some {| Client.raw := Some true |}.

(** A high surrogate on its own. *)
Definition lone_high : jsstring := [55357%N].

(** A listing whose second line is no URI component. *)
Definition bad_listing : jsstring := js "a" ++ 10%N :: js "%zz".

Definition trailing_listing : jsstring := js "a" ++ [10%N].

Definition repeated_listing : jsstring :=
  js "a" ++ 10%N :: js "b" ++ 10%N :: js "a".

(** A value with an [undefined] property, an [undefined] element and a
    number that is not finite. *)
Definition holes : value :=
  Obj [(js "a", Undefined);
       (js "b", Arr [Undefined; Num (ExactDecimal.NaN : number); dec 25 (-1)])].

Definition own_property (k : jsstring) (a : any) : property :=
  {| prop_name := k; prop_enumerable := true; prop_value := a |}.

(** [Object.create({inherited: 1})] with the own property [a = 2]. *)
Definition with_prototype : jsobject :=
  [[own_property (js "a") (Plain (dec 2 0))];
   [own_property (js "inherited") (Plain (dec 1 0))]].

(** [{a: 1, b: 10n, c: 3}] *)
Definition with_bigint : jsobject :=
  [[own_property (js "a") (Plain (dec 1 0)); own_property (js "b") (BigInt 10);
    own_property (js "c") (Plain (dec 3 0))]].

(** An object with [a = 2] and a property [h] that is not enumerable, on a
    prototype with enumerable [inherited = 1], [a = 9] and [h = 7]. *)
Definition shadowing : jsobject :=
  [[own_property (js "a") (Plain (dec 2 0));
    {| prop_name := js "h"; prop_enumerable := false;
       prop_value := Plain (dec 5 0) |}];
   [own_property (js "inherited") (Plain (dec 1 0));
    own_property (js "a") (Plain (dec 9 0));
    own_property (js "h") (Plain (dec 7 0))]].

Definition read_twice : object := [(js "a", dec 3 0); (js "b", dec 2 0)].

End Sample.

(** * Properties *)

(** ** Strings *)

Lemma jsstring_eqb_spec (s t : jsstring) : reflect (s = t) (jsstring_eqb s t).
Proof.
  revert t; induction s as [|c s IH]; intros [|d t]; simpl;
    try (constructor; congruence).
  destruct (N.eqb_spec c d) as [->|Hne]; simpl.
  - destruct (IH t) as [->|Hne]; constructor; congruence.
  - constructor; congruence.
Qed.

Lemma jsstring_eqb_refl (s : jsstring) : jsstring_eqb s s = true.
Proof. destruct (jsstring_eqb_spec s s); congruence. Qed.

Lemma jsstring_eqb_neq (s t : jsstring) : s <> t -> jsstring_eqb s t = false.
Proof. destruct (jsstring_eqb_spec s t); congruence. Qed.

Lemma is_prefix_app (p s : jsstring) : is_prefix p (p ++ s) = true.
Proof. induction p; simpl; auto. rewrite N.eqb_refl; auto. Qed.

Lemma contains_prefix (needle hay : jsstring) :
  is_prefix needle hay = true -> contains needle hay = true.
Proof. intros H. destruct hay; simpl; rewrite H; reflexivity. Qed.

Lemma contains_app (needle a b : jsstring) : contains needle (a ++ needle ++ b) = true.
Proof.
  induction a as [|c a IH].
  - cbn [app]. apply contains_prefix, is_prefix_app.
  - simpl. rewrite IH. apply orb_true_r.
Qed.

(** ** URI coding *)

(** [encodeURIComponent] throws only on surrogates that are not paired; in
    particular it accepts every string without surrogates. *)
Lemma encodeURIComponent_without_surrogates (s : jsstring) :
  forallb (fun c => negb (is_high_surrogate c || is_low_surrogate c)) s = true ->
  exists encoded, URI.encodeURIComponent s = Some encoded.
Proof.
  induction s as [|c s IH]; cbn [forallb URI.encodeURIComponent]; [eauto|].
  intros H. apply andb_prop in H as [Hc Hs]. destruct (IH Hs) as [t ->].
  apply negb_true_iff, orb_false_elim in Hc as [-> ->].
  destruct (URI.unreserved c); cbn [option_map]; eauto.
Qed.

Lemma unreserved_below_128 (c : code_unit) :
  URI.unreserved c = true -> (c < 128)%N.
Proof.
  unfold URI.unreserved, is_digit, is_upper, is_lower. cbn [existsb].
  rewrite !orb_true_iff, !andb_true_iff, !N.leb_le, !N.eqb_eq. lia.
Qed.

Lemma unreserved_not_surrogate (c : code_unit) :
  URI.unreserved c = true ->
  is_high_surrogate c = false /\ is_low_surrogate c = false.
Proof.
  intros H. apply unreserved_below_128 in H.
  unfold is_high_surrogate, is_low_surrogate.
  assert (H1 : (0xD800 <=? c)%N = false) by (apply N.leb_gt; lia).
  assert (H2 : (0xDC00 <=? c)%N = false) by (apply N.leb_gt; lia).
  rewrite H1, H2. split; reflexivity.
Qed.

Lemma encodeURIComponent_paired_bounded (n : nat) :
  forall s : jsstring,
    List.length s <= n ->
    if paired_surrogates s
    then exists encoded, URI.encodeURIComponent s = Some encoded
    else URI.encodeURIComponent s = None.
Proof.
  induction n as [|n IH]; intros [|c s] Hlen; cbn [List.length] in Hlen;
    try lia; try (cbn; eauto; fail).
  cbn [paired_surrogates URI.encodeURIComponent].
  destruct (URI.unreserved c) eqn:Hun.
  - destruct (unreserved_not_surrogate _ Hun) as [-> ->].
    specialize (IH s ltac:(lia)).
    destruct (paired_surrogates s); [destruct IH as [e ->]; cbn; eauto|].
    rewrite IH. reflexivity.
  - destruct (is_low_surrogate c); [reflexivity|].
    destruct (is_high_surrogate c).
    + destruct s as [|d s]; [reflexivity|].
      destruct (is_low_surrogate d); [|reflexivity]. cbn [andb].
      cbn [List.length] in Hlen. specialize (IH s ltac:(lia)).
      destruct (paired_surrogates s); [destruct IH as [e ->]; cbn; eauto|].
      rewrite IH. reflexivity.
    + specialize (IH s ltac:(lia)).
      destruct (paired_surrogates s); [destruct IH as [e ->]; cbn; eauto|].
      rewrite IH. reflexivity.
Qed.

(** [encodeURIComponent] throws exactly on the strings that have a surrogate
    without its partner. *)
Lemma encodeURIComponent_paired (s : jsstring) :
  (paired_surrogates s = true ->
   exists encoded, URI.encodeURIComponent s = Some encoded) /\
  (paired_surrogates s = false -> URI.encodeURIComponent s = None).
Proof.
  pose proof (@encodeURIComponent_paired_bounded (List.length s) s (le_n _)) as H.
  destruct (paired_surrogates s); split; intros; try discriminate; exact H.
Qed.

(** ** The JSON codec *)

(** *** String literals *)

Section StringRoundTrip.
Local Open Scope N_scope.

Ltac bools :=
  repeat match goal with
         | |- context [N.leb ?a ?b] => destruct (N.leb_spec a b)
         | |- context [N.ltb ?a ?b] => destruct (N.ltb_spec a b)
         | |- context [N.eqb ?a ?b] => destruct (N.eqb_spec a b)
         end.

Lemma hex_value_lower (d : N) : d < 16 -> hex_value (hex_lower d) = Some d.
Proof.
  intros H. unfold hex_value, hex_lower, is_digit.
  bools; cbn [andb orb negb]; try lia; f_equal; lia.
Qed.

Lemma hex4_digits (c : code_unit) :
  c < 65536 ->
  hex4 (hex_lower (c / 4096 mod 16)) (hex_lower (c / 256 mod 16))
       (hex_lower (c / 16 mod 16)) (hex_lower (c mod 16)) = Some c.
Proof.
  intros H. unfold hex4.
  rewrite !hex_value_lower by (apply N.mod_lt; lia).
  f_equal. zify. Z.to_euclidean_division_equations. lia.
Qed.

Lemma short_escape_Some (c e : code_unit) :
  short_escape c = Some e -> (e =? 117) = false /\ unescape_char e = Some c.
Proof.
  unfold short_escape. intros H.
  repeat match type of H with
         | context [N.eqb ?a ?b] => destruct (N.eqb_spec a b)
         end; try discriminate; injection H as <-; subst; split; reflexivity.
Qed.

Lemma short_escape_None (c : code_unit) :
  short_escape c = None -> c <> 34 /\ c <> 92.
Proof.
  unfold short_escape. bools; try discriminate. intros _. split; assumption.
Qed.

Lemma string_chars_literal (c : code_unit) (s : jsstring) :
  c <> 34 -> c <> 92 -> 32 <= c ->
  string_chars (c :: s) = and_then c (string_chars s).
Proof.
  intros H1 H2 H3. cbn [string_chars].
  destruct (N.eqb_spec c 34); [contradiction|].
  destruct (N.eqb_spec c 92); [contradiction|].
  destruct (N.ltb_spec c 32); [lia|]. reflexivity.
Qed.

Lemma string_chars_short (c e : code_unit) (s : jsstring) :
  short_escape c = Some e ->
  string_chars (92 :: e :: s) = and_then c (string_chars s).
Proof.
  intros H. apply short_escape_Some in H as [H1 H2].
  cbn [string_chars]. change (92 =? 34) with false. change (92 =? 92) with true.
  cbv iota. rewrite H1, H2. reflexivity.
Qed.

Lemma string_chars_unicode (c : code_unit) (s : jsstring) :
  c < 65536 ->
  string_chars (unicode_escape c ++ s) = and_then c (string_chars s).
Proof.
  intros H. unfold unicode_escape. cbn [app string_chars].
  change (92 =? 34) with false. change (92 =? 92) with true.
  change (117 =? 117) with true. cbv iota.
  rewrite (hex4_digits H). reflexivity.
Qed.

Lemma string_chars_quote_chars (n : nat) :
  forall s rest, (List.length s <= n)%nat ->
                 string_chars (quote_chars s ++ 34 :: rest) = Some (s, rest).
Proof.
  induction n as [|n IH]; intros [|c s] rest Hlen; cbn in Hlen; try lia;
    try reflexivity.
  cbn [quote_chars].
  destruct (short_escape c) as [e|] eqn:Hshort.
  - cbn [app]. rewrite (@string_chars_short c e _ Hshort), IH by lia.
    reflexivity.
  - apply short_escape_None in Hshort as [H34 H92].
    destruct (N.ltb_spec c 32) as [Hlt|Hge].
    { rewrite <- app_assoc, string_chars_unicode, IH by lia. reflexivity. }
    destruct (is_high_surrogate c) eqn:Hhi.
    { unfold is_high_surrogate in Hhi. apply andb_prop in Hhi as [Hlo Hup].
      apply N.leb_le in Hlo, Hup.
      destruct s as [|d s].
      - cbn [app]. rewrite string_chars_unicode by lia. reflexivity.
      - destruct (is_low_surrogate d) eqn:Hd.
        + unfold is_low_surrogate in Hd. apply andb_prop in Hd as [Hdlo Hdup].
          apply N.leb_le in Hdlo, Hdup. cbn [app].
          rewrite string_chars_literal by lia.
          rewrite string_chars_literal by lia.
          rewrite IH by (cbn in Hlen; lia). reflexivity.
        + rewrite <- app_assoc, string_chars_unicode, IH by (cbn in Hlen |- *; lia).
          reflexivity. }
    destruct (is_low_surrogate c) eqn:Hlow.
    { unfold is_low_surrogate in Hlow. apply andb_prop in Hlow as [Hlo Hup].
      apply N.leb_le in Hlo, Hup.
      rewrite <- app_assoc, string_chars_unicode, IH by lia. reflexivity. }
    cbn [app]. rewrite string_chars_literal, IH by (assumption || lia). reflexivity.
Qed.

Lemma string_chars_quote (s rest : jsstring) :
  string_chars (quote_chars s ++ 34 :: rest) = Some (s, rest).
Proof. apply (string_chars_quote_chars (n := List.length s)). lia. Qed.
End StringRoundTrip.

(** *** Fuel *)

Section Fuel.
Context {NM : NumberModel}.
Local Open Scope N_scope.

Lemma skip_ws_length (s : jsstring) : (List.length (skip_ws s) <= List.length s)%nat.
Proof.
  induction s as [|c s IH]; cbn; [lia|]. destruct (is_ws c); cbn; lia.
Qed.

Lemma skip_ws_cons_length (s rest : jsstring) (c : code_unit) :
  skip_ws s = c :: rest -> (List.length rest < List.length s)%nat.
Proof.
  intros H. pose proof (skip_ws_length s) as Hlen. rewrite H in Hlen. cbn in Hlen. lia.
Qed.

Lemma string_chars_length (s t r : jsstring) :
  string_chars s = Some (t, r) -> (List.length r < List.length s)%nat.
Proof.
  remember (List.length s) as n eqn:Hn.
  assert (Hle : (List.length s <= n)%nat) by lia. clear Hn.
  revert s t r Hle. induction n as [|n IH]; intros [|c s] t r Hle H; cbn in Hle;
    try discriminate; try lia.
  cbn [string_chars] in H.
  destruct (c =? 34). { injection H as <- <-. cbn. lia. }
  destruct (c =? 92).
  - destruct s as [|e s]; [discriminate|].
    destruct (e =? 117).
    + destruct s as [|h1 [|h2 [|h3 [|h4 s]]]]; try discriminate.
      destruct (hex4 h1 h2 h3 h4); [|discriminate].
      destruct (string_chars s) as [[u r']|] eqn:Hs; [|discriminate].
      injection H as <- <-. apply IH in Hs; cbn in *; lia.
    + destruct (unescape_char e); [|discriminate].
      destruct (string_chars s) as [[u r']|] eqn:Hs; [|discriminate].
      injection H as <- <-. apply IH in Hs; cbn in *; lia.
  - destruct (c <? 32); [discriminate|].
    destruct (string_chars s) as [[u r']|] eqn:Hs; [|discriminate].
    injection H as <- <-. apply IH in Hs; cbn in *; lia.
Qed.

Lemma span_spec (p : code_unit -> bool) (s a b : jsstring) :
  span p s = (a, b) ->
  s = a ++ b /\ forallb p a = true /\
  match b with [] => True | c :: _ => p c = false end.
Proof.
  revert a b; induction s as [|c s IH]; intros a b H; cbn in H.
  - injection H as <- <-. auto.
  - destruct (p c) eqn:Hc.
    + destruct (span p s) as [a' b'] eqn:Hs. injection H as <- <-.
      destruct (IH _ _ eq_refl) as (-> & Hall & Hb). cbn. rewrite Hc. auto.
    + injection H as <- <-. cbn. auto.
Qed.

Lemma span_length (p : code_unit -> bool) (s a b : jsstring) :
  span p s = (a, b) -> (List.length b <= List.length s)%nat.
Proof.
  intros H. apply span_spec in H as (-> & _). rewrite length_app. lia.
Qed.

Lemma parsed_map_fuel {A B} (f : A -> B) (p : parsed A) :
  p <> OutOfFuel -> parsed_map f p <> OutOfFuel.
Proof. destruct p; cbn; congruence. Qed.

Lemma parsed_map_rest {A B} (f : A -> B) (p : parsed A) (b : B) (rest : jsstring) :
  parsed_map f p = Parsed b rest -> exists a, p = Parsed a rest.
Proof. destruct p; cbn; intros [=]; subst; eauto. Qed.

Lemma starts_with_Some (c : code_unit) (s r : jsstring) :
  starts_with c s = Some r -> s = c :: r.
Proof.
  destruct s as [|d s]; cbn; [discriminate|].
  destruct (N.eqb_spec d c); [|discriminate]. congruence.
Qed.

Lemma starts_skip_length (c : code_unit) (s r : jsstring) :
  starts_with c (skip_ws s) = Some r -> (List.length r < List.length s)%nat.
Proof.
  intros H. apply starts_with_Some in H. apply skip_ws_cons_length in H. exact H.
Qed.

(** The parser consumes input at each step, so a fuel of twice the length
    (and one or two more) is never exhausted. *)
Lemma parse_fuel (fuel : nat) :
  (forall s, (2 * List.length s + 1 <= fuel)%nat ->
             parse_value fuel s <> OutOfFuel /\
             forall v rest, parse_value fuel s = Parsed v rest ->
                            (List.length rest <= List.length s)%nat) /\
  (forall s, (2 * List.length s + 2 <= fuel)%nat ->
             parse_elements fuel s <> OutOfFuel /\
             forall vs rest, parse_elements fuel s = Parsed vs rest ->
                             (List.length rest <= List.length s)%nat) /\
  (forall s, (2 * List.length s + 1 <= fuel)%nat ->
             parse_members fuel s <> OutOfFuel /\
             forall es rest, parse_members fuel s = Parsed es rest ->
                             (List.length rest <= List.length s)%nat).
Proof.
  induction fuel as [|fuel (IHv & IHe & IHm)].
  { repeat split; intros; lia. }
  assert (Hmap : forall (A B : Type) (f : A -> B) (p : parsed A) (n : nat),
             p <> OutOfFuel ->
             (forall a rest, p = Parsed a rest -> (List.length rest <= n)%nat) ->
             parsed_map f p <> OutOfFuel /\
             forall b rest, parsed_map f p = Parsed b rest ->
                            (List.length rest <= S n)%nat).
  { intros A B f p n Hoof Hlen. split; [apply parsed_map_fuel, Hoof|].
    intros b rest Hp. apply parsed_map_rest in Hp as [a Hp].
    apply Hlen in Hp. lia. }
  assert (Hweaken : forall (A : Type) (p : parsed A) (n m : nat),
             (n <= m)%nat ->
             (p <> OutOfFuel /\
              forall a rest, p = Parsed a rest -> (List.length rest <= n)%nat) ->
             p <> OutOfFuel /\
             forall a rest, p = Parsed a rest -> (List.length rest <= m)%nat).
  { intros A p n m Hnm [Hoof Hlen]. split; [exact Hoof|].
    intros a rest Hp. apply Hlen in Hp. lia. }
  assert (Hbad : forall (A : Type) (n : nat),
             @Invalid A <> OutOfFuel /\
             forall a rest, @Invalid A = Parsed a rest -> (List.length rest <= n)%nat).
  { intros A n. split; [discriminate|intros ? ? [=]]. }
  assert (Hgood : forall (A : Type) (a : A) (r : jsstring) (n : nat),
             (List.length r <= n)%nat ->
             Parsed a r <> OutOfFuel /\
             forall a' rest, Parsed a r = Parsed a' rest -> (List.length rest <= n)%nat).
  { intros A a r n Hr. split; [discriminate|]. intros ? ? [= <- <-]. exact Hr. }
  split; [|split]; intros s Hfuel.
  - cbn [parse_value].
    destruct (skip_ws s) as [|c rest] eqn:Hs; [apply Hbad|].
    apply skip_ws_cons_length in Hs.
    destruct (c =? 123).
    { destruct (starts_with 125 (skip_ws rest)) as [rest'|] eqn:Hrest.
      - apply starts_skip_length in Hrest. apply Hgood. lia.
      - apply (Hweaken _ _ (S (List.length rest))); [lia|].
        apply Hmap; apply IHm; lia. }
    destruct (c =? 91).
    { destruct (starts_with 93 (skip_ws rest)) as [rest'|] eqn:Hrest.
      - apply starts_skip_length in Hrest. apply Hgood. lia.
      - apply (Hweaken _ _ (S (List.length rest))); [lia|].
        apply Hmap; apply IHe; lia. }
    destruct (c =? 34).
    { destruct (string_chars rest) as [[t r]|] eqn:Hstr; [|apply Hbad].
      apply string_chars_length in Hstr. apply Hgood. lia. }
    destruct (is_prefix (js "true") (c :: rest)).
    { apply Hgood. pose proof (length_skipn 4 (c :: rest)). cbn [List.length] in *. lia. }
    destruct (is_prefix (js "false") (c :: rest)).
    { apply Hgood. pose proof (length_skipn 5 (c :: rest)). cbn [List.length] in *. lia. }
    destruct (is_prefix (js "null") (c :: rest)).
    { apply Hgood. pose proof (length_skipn 4 (c :: rest)). cbn [List.length] in *. lia. }
    destruct (is_number_char c); [|apply Hbad].
    destruct (span is_number_char (c :: rest)) as [tok r] eqn:Hspan.
    apply span_length in Hspan. cbn [List.length] in Hspan.
    destruct (json_number_token tok); [apply Hgood; lia|apply Hbad].
  - cbn [parse_elements].
    destruct (IHv s) as [Hoof Hlen]; [lia|].
    destruct (parse_value fuel s) as [v rest| |] eqn:Hv;
      [|apply Hbad|congruence].
    specialize (Hlen _ _ eq_refl).
    destruct (starts_with 44 (skip_ws rest)) as [rest'|] eqn:Hrest.
    { apply starts_skip_length in Hrest.
      apply (Hweaken _ _ (S (List.length rest'))); [lia|].
      apply Hmap; apply IHe; lia. }
    destruct (starts_with 93 (skip_ws rest)) as [rest'|] eqn:Hrest';
      [|apply Hbad].
    apply starts_skip_length in Hrest'. apply Hgood. lia.
  - cbn [parse_members].
    destruct (starts_with 34 (skip_ws s)) as [rest|] eqn:Hs; [|apply Hbad].
    apply starts_skip_length in Hs.
    destruct (string_chars rest) as [[k rest1]|] eqn:Hstr; [|apply Hbad].
    apply string_chars_length in Hstr.
    destruct (starts_with 58 (skip_ws rest1)) as [rest2|] eqn:Hcolon; [|apply Hbad].
    apply starts_skip_length in Hcolon.
    destruct (IHv rest2) as [Hoof Hlen]; [lia|].
    destruct (parse_value fuel rest2) as [v rest3| |] eqn:Hv;
      [|apply Hbad|congruence].
    specialize (Hlen _ _ eq_refl).
    destruct (starts_with 44 (skip_ws rest3)) as [rest4|] eqn:Hrest.
    { apply starts_skip_length in Hrest.
      apply (Hweaken _ _ (S (List.length rest4))); [lia|].
      apply Hmap; apply IHm; lia. }
    destruct (starts_with 125 (skip_ws rest3)) as [rest4|] eqn:Hrest';
      [|apply Hbad].
    apply starts_skip_length in Hrest'. apply Hgood. lia.
Qed.
End Fuel.

(** *** Property order *)

Section ObjectOrder.
Variable A : Type.
Implicit Types (o : list (jsstring * A)) (k : jsstring) (v : A).
Local Open Scope N_scope.

Lemma keys_distinct_app (ks : list jsstring) (k : jsstring) (ks' : list jsstring) :
  keys_distinct (ks ++ k :: ks') = true -> ~ In k ks.
Proof.
  induction ks as [|k0 ks IH]; cbn; [tauto|].
  intros H. apply andb_prop in H as [Hk0 H].
  intros [->|Hin]; [|exact (IH H Hin)].
  apply negb_true_iff in Hk0.
  assert (Hex : existsb (jsstring_eqb k) (ks ++ k :: ks') = true).
  { apply existsb_exists. exists k. split.
    - apply in_or_app. right. left. reflexivity.
    - destruct (jsstring_eqb_spec k k); congruence. }
  congruence.
Qed.

Lemma obj_has_keys o k : obj_has o k = false <-> ~ In k (obj_keys o).
Proof.
  induction o as [|[k' v'] o IH]; cbn.
  - tauto.
  - destruct (jsstring_eqb_spec k' k) as [->|Hne]; cbn.
    + split; [discriminate|tauto].
    + rewrite IH. tauto.
Qed.

(** In an object in property order, the keys before an index key are index
    keys with smaller indices. *)
Lemma index_keys_before (ks : list jsstring) :
  forall lo k ks' i,
    index_keys_ascend lo (ks ++ k :: ks') = true ->
    array_index k = Some i ->
    match lo with Some j => j < i | None => True end /\
    Forall (fun k' => exists j, array_index k' = Some j /\ j < i) ks.
Proof.
  induction ks as [|k0 ks IH]; intros lo k ks' i H Hk; cbn in H.
  - rewrite Hk in H. split; [|constructor].
    destruct lo as [j|]; [|exact I].
    apply andb_prop in H as [H _]. apply N.ltb_lt, H.
  - destruct (array_index k0) as [j0|] eqn:Hk0.
    + assert (H' : index_keys_ascend (Some j0) (ks ++ k :: ks') = true /\
                   match lo with Some j => j < j0 | None => True end).
      { destruct lo as [j|]; [|auto].
        apply andb_prop in H as [H1 H2]. apply N.ltb_lt in H1. auto. }
      destruct H' as [H' Hlo].
      destruct (IH _ _ _ _ H' Hk) as [Hj0 Hall]. split.
      * destruct lo; [lia|exact I].
      * constructor; eauto.
    + rewrite forallb_app in H. apply andb_prop in H as [_ H]. cbn in H.
      rewrite Hk in H. discriminate.
Qed.

Lemma obj_insert_index_last o i k v :
  Forall (fun k' => exists j, array_index k' = Some j /\ j < i) (obj_keys o) ->
  obj_insert_index o i k v = o ++ [(k, v)].
Proof.
  induction o as [|[k0 v0] o IH]; cbn; intros H; [reflexivity|].
  inversion H as [|? ? (j & Hj & Hlt) Hrest]; subst.
  rewrite Hj. apply N.ltb_lt in Hlt. rewrite Hlt, IH by assumption. reflexivity.
Qed.

Lemma obj_set_last o k v (later : list (jsstring * A)) :
  obj_wf (o ++ (k, v) :: later) = true -> obj_set o k v = o ++ [(k, v)].
Proof.
  unfold obj_wf, obj_keys. rewrite map_app. cbn [map fst].
  intros H. apply andb_prop in H as [Hdistinct Hascend].
  unfold obj_set.
  apply keys_distinct_app in Hdistinct. apply obj_has_keys in Hdistinct.
  rewrite Hdistinct.
  destruct (array_index k) as [i|] eqn:Hk; [|reflexivity].
  apply obj_insert_index_last.
  exact (proj2 (index_keys_before _ _ _ _ Hascend Hk)).
Qed.

Lemma obj_of_entries_wf (l : list (jsstring * A)) :
  obj_wf l = true -> obj_of_entries l = l.
Proof.
  unfold obj_of_entries.
  enough (H : forall later o, obj_wf (o ++ later) = true ->
                              fold_left (fun o e => obj_set o (fst e) (snd e)) later o
                              = o ++ later).
  { intros Hwf. apply (H l []). exact Hwf. }
  induction later as [|[k v] later IH]; intros o Hwf; cbn [fold_left fst snd].
  - rewrite app_nil_r. reflexivity.
  - rewrite (obj_set_last _ _ _ _ Hwf), IH.
    + rewrite <- app_assoc. reflexivity.
    + rewrite <- app_assoc. exact Hwf.
Qed.
End ObjectOrder.

(** *** Number tokens *)

Section NumberTokens.
Local Open Scope N_scope.

Lemma is_digit_number_char (c : code_unit) :
  is_digit c = true -> is_number_char c = true.
Proof. unfold is_number_char. intros ->. reflexivity. Qed.

Lemma forallb_digits_number (t : jsstring) :
  forallb is_digit t = true -> forallb is_number_char t = true.
Proof.
  induction t as [|c t IH]; cbn; auto. intros H. apply andb_prop in H as [Hc Ht].
  rewrite (is_digit_number_char _ Hc), IH; auto.
Qed.

Lemma starts_with_None_same (c : code_unit) (s : jsstring) :
  starts_with c s = None \/ exists r, starts_with c s = Some r /\ s = c :: r.
Proof.
  destruct (starts_with c s) as [r|] eqn:H; [right|left; reflexivity].
  exists r. split; [reflexivity|]. apply starts_with_Some, H.
Qed.

Lemma exponent_part_chars (t : jsstring) :
  exponent_part t = true -> forallb is_number_char t = true.
Proof.
  destruct t as [|e t]; cbn [exponent_part forallb]; auto.
  intros H. apply andb_prop in H as [He H].
  assert (Hec : is_number_char e = true).
  { unfold is_number_char. apply orb_prop in He as [->| ->];
      rewrite ?orb_true_r; reflexivity. }
  rewrite Hec. cbn [andb]. cbv zeta in H.
  destruct t as [|sgn t]; [discriminate|].
  destruct ((sgn =? 43) || (sgn =? 45)) eqn:Hsgn.
  - destruct t as [|d t]; [discriminate|].
    apply forallb_digits_number in H.
    change (forallb is_number_char (sgn :: d :: t))
      with (is_number_char sgn && forallb is_number_char (d :: t)).
    rewrite H. unfold is_number_char.
    apply orb_prop in Hsgn as [->| ->]; rewrite ?orb_true_r; reflexivity.
  - apply forallb_digits_number in H. exact H.
Qed.

Lemma fraction_part_chars (t : jsstring) :
  fraction_part t = true -> forallb is_number_char t = true.
Proof.
  unfold fraction_part.
  destruct (starts_with_None_same 46 t) as [->|(r & -> & ->)].
  - apply exponent_part_chars.
  - destruct (span is_digit r) as [ds t2] eqn:Hspan.
    apply span_spec in Hspan as (-> & Hds & _).
    destruct ds; [discriminate|]. intros H. apply exponent_part_chars in H.
    cbn [forallb]. rewrite forallb_app.
    rewrite (forallb_digits_number _ Hds), H. reflexivity.
Qed.

Lemma json_number_token_chars (t : jsstring) :
  json_number_token t = true ->
  forallb is_number_char t = true /\
  exists c t', t = c :: t' /\ (c = 45 \/ is_digit c = true).
Proof.
  unfold json_number_token.
  assert (Hbody : forall t1,
             match t1 with
             | [] => false
             | d :: t2 =>
                 if d =? 48 then fraction_part t2
                 else if is_digit d then fraction_part (snd (span is_digit t2))
                 else false
             end = true ->
             forallb is_number_char t1 = true /\
             exists d t2, t1 = d :: t2 /\ is_digit d = true).
  { intros [|d t2]; [discriminate|].
    destruct (N.eqb_spec d 48) as [->|Hd].
    - intros H. apply fraction_part_chars in H. cbn. rewrite H. eauto.
    - destruct (is_digit d) eqn:Hdig; [|discriminate].
      destruct (span is_digit t2) as [ds t3] eqn:Hspan. cbn [snd].
      apply span_spec in Hspan as (-> & Hds & _).
      intros H. apply fraction_part_chars in H. split; [|eauto].
      cbn [forallb]. rewrite forallb_app, (is_digit_number_char _ Hdig).
      rewrite (forallb_digits_number _ Hds), H. reflexivity. }
  destruct (starts_with_None_same 45 t) as [->|(r & -> & ->)]; intros H.
  - destruct (Hbody _ H) as [Hall (d & t2 & -> & Hd)]. split; eauto.
  - destruct (Hbody _ H) as [Hall _]. split; [|eauto].
    cbn [forallb]. rewrite Hall. reflexivity.
Qed.

Lemma span_app_stop (p : code_unit -> bool) (t rest : jsstring) :
  forallb p t = true ->
  match rest with [] => True | c :: _ => p c = false end ->
  span p (t ++ rest) = (t, rest).
Proof.
  intros Ht Hrest. induction t as [|c t IH]; cbn.
  - destruct rest as [|c rest]; [reflexivity|]. cbn. rewrite Hrest. reflexivity.
  - cbn in Ht. apply andb_prop in Ht as [Hc Ht]. rewrite Hc, IH; auto.
Qed.
End NumberTokens.

(** *** Round trip *)

Section RoundTrip.
Context {NM : NumberModel}.
Local Open Scope N_scope.

Lemma stringify_arr (elems : list value) :
  stringify (Arr elems) = Some (91 :: join [44] (map text_of elems) ++ [93]).
Proof. reflexivity. Qed.

Lemma serializable_stringify (v : value) :
  serializable v -> stringify v = Some (text_of v).
Proof.
  intros H. unfold text_of. destruct H; try reflexivity. destruct b; reflexivity.
Qed.

Lemma stringify_obj (props : list (jsstring * value)) :
  Forall (fun p => serializable (snd p)) props ->
  stringify (Obj props) = Some (123 :: join [44] (map member_text props) ++ [125]).
Proof.
  intros H. cbn [stringify].
  replace (flat_map _ props) with (map member_text props); [reflexivity|].
  induction H as [|p props Hp _ IH]; [reflexivity|].
  cbn [flat_map map]. rewrite (serializable_stringify Hp), <- IH. reflexivity.
Qed.

Lemma text_of_start (v : value) : serializable v -> value_start (text_of v).
Proof.
  intros H. destruct H.
  - exists 110, (js "ull"). repeat split; discriminate.
  - destruct b; [exists 116, (js "rue")|exists 102, (js "alse")];
      repeat split; discriminate.
  - unfold text_of. cbn [stringify]. rewrite H.
    destruct (json_number_token_chars _ H0) as [_ (c & t' & -> & Hc)].
    exists c, t'. split; [reflexivity|].
    destruct Hc as [->|Hc]; [repeat split; discriminate|].
    unfold is_digit in Hc. apply andb_prop in Hc as [Hlo Hhi].
    apply N.leb_le in Hlo, Hhi. unfold is_ws.
    repeat split; try lia.
    repeat match goal with
           | |- context [N.eqb ?a ?b] => destruct (N.eqb_spec a b); try lia
           end; try reflexivity.
  - exists 34, (quote_chars s ++ [34]). repeat split; discriminate.
  - exists 91, (join [44] (map text_of elems) ++ [93]). repeat split; discriminate.
  - unfold text_of. rewrite (stringify_obj H0).
    exists 123, (join [44] (map member_text props) ++ [125]).
    repeat split; discriminate.
Qed.

Lemma skip_ws_start (c : code_unit) (s : jsstring) :
  is_ws c = false -> skip_ws (c :: s) = c :: s.
Proof. intros H. cbn. rewrite H. reflexivity. Qed.

Lemma starts_with_next (c : code_unit) (s : jsstring) :
  is_ws c = false -> starts_with c (skip_ws (c :: s)) = Some s.
Proof.
  intros H. rewrite skip_ws_start by assumption. cbn. rewrite N.eqb_refl. reflexivity.
Qed.

Lemma starts_with_other (c d : code_unit) (s : jsstring) :
  is_ws c = false -> (c =? d) = false -> starts_with d (skip_ws (c :: s)) = None.
Proof.
  intros H Hd. rewrite skip_ws_start by assumption. cbn. rewrite Hd. reflexivity.
Qed.

Lemma skip_ws_value_start (t rest : jsstring) :
  value_start t ->
  skip_ws (t ++ rest) = t ++ rest /\
  starts_with 93 (t ++ rest) = None /\ starts_with 125 (t ++ rest) = None.
Proof.
  intros (c & t' & -> & Hws & H93 & H125). cbn [app]. rewrite skip_ws_start by assumption.
  cbn. destruct (N.eqb_spec c 93); [contradiction|].
  destruct (N.eqb_spec c 125); [contradiction|]. auto.
Qed.

Lemma parse_value_array (fuel : nat) (s : jsstring) :
  parse_value (S fuel) (91 :: s) =
  match starts_with 93 (skip_ws s) with
  | Some rest => Parsed (Arr []) rest
  | None => parsed_map Arr (parse_elements fuel s)
  end.
Proof. reflexivity. Qed.

Lemma parse_value_object (fuel : nat) (s : jsstring) :
  parse_value (S fuel) (123 :: s) =
  match starts_with 125 (skip_ws s) with
  | Some rest => Parsed (Obj []) rest
  | None => parsed_map (fun es => Obj (obj_of_entries es)) (parse_members fuel s)
  end.
Proof. reflexivity. Qed.

Lemma parse_value_string (fuel : nat) (s : jsstring) :
  parse_value (S fuel) (34 :: s) =
  match string_chars s with
  | Some (t, rest) => Parsed (Str t) rest
  | None => Invalid
  end.
Proof. reflexivity. Qed.

Lemma parse_value_number (fuel : nat) (c : code_unit) (s : jsstring) :
  c = 45 \/ is_digit c = true ->
  parse_value (S fuel) (c :: s) =
  let (tok, rest) := span is_number_char (c :: s) in
  if json_number_token tok then Parsed (Num (StringToNumber tok)) rest
  else Invalid.
Proof.
  intros [->|Hc]; [reflexivity|].
  assert (Hnum : is_number_char c = true) by (apply is_digit_number_char, Hc).
  unfold is_digit in Hc. apply andb_prop in Hc as [Hlo Hhi].
  apply N.leb_le in Hlo, Hhi.
  assert (Hws : is_ws c = false).
  { unfold is_ws.
    repeat match goal with
           | |- context [N.eqb ?a ?b] => destruct (N.eqb_spec a b); try lia
           end; reflexivity. }
  cbn [parse_value]. rewrite skip_ws_start by assumption.
  destruct (N.eqb_spec c 123); [lia|]. destruct (N.eqb_spec c 91); [lia|].
  destruct (N.eqb_spec c 34); [lia|].
  cbn [is_prefix js]. 
  destruct (N.eqb_spec (N_of_ascii "t") c) as [E|_]; [cbn in E; lia|].
  destruct (N.eqb_spec (N_of_ascii "f") c) as [E|_]; [cbn in E; lia|].
  destruct (N.eqb_spec (N_of_ascii "n") c) as [E|_]; [cbn in E; lia|].
  cbn [andb]. rewrite Hnum. reflexivity.
Qed.

Lemma parse_elements_join (e : value) (l : list value) :
  Forall round_trips (e :: l) ->
  forall fuel rest,
    parse_elements fuel (join [44] (map text_of (e :: l)) ++ 93 :: rest)
      = Parsed (e :: l) rest \/
    parse_elements fuel (join [44] (map text_of (e :: l)) ++ 93 :: rest)
      = OutOfFuel.
Proof.
  revert e; induction l as [|e' l IH]; intros e Hall [|fuel] rest;
    try (right; reflexivity); inversion Hall as [|? ? He Hl]; subst.
  - cbn [map join parse_elements].
    destruct (He fuel (93 :: rest)) as [-> | ->]; [reflexivity| |right; reflexivity].
    left. reflexivity.
  - cbn [parse_elements].
    change (join [44] (map text_of (e :: e' :: l)))
      with (text_of e ++ [44] ++ join [44] (map text_of (e' :: l))).
    rewrite <- !app_assoc. cbn [app].
    destruct (He fuel (44 :: join [44] (map text_of (e' :: l)) ++ 93 :: rest))
      as [-> | ->]; [reflexivity| |right; reflexivity].
    rewrite starts_with_next by reflexivity.
    destruct (IH e' Hl fuel rest) as [-> | ->]; [left|right]; reflexivity.
Qed.

Lemma parse_members_join (p : jsstring * value) (l : list (jsstring * value)) :
  Forall (fun q => round_trips (snd q)) (p :: l) ->
  forall fuel rest,
    parse_members fuel (join [44] (map member_text (p :: l)) ++ 125 :: rest)
      = Parsed (p :: l) rest \/
    parse_members fuel (join [44] (map member_text (p :: l)) ++ 125 :: rest)
      = OutOfFuel.
Proof.
  assert (Hhead : forall (q : jsstring * value) (fuel : nat) (tail : jsstring),
             round_trips (snd q) -> follow_ok tail ->
             parse_members (S fuel) (member_text q ++ tail) =
             match parse_value fuel (text_of (snd q) ++ tail) with
             | Parsed v rest3 =>
                 match starts_with 44 (skip_ws rest3) with
                 | Some rest4 => parsed_map (cons (fst q, v)) (parse_members fuel rest4)
                 | None =>
                     match starts_with 125 (skip_ws rest3) with
                     | Some rest4 => Parsed [(fst q, v)] rest4
                     | None => Invalid
                     end
                 end
             | Invalid => Invalid
             | OutOfFuel => OutOfFuel
             end).
  { intros [k v] fuel tail _ _. unfold member_text, quote. cbn [fst snd].
    cbn [parse_members app]. rewrite skip_ws_start by reflexivity.
    cbn [starts_with]. change (34 =? 34) with true. cbv iota.
    rewrite <- !app_assoc. cbn [app]. rewrite string_chars_quote.
    rewrite skip_ws_start by reflexivity. cbn [starts_with].
    change (58 =? 58) with true. reflexivity. }
  revert p; induction l as [|p' l IH]; intros p Hall [|fuel] rest;
    try (right; reflexivity); inversion Hall as [|? ? Hp Hl]; subst.
  - cbn [map join]. rewrite Hhead by (auto; reflexivity).
    destruct (Hp fuel (125 :: rest)) as [-> | ->]; [reflexivity| |right; reflexivity].
    left. destruct p. reflexivity.
  - change (join [44] (map member_text (p :: p' :: l)))
      with (member_text p ++ [44] ++ join [44] (map member_text (p' :: l))).
    rewrite <- !app_assoc. cbn [app]. rewrite Hhead by (auto; reflexivity).
    destruct (Hp fuel (44 :: join [44] (map member_text (p' :: l)) ++ 125 :: rest))
      as [-> | ->]; [reflexivity| |right; reflexivity].
    rewrite starts_with_next by reflexivity.
    destruct (IH p' Hl fuel rest) as [-> | ->]; [left|right]; destruct p; reflexivity.
Qed.

Lemma Forall_round_trips (l : list value) :
  Forall (fun v => serializable v -> round_trips v) l ->
  Forall serializable l -> Forall round_trips l.
Proof.
  induction 1 as [|v l Hv _ IH]; intros Hs; inversion Hs; subst; constructor; auto.
Qed.

Lemma Forall_round_trips_snd (l : list (jsstring * value)) :
  Forall (fun p => serializable (snd p) -> round_trips (snd p)) l ->
  Forall (fun p => serializable (snd p)) l ->
  Forall (fun p => round_trips (snd p)) l.
Proof.
  induction 1 as [|v l Hv _ IH]; intros Hs; inversion Hs; subst; constructor; auto.
Qed.

(** Parsing the text of a serializable value gives the value back and stops
    right after it, whatever follows, fuel permitting. *)
Lemma parse_text_of (v : value) : serializable v -> round_trips v.
Proof.
  induction v as [| |b|n|s|elems IH|props IH] using value_induction;
    intros Hser fuel rest Hrest; inversion Hser; subst;
    (destruct fuel as [|fuel]; [right; reflexivity|]).
  - left. reflexivity.
  - left. destruct b; reflexivity.
  - left. unfold text_of. cbn [stringify]. rewrite H0.
    destruct (json_number_token_chars _ H1) as [Hchars (c & t' & Ht & Hc)].
    rewrite Ht. cbn [app]. rewrite (parse_value_number _ _ Hc).
    change (c :: t' ++ rest) with ((c :: t') ++ rest). rewrite <- Ht.
    rewrite (span_app_stop _ _ _ Hchars Hrest), H1, H2. reflexivity.
  - left. unfold text_of. cbn [stringify]. unfold quote. cbn [app].
    rewrite parse_value_string, <- app_assoc. cbn [app].
    rewrite string_chars_quote. reflexivity.
  - unfold text_of. rewrite stringify_arr. cbn [app].
    rewrite parse_value_array, <- app_assoc. cbn [app].
    destruct elems as [|e elems].
    + left. cbn [map join app]. rewrite starts_with_next by reflexivity. reflexivity.
    + assert (Hstart : value_start (join [44] (map text_of (e :: elems)))).
      { inversion H0; subst.
        destruct (text_of_start H2) as (c & t' & Ht & Hc).
        destruct elems; cbn [map join]; rewrite Ht; exists c; eexists;
          (split; [reflexivity|exact Hc]). }
      destruct (skip_ws_value_start (93 :: rest) Hstart) as (-> & -> & _).
      destruct (parse_elements_join (Forall_round_trips IH H0) fuel rest)
        as [-> | ->]; [left|right]; reflexivity.
  - unfold text_of. rewrite (stringify_obj H1). cbn [app].
    rewrite parse_value_object, <- app_assoc. cbn [app].
    destruct props as [|p props].
    + left. cbn [map join app]. rewrite starts_with_next by reflexivity. reflexivity.
    + assert (Hstart : value_start (join [44] (map member_text (p :: props)))).
      { exists 34. destruct props; cbn [map join]; unfold member_text at 1, quote;
          cbn [app]; eexists; (split; [reflexivity|repeat split; discriminate]). }
      destruct (skip_ws_value_start (125 :: rest) Hstart) as (-> & _ & ->).
      destruct (parse_members_join (Forall_round_trips_snd IH H1) fuel rest)
        as [-> | ->]; [left|right]; [|reflexivity].
      cbn [parsed_map]. rewrite (obj_of_entries_wf _ H0). reflexivity.
Qed.

(** [JSON.parse(JSON.stringify(v))] is [v] for every serializable [v]. *)
Lemma JSON_round_trip (v : value) :
  serializable v ->
  JSON_stringify v = Some (text_of v) /\ JSON_parse (text_of v) = Some v.
Proof.
  intros Hser. split; [apply serializable_stringify, Hser|].
  unfold JSON_parse.
  destruct (parse_fuel (2 * List.length (text_of v) + 1)%nat) as [Hfuel _].
  destruct (Hfuel (text_of v)) as [Hoof _]; [lia|].
  destruct (parse_text_of Hser (2 * List.length (text_of v) + 1)%nat [] I) as [H|H];
    rewrite app_nil_r in H; [|contradiction].
  rewrite H. reflexivity.
Qed.
End RoundTrip.

(** ** Primitive operations *)

Section Primitives.
Context {NM : NumberModel}.
Variable W : Type.
Variable transport : W -> request -> W * reply.

Lemma run_get (this : Client.t) (k : jsstring) (options : option Client.get_options) (w : W) :
  run transport (Client.get this k options) w =
  match transport w (Client.get_request this k) with
  | (w', Response _ t) =>
      {| settled := settled (run transport (Client.decode k options t) w');
         world := w'; trace := [Client.get_request this k] |}
  | (w', NetworkError reason) =>
      {| settled := Failed (TransportError reason); world := w';
         trace := [Client.get_request this k] |}
  end.
Proof.
  unfold Client.get, fetch_text; simpl.
  destruct (transport w (Client.get_request this k)) as [w' [st t|reason]]; simpl; auto.
  unfold Client.decode.
  destruct (Client.wants_raw options); simpl; auto.
  destruct t as [|c t]; simpl; auto.
  destruct (JSON_parse (c :: t)) as [[]|]; reflexivity.
Qed.

Lemma run_set (this : Client.t) (k : jsstring) (a : any) (w : W) :
  run transport (Client.set this k a) w =
  match json_shaped a with
  | None => {| settled := Failed TypeError; world := w; trace := [] |}
  | Some v =>
      {| settled := match snd (transport w (Client.set_request this k v)) with
                    | Response _ _ => Done this
                    | NetworkError reason => Failed (TransportError reason)
                    end;
         world := fst (transport w (Client.set_request this k v));
         trace := [Client.set_request this k v] |}
  end.
Proof.
  unfold Client.set. destruct (json_shaped a) as [v|]; [|reflexivity].
  unfold fetch_; simpl.
  destruct (transport w (Client.set_request this k v)) as [w' [st t|reason]]; reflexivity.
Qed.

Lemma run_delete (this : Client.t) (k : jsstring) (w : W) :
  run transport (Client.delete this k) w =
  {| settled := match snd (transport w (Client.delete_request this k)) with
                | Response _ _ => Done this
                | NetworkError reason => Failed (TransportError reason)
                end;
     world := fst (transport w (Client.delete_request this k));
     trace := [Client.delete_request this k] |}.
Proof.
  unfold Client.delete, fetch_; simpl.
  destruct (transport w (Client.delete_request this k)) as [w' [st t|reason]]; reflexivity.
Qed.

(** C5.  When the fetched body is empty, [get] returns [null] unless the raw
    option is set, in which case it returns the empty string; and without the
    raw option a body that parses to [null] is returned as [null] too. *)
Theorem get_absent_normalization
  (this : Client.t) (k : jsstring) (options : option Client.get_options)
  (w w' : W) (status : N) (text : jsstring) :
  transport w (Client.get_request this k) = (w', Response status text) ->
  (text = [] ->
   settled (run transport (Client.get this k options) w) =
   Done (if Client.wants_raw options then Str [] else Null)) /\
  (Client.wants_raw options = false -> JSON_parse text = Some Null ->
   settled (run transport (Client.get this k options) w) = Done Null).
Proof.
  intros Hrep. rewrite run_get, Hrep. unfold Client.decode. split.
  - intros ->. destruct (Client.wants_raw options); reflexivity.
  - intros -> Hnull. destruct text; [reflexivity|]. rewrite Hnull. reflexivity.
Qed.

(** C4.  When the stored text is non-empty and is not JSON, [get] without
    the raw option throws a [SyntaxError] whose message names the key and
    points to the raw option, and [get] with the raw option returns the
    stored text as it is. *)
Theorem get_decode_failure
  (this : Client.t) (k : jsstring) (options : option Client.get_options)
  (w w' : W) (status : N) (text : jsstring) :
  transport w (Client.get_request this k) = (w', Response status text) ->
  text <> [] ->
  JSON_parse text = None ->
  (Client.wants_raw options = false ->
   exists message,
     settled (run transport (Client.get this k options) w) =
       Failed (SyntaxError message) /\
     message = js "Failed to parse value of " ++ k ++
               js ", try passing a raw option to get the raw value" /\
     contains k message = true /\
     contains (js "raw option") message = true) /\
  (Client.wants_raw options = true ->
   settled (run transport (Client.get this k options) w) = Done (Str text)).
Proof.
  intros Hrep Hne Hbad. rewrite run_get, Hrep. unfold Client.decode. split.
  - intros ->. destruct text as [|c text]; [congruence|]. rewrite Hbad.
    eexists; split; [reflexivity|]. split; [reflexivity|]. split.
    + apply contains_app.
    + change (js ", try passing a raw option to get the raw value")
        with (js ", try passing a " ++ js "raw option" ++ js " to get the raw value").
      rewrite app_assoc, app_assoc. apply contains_app.
  - intros ->. reflexivity.
Qed.

(** C9, as the code has it.  [set] and [delete] do not look at the status
    of the response: on any response, whatever its status, they resolve with
    the client.  [delete] fails exactly when the transport itself rejects,
    with the transport's error.  [set] fails in this way too, and in one
    more: when [JSON.stringify] throws on the value, [set] fails with that
    [TypeError] before anything is sent. *)
Theorem set_delete_ignore_status
  (this : Client.t) (k : jsstring) (a : any) (w : W) :
  run transport (Client.set this k a) w =
    match json_shaped a with
    | None => {| settled := Failed TypeError; world := w; trace := [] |}
    | Some v =>
        match transport w (Client.set_request this k v) with
        | (w', Response _ _) =>
            {| settled := Done this; world := w';
               trace := [Client.set_request this k v] |}
        | (w', NetworkError reason) =>
            {| settled := Failed (TransportError reason); world := w';
               trace := [Client.set_request this k v] |}
        end
    end /\
  run transport (Client.delete this k) w =
    match transport w (Client.delete_request this k) with
    | (w', Response _ _) =>
        {| settled := Done this; world := w';
           trace := [Client.delete_request this k] |}
    | (w', NetworkError reason) =>
        {| settled := Failed (TransportError reason); world := w';
           trace := [Client.delete_request this k] |}
    end.
Proof.
  rewrite run_set, run_delete. split.
  - destruct (json_shaped a) as [v|]; [|reflexivity].
    destruct (transport w (Client.set_request this k v)) as [w' [st t|reason]];
      reflexivity.
  - destruct (transport w (Client.delete_request this k)) as [w' [st t|reason]];
      reflexivity.
Qed.

End Primitives.

Lemma traverse_Forall2 {A B} (f : A -> option B) (l : list A) (l' : list B) :
  Forall2 (fun a b => f a = Some b) l l' -> traverse f l = Some l'.
Proof.
  induction 1 as [|a b l l' Hab _ IH]; simpl; auto.
  rewrite Hab, IH. reflexivity.
Qed.

Lemma traverse_Some {A B} (f : A -> option B) (l : list A) (l' : list B) :
  traverse f l = Some l' -> Forall2 (fun a b => f a = Some b) l l'.
Proof.
  revert l'; induction l as [|a l IH]; simpl; intros l' H.
  - injection H as <-. constructor.
  - destruct (f a) as [b|] eqn:Hb; [|discriminate].
    destruct (traverse f l) as [bs|]; [|discriminate].
    injection H as <-. constructor; auto.
Qed.

Lemma traverse_None {A B} (f : A -> option B) (l : list A) :
  Exists (fun a => f a = None) l -> traverse f l = None.
Proof.
  induction 1 as [a l Ha|a l _ IH]; cbn.
  - rewrite Ha. reflexivity.
  - rewrite IH. destruct (f a); reflexivity.
Qed.

(** ** Runs of composed functions *)

Section Run.
Variable W : Type.
Variable transport : W -> request -> W * reply.

Lemma run_bind {A B} (p : prog A) (f : A -> prog B) (w : W) :
  run transport (bind p f) w =
  match settled (run transport p w) with
  | Done a =>
      let r := run transport (f a) (world (run transport p w)) in
      {| settled := settled r; world := world r;
         trace := trace (run transport p w) ++ trace r |}
  | Failed e =>
      {| settled := Failed e; world := world (run transport p w);
         trace := trace (run transport p w) |}
  end.
Proof.
  revert w; induction p as [a|e|r k IH]; intros w; simpl.
  - destruct (run transport (f a) w); reflexivity.
  - reflexivity.
  - destruct (transport w r) as [w' rep]. rewrite IH.
    destruct (settled (run transport (k rep) w')); reflexivity.
Qed.

Lemma feed_app (w : W) (rs rs' : list request) :
  feed transport w (rs ++ rs') =
  let (w1, reps) := feed transport w rs in
  let (w2, reps') := feed transport w1 rs' in
  (w2, reps ++ reps').
Proof.
  revert w; induction rs as [|r rs IH]; intros w; simpl.
  - destruct (feed transport w rs'); reflexivity.
  - destruct (transport w r) as [w' rep]. rewrite IH.
    destruct (feed transport w' rs) as [w1 reps].
    destruct (feed transport w1 rs'); reflexivity.
Qed.
End Run.

(** ** Requests on the wire *)

Section Protocol.
Context {NM : NumberModel}.
Variable W : Type.
Variable transport : W -> request -> W * reply.

Lemma run_keys_of_text (t : jsstring) (w : W) :
  run transport (Client.keys_of_text t) w =
  {| settled := match t with
                | [] => Done []
                | _ :: _ =>
                    match traverse URI.decodeURIComponent (split_on 10%N t) with
                    | Some keys => Done keys
                    | None => Failed URIError
                    end
                end;
     world := w; trace := [] |}.
Proof.
  destruct t as [|c t]; [reflexivity|]. unfold Client.keys_of_text.
  destruct (traverse URI.decodeURIComponent (split_on 10%N (c :: t))); reflexivity.
Qed.

(** C7, as the code has it.  For a prefix in which every surrogate is
    paired, [list] issues one GET to the endpoint followed by
    [?encode=true&prefix=] and the URI-encoded prefix; an empty body gives no
    keys, and any other body gives its newline-separated segments, each
    URI-decoded, in the order of the body, or the [URIError] of
    [decodeURIComponent] when a segment does not decode.  For a prefix with a
    surrogate that is not paired, [encodeURIComponent] throws: [list] fails
    with its [URIError] and issues no request. *)
Theorem list_protocol
  (this : Client.t) (prefix : option jsstring) (w : W) :
  let p := match prefix with Some p => p | None => [] end in
  (paired_surrogates p = false ->
   run transport (Client.list this prefix) w =
   {| settled := Failed URIError; world := w; trace := [] |}) /\
  (paired_surrogates p = true ->
   exists encoded,
     URI.encodeURIComponent p = Some encoded /\
     let req := {| method := GET;
                   url := Client.key_text this ++ js "?encode=true&prefix=" ++ encoded;
                   headers := []; body := None |} in
     trace (run transport (Client.list this prefix) w) = [req] /\
     forall w' status text,
       transport w req = (w', Response status text) ->
       (text = [] ->
        settled (run transport (Client.list this prefix) w) = Done []) /\
       (text <> [] ->
        (forall keys,
            Forall2 (fun segment k => URI.decodeURIComponent segment = Some k)
                    (split_on 10%N text) keys ->
            settled (run transport (Client.list this prefix) w) = Done keys) /\
        (Exists (fun segment => URI.decodeURIComponent segment = None)
                (split_on 10%N text) ->
         settled (run transport (Client.list this prefix) w) = Failed URIError))).
Proof.
  intros p.
  destruct (encodeURIComponent_paired p) as [Hsome Hnone]. split.
  - intros Hp. unfold Client.list. fold p. rewrite (Hnone Hp). reflexivity.
  - intros Hp. destruct (Hsome Hp) as [encoded Henc]. exists encoded.
    split; [exact Henc|]. intros req.
    unfold Client.list. fold p. rewrite Henc. cbn [uri_result bind].
    fold (Client.list_request this encoded).
    change (Client.list_request this encoded) with req.
    rewrite run_bind. unfold fetch_text. cbn [run].
    destruct (transport w req) as [w1 [st t|reason]] eqn:Hrep;
      cbn [settled world trace run].
    + rewrite run_keys_of_text. cbn [settled world trace app]. split; [reflexivity|].
      intros w' status text [= <- <- <-]. split.
      * intros ->. reflexivity.
      * intros Hne. destruct t as [|c t]; [congruence|]. split.
        -- intros keys Hkeys. rewrite (traverse_Forall2 _ Hkeys). reflexivity.
        -- intros Hbad. rewrite (traverse_None _ Hbad). reflexivity.
    + split; [reflexivity|]. intros w' status text [=].
Qed.

(** C6.  For every object, with whatever prototype chain and whatever
    values, [setAll] sets the entries one after the other in the order of
    [for...in], inherited enumerable properties included, each request being
    answered before the next is sent.  When every [set] goes through, all
    entries have been posted and the client is returned.  When the [set] of
    some entry fails, because the transport rejects its request or because
    [JSON.stringify] throws on its value before any request, the entries
    before it have been posted, nothing is sent afterwards, and the failure
    is the result. *)
Theorem setAll_sequential
  (this : Client.t) (obj : jsobject) (w w1 : W)
  (done rest : list jsstring) (values : list value) (replies : list reply) :
  for_in_keys obj = done ++ rest ->
  traverse (fun k => json_shaped (get_property obj k)) done = Some values ->
  feed transport w (posts this done values) = (w1, replies) ->
  forallb is_response replies = true ->
  (rest = [] ->
   run transport (Client.setAll this obj) w =
   {| settled := Done this; world := w1; trace := posts this done values |}) /\
  (forall k later v w2 reason,
     rest = k :: later ->
     json_shaped (get_property obj k) = Some v ->
     transport w1 (Client.set_request this k v) = (w2, NetworkError reason) ->
     run transport (Client.setAll this obj) w =
     {| settled := Failed (TransportError reason); world := w2;
        trace := posts this done values ++ [Client.set_request this k v] |}) /\
  (forall k later,
     rest = k :: later ->
     json_shaped (get_property obj k) = None ->
     run transport (Client.setAll this obj) w =
     {| settled := Failed TypeError; world := w1;
        trace := posts this done values |}).
Proof.
  unfold Client.setAll. intros ->.
  assert (Hloop : forall ks w,
             run transport (Client.setAll_loop this obj ks) w =
             match ks with
             | [] => {| settled := Done this; world := w; trace := [] |}
             | k :: ks' =>
                 match json_shaped (get_property obj k) with
                 | None => {| settled := Failed TypeError; world := w; trace := [] |}
                 | Some v =>
                     match transport w (Client.set_request this k v) with
                     | (w', Response _ _) =>
                         let r := run transport (Client.setAll_loop this obj ks') w' in
                         {| settled := settled r; world := world r;
                            trace := Client.set_request this k v :: trace r |}
                     | (w', NetworkError reason) =>
                         {| settled := Failed (TransportError reason); world := w';
                            trace := [Client.set_request this k v] |}
                     end
                 end
             end).
  { intros [|k ks'] w0; [reflexivity|]. cbn [Client.setAll_loop].
    rewrite run_bind, run_set.
    destruct (json_shaped (get_property obj k)) as [v|]; [|reflexivity].
    cbn [settled world trace].
    destruct (transport w0 (Client.set_request this k v)) as [w' [st t|reason]];
      cbn; reflexivity. }
  revert w values replies.
  induction done as [|k0 done IH]; intros w values replies Hvalues Hfeed Hall.
  - cbn in Hvalues. injection Hvalues as <-.
    cbn in Hfeed. injection Hfeed as <- <-. split; [|split].
    + intros ->. apply Hloop.
    + intros k later v w2 reason -> Hv Hrej.
      rewrite Hloop. cbn [app]. rewrite Hv, Hrej. reflexivity.
    + intros k later -> Hv. rewrite Hloop. cbn [app]. rewrite Hv. reflexivity.
  - cbn [traverse] in Hvalues.
    destruct (json_shaped (get_property obj k0)) as [v0|] eqn:Hv0; [|discriminate].
    destruct (traverse (fun k => json_shaped (get_property obj k)) done)
      as [vs|] eqn:Hvs; [|discriminate].
    injection Hvalues as <-.
    unfold posts in *. cbn [combine map fst snd] in *. cbn [feed] in Hfeed.
    destruct (transport w (Client.set_request this k0 v0)) as [w' rep] eqn:Hrep.
    destruct (feed transport w' _) as [w'' reps] eqn:Hfeed'.
    injection Hfeed as <- <-. cbn in Hall. apply andb_prop in Hall as [Hrep1 Hall].
    destruct rep as [st t|reason]; [|discriminate].
    destruct (IH w' vs reps eq_refl Hfeed' Hall) as (IHok & IHrej & IHthrow).
    split; [|split].
    + intros ->. rewrite Hloop. cbn [app]. rewrite Hv0, Hrep. cbv zeta.
      rewrite (IHok eq_refl). reflexivity.
    + intros k later v w2 reason -> Hv Hrej. rewrite Hloop. cbn [app].
      rewrite Hv0, Hrep. cbv zeta.
      rewrite (IHrej _ _ _ _ _ eq_refl Hv Hrej). reflexivity.
    + intros k later -> Hv. rewrite Hloop. cbn [app]. rewrite Hv0, Hrep. cbv zeta.
      rewrite (IHthrow _ _ eq_refl Hv). reflexivity.
Qed.

(** C3 (the code at the failing input).  For the key [k] and the string
    value [a&b], the body that [set] posts is the key, an equals sign and the
    JSON text as it is, quotes and ampersand included; the URI-encoded JSON
    text is not what is sent. *)
Theorem set_body_not_form_encoded :
  let this := {| Client.key := Some (js "https://kv.example/db") |} in
  let req := Client.set_request this (js "k") (Str (js "a&b")) in
  method req = POST /\
  url req = js "https://kv.example/db" /\
  headers req = [(js "Content-Type", js "application/x-www-form-urlencoded")] /\
  body req = Some (jsq "k='a&b'") /\
  URI.encodeURIComponent (Client.encode (Str (js "a&b"))) = Some (js "%22a%26b%22") /\
  body req <> Some (js "k=%22a%26b%22").
Proof. cbv. repeat split; discriminate. Qed.

End Protocol.

(** ** Construction *)

(** C8.  Without an explicit endpoint (none, or the empty string) the
    constructor takes whatever the environment gives for [REPLIT_DB_URL]:
    when the variable is not set, construction succeeds with the endpoint
    [undefined], which reads as the text [undefined] in every URL built from
    it.  Construction fails only when reading the environment fails. *)
Theorem constructor_without_endpoint
  (env : jsstring -> outcome (option jsstring)) (k : option jsstring) :
  (k = None \/ k = Some []) ->
  (env (js "REPLIT_DB_URL") = Done None ->
   Client.constructor env k = Done {| Client.key := None |} /\
   Client.key_text {| Client.key := None |} = js "undefined") /\
  (forall e, Client.constructor env k = Failed e ->
             env (js "REPLIT_DB_URL") = Failed e).
Proof.
  intros Hk. assert (Hc : Client.constructor env k =
                          match env (js "REPLIT_DB_URL") with
                          | Done v => Done {| Client.key := v |}
                          | Failed e => Failed e
                          end).
  { destruct Hk as [->| ->]; reflexivity. }
  rewrite Hc. split.
  - intros ->. split; reflexivity.
  - intros e. destruct (env (js "REPLIT_DB_URL")); congruence.
Qed.

(** ** Objects *)

Section ObjectFacts.
Variable A : Type.
Implicit Types (o : list (jsstring * A)) (k : jsstring) (v : A).

Lemma obj_has_In o k : obj_has o k = true <-> In k (obj_keys o).
Proof.
  induction o as [|[k' v'] o IH]; simpl.
  - split; [discriminate|tauto].
  - destruct (jsstring_eqb_spec k' k) as [->|Hne]; simpl.
    + tauto.
    + rewrite IH. split; [tauto|]. intros [H|H]; [contradiction|assumption].
Qed.

Lemma obj_has_false o k : obj_has o k = false <-> ~ In k (obj_keys o).
Proof.
  rewrite <- obj_has_In. destruct (obj_has o k); split; congruence.
Qed.

Lemma obj_keys_replace o k v : obj_keys (obj_replace o k v) = obj_keys o.
Proof.
  induction o as [|[k' v'] o IH]; simpl; auto.
  destruct (jsstring_eqb k' k); simpl; congruence.
Qed.

Lemma obj_keys_insert_index o i k v k' :
  In k' (obj_keys (obj_insert_index o i k v)) <-> k' = k \/ In k' (obj_keys o).
Proof.
  induction o as [|[k0 v0] o IH]; simpl.
  - intuition congruence.
  - destruct (array_index k0) as [j|]; [destruct (j <? i)%N|]; simpl;
      try rewrite IH; intuition congruence.
Qed.

Lemma obj_keys_set o k v k' :
  In k' (obj_keys (obj_set o k v)) <-> k' = k \/ In k' (obj_keys o).
Proof.
  unfold obj_set. destruct (obj_has o k) eqn:Hhas.
  - rewrite obj_keys_replace. apply obj_has_In in Hhas.
    split; [tauto|]. intros [->|H]; assumption.
  - destruct (array_index k).
    + apply obj_keys_insert_index.
    + unfold obj_keys. rewrite map_app, in_app_iff. simpl. intuition congruence.
Qed.

Lemma obj_lookup_replace_same o k v :
  obj_has o k = true -> obj_lookup (obj_replace o k v) k = Some v.
Proof.
  induction o as [|[k' v'] o IH]; simpl; [discriminate|].
  destruct (jsstring_eqb k' k) eqn:E; simpl; rewrite E; auto.
Qed.

Lemma obj_lookup_replace_other o k v k' :
  k' <> k -> obj_lookup (obj_replace o k v) k' = obj_lookup o k'.
Proof.
  intros Hne. induction o as [|[k0 v0] o IH]; simpl; auto.
  destruct (jsstring_eqb_spec k0 k) as [->|Hk0]; simpl.
  - rewrite (jsstring_eqb_neq (not_eq_sym Hne)). reflexivity.
  - rewrite IH. reflexivity.
Qed.

Lemma obj_lookup_insert_index o i k v k' :
  obj_has o k = false ->
  obj_lookup (obj_insert_index o i k v) k' =
  if jsstring_eqb k k' then Some v else obj_lookup o k'.
Proof.
  induction o as [|[k0 v0] o IH]; simpl; intros Hhas; auto.
  apply orb_false_elim in Hhas as [Hk0 Hhas].
  destruct (array_index k0) as [j|]; [destruct (j <? i)%N|]; simpl; auto.
  rewrite (IH Hhas).
  destruct (jsstring_eqb_spec k0 k'), (jsstring_eqb_spec k k'); subst; auto.
  rewrite jsstring_eqb_refl in Hk0. discriminate.
Qed.

Lemma obj_lookup_app o k v k' :
  obj_has o k = false ->
  obj_lookup (o ++ [(k, v)]) k' =
  if jsstring_eqb k k' then Some v else obj_lookup o k'.
Proof.
  induction o as [|[k0 v0] o IH]; simpl; intros Hhas.
  - destruct (jsstring_eqb k k'); reflexivity.
  - apply orb_false_elim in Hhas as [Hk0 Hhas]. rewrite (IH Hhas).
    destruct (jsstring_eqb_spec k0 k'), (jsstring_eqb_spec k k'); subst; auto.
    rewrite jsstring_eqb_refl in Hk0. discriminate.
Qed.

Lemma obj_lookup_set_same o k v : obj_lookup (obj_set o k v) k = Some v.
Proof.
  unfold obj_set. destruct (obj_has o k) eqn:Hhas.
  - apply obj_lookup_replace_same, Hhas.
  - destruct (array_index k).
    + rewrite obj_lookup_insert_index, jsstring_eqb_refl; auto.
    + rewrite obj_lookup_app, jsstring_eqb_refl; auto.
Qed.

Lemma obj_lookup_set_other o k v k' :
  k' <> k -> obj_lookup (obj_set o k v) k' = obj_lookup o k'.
Proof.
  intros Hne. unfold obj_set. destruct (obj_has o k) eqn:Hhas.
  - apply obj_lookup_replace_other, Hne.
  - destruct (array_index k).
    + rewrite obj_lookup_insert_index, jsstring_eqb_neq; auto.
    + rewrite obj_lookup_app, jsstring_eqb_neq; auto.
Qed.
End ObjectFacts.

(** ** Sequential composites *)

Section GetAll.
Context {NM : NumberModel}.
Variable W : Type.
Variable transport : W -> request -> W * reply.
Variable this : Client.t.

Lemma getAll_loop_result (keys : list jsstring) :
  forall (output out : object) (w : W),
    settled (run transport (Client.getAll_loop this keys output) w) = Done out ->
    (forall k, In k (obj_keys out) <-> In k (obj_keys output) \/ In k keys) /\
    (forall k, ~ In k keys -> obj_lookup out k = obj_lookup output k) /\
    (forall before k later,
        keys = before ++ k :: later -> ~ In k later ->
        settled (run transport (Client.get this k None) (after_gets transport this before w))
          = Done Null ->
        obj_lookup out k = Some Null).
Proof.
  induction keys as [|k0 keys IH]; intros output out w Hrun.
  - cbn in Hrun. injection Hrun as <-. split; [|split].
    + intros k. cbn. tauto.
    + reflexivity.
    + intros [|? ?] ? ? [=].
  - cbn [Client.getAll_loop] in Hrun. rewrite run_bind in Hrun.
    destruct (settled (run transport (Client.get this k0 None) w)) as [v|e] eqn:Hget;
      [|discriminate].
    cbv zeta in Hrun. cbn [settled] in Hrun.
    destruct (IH _ _ _ Hrun) as (Hkeys & Hother & Hnull). split; [|split].
    + intros k. rewrite Hkeys, obj_keys_set. cbn. intuition congruence.
    + intros k Hk. cbn in Hk. rewrite Hother by tauto.
      apply obj_lookup_set_other. intros ->. tauto.
    + intros [|k1 before] k later Hsplit Hlater Hk.
      * cbn in Hsplit. injection Hsplit as <- <-.
        unfold after_gets in Hk. cbn [fold_left] in Hk.
        rewrite Hget in Hk. injection Hk as ->.
        rewrite Hother by assumption. apply obj_lookup_set_same.
      * cbn in Hsplit. injection Hsplit as <- ->.
        apply (Hnull before k later eq_refl Hlater). exact Hk.
Qed.

End GetAll.

(** ** Fan-out composites *)

Lemma nth_error_replace_nth_same {A} (l : list A) (i : nat) (a : A) :
  i < List.length l -> nth_error (replace_nth i a l) i = Some a.
Proof.
  revert i; induction l as [|b l IH]; intros [|i] Hi; simpl in *; try lia; auto.
  apply IH. lia.
Qed.

Lemma nth_error_replace_nth_other {A} (l : list A) (i j : nat) (a : A) :
  j <> i -> nth_error (replace_nth i a l) j = nth_error l j.
Proof.
  revert i j; induction l as [|b l IH]; intros [|i] [|j] Hne; simpl; auto.
  congruence.
Qed.

Lemma Forall2_replace_nth {A B} (R : A -> B -> Prop) (l : list A) (l' : list B)
      (i : nat) (a : A) (b : B) :
  Forall2 R l l' -> nth_error l i = Some a -> R a b ->
  Forall2 R l (replace_nth i b l').
Proof.
  intros H; revert i; induction H as [|x y l l' Hxy H IH]; intros [|i] Hi Hab;
    simpl in *; try discriminate.
  - injection Hi as ->. constructor; auto.
  - constructor; auto.
Qed.

Section DeleteFanOut.
Variable this : Client.t.

Lemma first_requests_deletes (keys : list jsstring) :
  first_requests (map (Client.delete this) keys) = map (Client.delete_request this) keys.
Proof. induction keys; simpl; congruence. Qed.

Lemma first_failure_deletes (keys : list jsstring) :
  first_failure (map (Client.delete this) keys) = None.
Proof. induction keys; simpl; auto. Qed.

Lemma all_values_deletes (keys : list jsstring) :
  all_values (map (Client.delete this) keys) =
  match keys with [] => Some [] | _ :: _ => None end.
Proof. destruct keys; reflexivity. Qed.

Lemma first_failure_replace (ps : list (prog Client.t)) (i : nat) (e : exn) :
  first_failure ps = None -> i < List.length ps ->
  first_failure (replace_nth i (Throw e) ps) = Some e.
Proof.
  revert i; induction ps as [|p ps IH]; intros [|i] Hnone Hi; simpl in *; try lia.
  - reflexivity.
  - destruct p; try discriminate; apply IH; auto; lia.
Qed.

Lemma first_failure_replace_value (ps : list (prog Client.t)) (i : nat) (v : Client.t) :
  first_failure ps = None -> first_failure (replace_nth i (Return v) ps) = None.
Proof.
  revert i; induction ps as [|p ps IH]; intros [|i] Hnone; simpl in *; auto.
  - destruct p; try discriminate; auto.
  - destruct p; try discriminate; auto.
Qed.

Lemma delete_resume (r : request) (k : reply -> prog Client.t) (key : jsstring) :
  Fetch r k = Client.delete this key ->
  forall rep, k rep = match rep with
                      | Response _ _ => Return this
                      | NetworkError reason => Throw (TransportError reason)
                      end.
Proof.
  unfold Client.delete, fetch_. cbn [bind]. intros [= _ ->] [st t|reason]; reflexivity.
Qed.

Lemma delete_promise_outstanding (key : jsstring) (p : prog Client.t) :
  delete_promise this key p -> is_outstanding p = true -> p = Client.delete this key.
Proof. intros [->|[->|[reason ->]]]; auto; discriminate. Qed.

Lemma Forall2_nth_error_r {A B} (R : A -> B -> Prop) (l : list A) (l' : list B)
      (i : nat) (b : B) :
  Forall2 R l l' -> nth_error l' i = Some b ->
  exists a, nth_error l i = Some a /\ R a b.
Proof.
  intros H; revert i; induction H as [|x y l l' Hxy H IH]; intros [|i] Hi;
    simpl in *; try discriminate.
  - injection Hi as ->. eauto.
  - eauto.
Qed.

Lemma all_values_nth (ps : list (prog Client.t)) (vs : list Client.t) (i : nat)
      (p : prog Client.t) :
  all_values ps = Some vs -> nth_error ps i = Some p -> is_outstanding p = false.
Proof.
  unfold all_values. revert vs i; induction ps as [|q ps IH]; intros vs [|i] Hall Hi;
    simpl in *; try discriminate.
  - injection Hi as ->. destruct p; auto; discriminate.
  - destruct q; try discriminate.
    destruct (traverse _ ps) eqn:E; [|discriminate]. eapply IH; eauto.
Qed.

Lemma settle_None (f : fan_out Client.t Client.t) (ps : list (prog Client.t)) :
  settle f ps = None -> first_failure ps = None.
Proof.
  unfold settle, Promise_all. destruct (first_failure ps); [discriminate|auto].
Qed.

Lemma settle_Done (f : fan_out Client.t Client.t) (ps : list (prog Client.t)) (v : Client.t) :
  settle f ps = Some (Done v) -> v = result f /\ exists vs, all_values ps = Some vs.
Proof.
  unfold settle, Promise_all. destruct (first_failure ps); [discriminate|].
  destruct (all_values ps) as [vs|]; [|discriminate].
  cbn. intros [= <-]. eauto.
Qed.

Lemma step_deleting (f : fan_out Client.t Client.t) (keys : list jsstring)
      (st : joining Client.t Client.t) (ev : event) :
  result f = this ->
  deleting this keys st ->
  deleting this keys (step f st ev) /\ issued (step f st ev) = issued st.
Proof.
  intros Hf Hst. pose proof Hst as (Hpre & Hch & Hnone & Hdone).
  unfold step. rewrite Hpre.
  destruct ev as [rep|i rep]; [split; [exact Hst|reflexivity]|].
  destruct (nth_error (children st) i) as [[v|e|r k]|] eqn:Hi;
    [split; [exact Hst|reflexivity]|split; [exact Hst|reflexivity]|
    |split; [exact Hst|reflexivity]].
  destruct (Forall2_nth_error_r _ Hch Hi) as (key & Hkey & Hp).
  apply delete_promise_outstanding in Hp; [|reflexivity].
  pose proof (delete_resume Hp rep) as Hk.
  assert (Hrel : delete_promise this key (k rep)).
  { rewrite Hk. destruct rep; [right; left; reflexivity|right; right; eauto]. }
  cbv beta iota zeta.
  split; [|cbn; rewrite Hk; destruct rep; apply app_nil_r].
  split; [reflexivity|split; [|split]]; cbn.
  - eapply Forall2_replace_nth; eauto.
  - destruct (verdict st); [discriminate|]. apply settle_None.
  - intros v Hv. destruct (verdict st) as [o|] eqn:Hverdict.
    + injection Hv as ->. destruct (Hdone v eq_refl) as [_ [vs Hvs]].
      pose proof (all_values_nth _ _ Hvs Hi). discriminate.
    + apply settle_Done in Hv. rewrite Hf in Hv. exact Hv.
Qed.

Lemma steps_deleting (f : fan_out Client.t Client.t) (keys : list jsstring)
      (evs : list event) (st : joining Client.t Client.t) :
  result f = this ->
  deleting this keys st ->
  deleting this keys (fold_left (step f) evs st) /\
  issued (fold_left (step f) evs st) = issued st.
Proof.
  intros Hf. revert st; induction evs as [|ev evs IH]; intros st Hst; simpl; auto.
  destruct (@step_deleting f keys st ev Hf Hst) as [Hst1 Hissued].
  destruct (IH _ Hst1) as [? ->]. auto.
Qed.

Lemma launch_deleteMultiple (args : list jsstring) :
  launch (Client.deleteMultiple this args) =
  {| prelude := None;
     children := map (Client.delete this) args;
     verdict := match args with [] => Some (Done this) | _ :: _ => None end;
     issued := map (Client.delete_request this) args |}.
Proof.
  unfold launch, enter. cbn [promises Client.deleteMultiple app].
  rewrite first_requests_deletes. f_equal.
  unfold settle, Promise_all. rewrite first_failure_deletes, all_values_deletes.
  destruct args; reflexivity.
Qed.

Lemma deleting_start (keys : list jsstring) (log : list request)
      (v : option (outcome Client.t)) :
  v = match keys with [] => Some (Done this) | _ :: _ => None end ->
  deleting this keys {| prelude := None; children := map (Client.delete this) keys;
                   verdict := v; issued := log |}.
Proof.
  intros ->. split; [reflexivity|split; [|split]]; cbn.
  - clear. induction keys; cbn; constructor; auto. left. reflexivity.
  - intros _. apply first_failure_deletes.
  - intros y Hy. destruct keys; [|discriminate].
    injection Hy as ->. split; [reflexivity|]. cbn. eauto.
Qed.
End DeleteFanOut.

Section FanOutTheorems.
Variable this : Client.t.

Lemma empty_after_list (status : N) (text : jsstring) (keys : list jsstring) :
  Client.keys_of_text text = Return keys ->
  steps (Client.empty this) [LoopReply (Response status text)] =
  {| prelude := None;
     children := map (Client.delete this) keys;
     verdict := match keys with [] => Some (Done this) | _ :: _ => None end;
     issued := Client.list_request this [] :: map (Client.delete_request this) keys |}.
Proof.
  intros Hkeys. unfold steps, launch. cbn [fold_left].
  unfold Client.empty, Client.list. cbn [promises URI.encodeURIComponent uri_result bind fetch_text enter].
  unfold step. cbn [prelude issued app bind]. rewrite Hkeys. cbn [bind enter app].
  rewrite first_requests_deletes. f_equal.
  unfold settle, Promise_all. rewrite first_failure_deletes, all_values_deletes.
  destruct keys; reflexivity.
Qed.

(** C2, as the code has it.  In [deleteMultiple], and in [empty] once [list]
    has answered, a delete request has been issued for every key before any
    of them is answered, and no request is issued later.  While the call is
    pending, the first delete that the transport rejects settles the call at
    once with that error, whatever the other deletes are doing: they stay as
    they were, in flight if they were in flight.  The call is fulfilled, with
    the client, only once no delete is in flight any more. *)
Theorem fan_out_rejects_on_first_failure
  (f : fan_out Client.t Client.t) (before : list event) (keys : list jsstring) :
  (f = Client.deleteMultiple this keys /\ before = []) \/
  (f = Client.empty this /\
   exists status text, before = [LoopReply (Response status text)] /\
                       Client.keys_of_text text = Return keys) ->
  children (steps f before) = map (Client.delete this) keys /\
  issued (steps f before) =
    match before with
    | [] => []
    | _ :: _ => [Client.list_request this []]
    end ++ map (Client.delete_request this) keys /\
  forall evs : list event,
    let st := steps f (before ++ evs) in
    issued st = issued (steps f before) /\
    (forall v, verdict st = Some (Done v) ->
               v = this /\
               forall i p, nth_error (children st) i = Some p ->
                           is_outstanding p = false) /\
    (forall i p reason,
        verdict st = None ->
        nth_error (children st) i = Some p ->
        is_outstanding p = true ->
        let st' := steps f (before ++ evs ++ [PromiseReply i (NetworkError reason)]) in
        verdict st' = Some (Failed (TransportError reason)) /\
        issued st' = issued st /\
        forall j, j <> i -> nth_error (children st') j = nth_error (children st) j).
Proof.
  intros Hf.
  assert (Hres : result f = this) by (destruct Hf as [[-> _]|[-> _]]; reflexivity).
  assert (Hstart : steps f before =
                   {| prelude := None;
                      children := map (Client.delete this) keys;
                      verdict := match keys with
                                 | [] => Some (Done this)
                                 | _ :: _ => None
                                 end;
                      issued := match before with
                                | [] => []
                                | _ :: _ => [Client.list_request this []]
                                end ++ map (Client.delete_request this) keys |}).
  { destruct Hf as [[-> ->]|[-> (status & text & -> & Hkeys)]].
    - apply launch_deleteMultiple.
    - apply empty_after_list, Hkeys. }
  split; [rewrite Hstart; reflexivity|]. split; [rewrite Hstart; reflexivity|].
  intros evs st.
  assert (Hst : deleting this keys st /\ issued st = issued (steps f before)).
  { subst st. unfold steps. rewrite fold_left_app. fold (steps f before).
    apply steps_deleting; auto. rewrite Hstart. apply deleting_start. reflexivity. }
  destruct Hst as [(Hpre & Hch & Hnone & Hdone) Hissued].
  split; [exact Hissued|]. split.
  - intros v Hv. destruct (Hdone v Hv) as [-> [vs Hvs]]. split; [reflexivity|].
    intros i p Hp. eapply all_values_nth; eauto.
  - intros i p reason Hverdict Hi Hout st'.
    assert (Hst' : st' = step f st (PromiseReply i (NetworkError reason))).
    { subst st' st. unfold steps. rewrite app_assoc, fold_left_app. reflexivity. }
    rewrite Hst'. clear Hst' st'.
    destruct (Forall2_nth_error_r _ Hch Hi) as (key & Hkey & Hp).
    apply (delete_promise_outstanding Hp) in Hout. subst p.
    unfold step. rewrite Hpre, Hi. unfold Client.delete at 1, fetch_. cbn [bind].
    cbn [verdict issued children outstanding]. rewrite Hverdict. split; [|split].
    + unfold settle, Promise_all.
      rewrite first_failure_replace; auto.
      apply nth_error_Some. congruence.
    + apply app_nil_r.
    + intros j Hj. apply nth_error_replace_nth_other, Hj.
Qed.

End FanOutTheorems.

(** ** The codec between [set] and [get] *)

Section CodecTheorems.
Context {NM : NumberModel}.

End CodecTheorems.

(** ** Listing and reading: further properties *)

Lemma traverse_length {A B} (f : A -> option B) (l : list A) (l' : list B) :
  traverse f l = Some l' -> List.length l' = List.length l.
Proof.
  intros H. apply traverse_Some in H. induction H; cbn; auto.
Qed.

Lemma traverse_app {A B} (f : A -> option B) (l1 l2 : list A) :
  traverse f (l1 ++ l2) =
  match traverse f l1, traverse f l2 with
  | Some a, Some b => Some (a ++ b)
  | _, _ => None
  end.
Proof.
  induction l1 as [|x l1 IH]; cbn.
  - destruct (traverse f l2); reflexivity.
  - destruct (f x); [|reflexivity]. rewrite IH.
    destruct (traverse f l1), (traverse f l2); reflexivity.
Qed.

Lemma split_on_length (sep : code_unit) (s : jsstring) :
  List.length (split_on sep s) = S (count_occ N.eq_dec s sep).
Proof.
  induction s as [|c s IH]; cbn [split_on count_occ]; [reflexivity|].
  destruct (N.eqb_spec c sep) as [->|Hne].
  - destruct (N.eq_dec sep sep); [|contradiction]. cbn. rewrite IH. reflexivity.
  - destruct (N.eq_dec c sep); [contradiction|].
    destruct (split_on sep s) as [|seg segs]; [discriminate|]. cbn in *. exact IH.
Qed.

Lemma split_on_trailing (sep : code_unit) (s : jsstring) :
  split_on sep (s ++ [sep]) = split_on sep s ++ [[]].
Proof.
  induction s as [|c s IH]; cbn [app split_on].
  - rewrite N.eqb_refl. reflexivity.
  - destruct (N.eqb c sep); rewrite IH; [reflexivity|].
    pose proof (split_on_length sep s) as Hlen.
    destruct (split_on sep s); [discriminate Hlen|reflexivity].
Qed.

Lemma unreserved_surrogate (c : code_unit) :
  (0xD800 <= c)%N -> URI.unreserved c = false.
Proof.
  intros Hc. unfold URI.unreserved, is_digit, is_upper, is_lower.
  assert (H1 : (c <=? 57)%N = false) by (apply N.leb_gt; lia).
  assert (H2 : (c <=? 90)%N = false) by (apply N.leb_gt; lia).
  assert (H3 : (c <=? 122)%N = false) by (apply N.leb_gt; lia).
  assert (H4 : forall d, (d < 0xD800)%N -> (c =? d)%N = false).
  { intros d Hd. apply N.eqb_neq. lia. }
  rewrite H1, H2, H3, !andb_false_r. cbn [existsb orb].
  rewrite !H4 by lia. reflexivity.
Qed.

Lemma lone_surrogate_first_head (c : code_unit) (rest : jsstring) :
  lone_surrogate_first (c :: rest) = true -> (0xD800 <= c)%N.
Proof.
  cbn [lone_surrogate_first]. unfold is_low_surrogate, is_high_surrogate.
  intros H. apply orb_prop in H as [H|H]; apply andb_prop in H as [H _].
  - apply N.leb_le in H. lia.
  - apply andb_prop in H as [H _]. apply N.leb_le in H. lia.
Qed.

Lemma encodeURIComponent_lone_surrogate (a b : jsstring) :
  forallb no_surrogate a = true ->
  lone_surrogate_first b = true ->
  URI.encodeURIComponent (a ++ b) = None.
Proof.
  intros Ha Hb. induction a as [|c a IH]; cbn [app].
  - destruct b as [|c rest]; [discriminate|].
    pose proof (lone_surrogate_first_head _ _ Hb) as Hc.
    cbn [lone_surrogate_first] in Hb.
    cbn [URI.encodeURIComponent]. rewrite (unreserved_surrogate Hc).
    destruct (is_low_surrogate c); [reflexivity|].
    cbn [orb] in Hb. apply andb_prop in Hb as [-> Hrest].
    destruct rest as [|d rest]; [reflexivity|].
    apply negb_true_iff in Hrest. rewrite Hrest. reflexivity.
  - cbn [forallb] in Ha. apply andb_prop in Ha as [Hc Ha].
    unfold no_surrogate in Hc. apply negb_true_iff, orb_false_elim in Hc as [Hhi Hlo].
    cbn [URI.encodeURIComponent]. rewrite Hhi, Hlo, (IH Ha).
    destruct (URI.unreserved c); reflexivity.
Qed.

Section PrimitivesMore.
Context {NM : NumberModel}.
Variable W : Type.
Variable transport : W -> request -> W * reply.

Lemma run_list (this : Client.t) (prefix : option jsstring) (w : W) :
  run transport (Client.list this prefix) w =
  match URI.encodeURIComponent (match prefix with Some p => p | None => [] end) with
  | None => {| settled := Failed URIError; world := w; trace := [] |}
  | Some encoded =>
      match transport w (Client.list_request this encoded) with
      | (w', Response _ t) =>
          {| settled := settled (run transport (Client.keys_of_text t) w');
             world := w'; trace := [Client.list_request this encoded] |}
      | (w', NetworkError reason) =>
          {| settled := Failed (TransportError reason); world := w';
             trace := [Client.list_request this encoded] |}
      end
  end.
Proof.
  unfold Client.list.
  destruct (URI.encodeURIComponent _) as [encoded|]; [|reflexivity].
  cbn [uri_result bind]. rewrite run_bind. unfold fetch_text. cbn [run].
  destruct (transport w (Client.list_request this encoded)) as [w' [st t|reason]];
    cbn [settled world trace run]; [|reflexivity].
  rewrite run_keys_of_text. reflexivity.
Qed.

(** X1.  With the raw option [get] returns the body text as a string, as it
    is: the text is not parsed, an empty body is the empty string and not
    [null], and a body that is not JSON is no error.  Only a rejected
    [fetch] makes it fail. *)
Theorem get_raw_verbatim
  (this : Client.t) (k : jsstring) (options : option Client.get_options) (w : W) :
  Client.wants_raw options = true ->
  settled (run transport (Client.get this k options) w) =
  match snd (transport w (Client.get_request this k)) with
  | Response _ t => Done (Str t)
  | NetworkError reason => Failed (TransportError reason)
  end.
Proof.
  intros Hraw. rewrite run_get.
  destruct (transport w (Client.get_request this k)) as [w' [st t|reason]];
    [|reflexivity].
  unfold Client.decode. rewrite Hraw. reflexivity.
Qed.

(** X4.  A prefix in which a surrogate stands without its partner makes
    [list] fail with the [URIError] of [encodeURIComponent], and no request
    is sent. *)
Theorem list_lone_surrogate_prefix
  (this : Client.t) (a b : jsstring) (w : W) :
  forallb no_surrogate a = true ->
  lone_surrogate_first b = true ->
  run transport (Client.list this (Some (a ++ b))) w =
  {| settled := Failed URIError; world := w; trace := [] |}.
Proof.
  intros Ha Hb. rewrite run_list, (encodeURIComponent_lone_surrogate _ _ Ha Hb).
  reflexivity.
Qed.

(** X6.  When one line of the listing is not a well-formed URI component,
    the whole [list] fails with the [URIError] of [decodeURIComponent]: the
    keys of the other lines are not returned. *)
Theorem list_malformed_segment
  (this : Client.t) (prefix : option jsstring) (encoded : jsstring)
  (w w' : W) (status : N) (text : jsstring) :
  URI.encodeURIComponent (match prefix with Some p => p | None => [] end)
    = Some encoded ->
  transport w (Client.list_request this encoded) = (w', Response status text) ->
  Exists (fun segment => URI.decodeURIComponent segment = None)
         (split_on 10%N text) ->
  settled (run transport (Client.list this prefix) w) = Failed URIError.
Proof.
  intros Henc Hrep Hbad. rewrite run_list, Henc, Hrep. cbn [settled].
  rewrite run_keys_of_text. cbn [settled].
  destruct text as [|c text].
  - cbn in Hbad. inversion Hbad as [? ? H|? ? H]; [discriminate H|inversion H].
  - rewrite (traverse_None _ Hbad). reflexivity.
Qed.

(** X7.  A non-empty listing gives one key per line, one more than it has
    newlines; in particular a listing that ends in a newline gives an empty
    key at the end. *)
Theorem list_one_key_per_segment
  (this : Client.t) (prefix : option jsstring) (encoded : jsstring)
  (w w' : W) (status : N) (text : jsstring) (keys : list jsstring) :
  URI.encodeURIComponent (match prefix with Some p => p | None => [] end)
    = Some encoded ->
  transport w (Client.list_request this encoded) = (w', Response status text) ->
  text <> [] ->
  settled (run transport (Client.list this prefix) w) = Done keys ->
  List.length keys = S (count_occ N.eq_dec text 10%N) /\
  (forall body, text = body ++ [10%N] -> exists keys', keys = keys' ++ [[]]).
Proof.
  intros Henc Hrep Hne. rewrite run_list, Henc, Hrep. cbn [settled].
  rewrite run_keys_of_text. cbn [settled].
  destruct text as [|c text]; [contradiction|].
  destruct (traverse URI.decodeURIComponent (split_on 10%N (c :: text)))
    as [ks|] eqn:Hks; [|discriminate].
  intros [= <-]. split.
  - rewrite (traverse_length _ _ Hks). apply split_on_length.
  - intros body Hbody. rewrite Hbody, split_on_trailing, traverse_app in Hks.
    destruct (traverse URI.decodeURIComponent (split_on 10%N body)) as [ks'|];
      [|discriminate].
    cbn in Hks. injection Hks as <-. eauto.
Qed.
End PrimitivesMore.

Section StatusMore.
Context {NM : NumberModel}.
Variables W1 W2 : Type.
Variable transport1 : W1 -> request -> W1 * reply.
Variable transport2 : W2 -> request -> W2 * reply.

(** X2.  [get] and [list] do not look at the status of the response: two
    responses with the same body text give the same result, whatever their
    statuses. *)
Theorem get_list_ignore_status
  (this : Client.t) (k : jsstring) (options : option Client.get_options)
  (prefix : option jsstring) (encoded : jsstring)
  (w1 w1' : W1) (w2 w2' : W2) (status1 status2 : N) (text : jsstring) :
  (transport1 w1 (Client.get_request this k) = (w1', Response status1 text) ->
   transport2 w2 (Client.get_request this k) = (w2', Response status2 text) ->
   settled (run transport1 (Client.get this k options) w1) =
   settled (run transport2 (Client.get this k options) w2)) /\
  (URI.encodeURIComponent (match prefix with Some p => p | None => [] end)
     = Some encoded ->
   transport1 w1 (Client.list_request this encoded) = (w1', Response status1 text) ->
   transport2 w2 (Client.list_request this encoded) = (w2', Response status2 text) ->
   settled (run transport1 (Client.list this prefix) w1) =
   settled (run transport2 (Client.list this prefix) w2)).
Proof.
  split.
  - intros H1 H2. rewrite !run_get, H1, H2. cbn [settled].
    unfold Client.decode. destruct (Client.wants_raw options); [reflexivity|].
    destruct text; [reflexivity|]. destruct (JSON_parse _) as [[]|]; reflexivity.
  - intros Henc H1 H2. rewrite !run_list, Henc, H1, H2. cbn [settled].
    rewrite !run_keys_of_text. reflexivity.
Qed.
End StatusMore.

Section URIRoundTrip.
Local Open Scope N_scope.

Ltac div_lia := zify; Z.to_euclidean_division_equations; lia.

Ltac decide_comparisons :=
  repeat match goal with
         | |- context [?a <? ?b] =>
             destruct (N.ltb_spec a b); try (exfalso; div_lia)
         | |- context [?a <=? ?b] =>
             destruct (N.leb_spec a b); try (exfalso; div_lia)
         end.

Lemma hex_value_hex_upper (d : N) : d < 16 -> hex_value (hex_upper d) = Some d.
Proof.
  intros Hd.
  assert (H : In d [0;1;2;3;4;5;6;7;8;9;10;11;12;13;14;15]).
  { cbn [In]. lia. }
  cbn [In] in H.
  repeat (destruct H as [<-|H]; [reflexivity|]). destruct H.
Qed.

Lemma unescape_percent (b : N) (e : jsstring) :
  b < 256 ->
  URI.unescape (URI.percent b ++ e) = option_map (cons (URI.Octet b)) (URI.unescape e).
Proof.
  intros Hb. unfold URI.percent. cbn [app URI.unescape].
  rewrite N.eqb_refl.
  rewrite !hex_value_hex_upper by div_lia.
  replace (16 * (b / 16) + b mod 16) with b by div_lia. reflexivity.
Qed.

Lemma unescape_octets (bs : list N) (e : jsstring) :
  Forall (fun b => b < 256) bs ->
  URI.unescape (flat_map URI.percent bs ++ e) =
  option_map (app (map URI.Octet bs)) (URI.unescape e).
Proof.
  induction 1 as [|b bs Hb _ IH]; cbn [flat_map map app].
  - destruct (URI.unescape e); reflexivity.
  - rewrite <- app_assoc, unescape_percent, IH by exact Hb.
    destruct (URI.unescape e); reflexivity.
Qed.

Lemma utf8_encode_octets (cp : N) :
  cp < 0x110000 -> Forall (fun b => b < 256) (URI.utf8_encode cp).
Proof.
  intros Hcp. unfold URI.utf8_encode.
  decide_comparisons; repeat constructor; div_lia.
Qed.

Lemma scalar_in_accepts (lo cp : N) :
  lo <= cp -> cp < 0x110000 -> (cp < 0xD800 \/ 0xDFFF < cp) ->
  URI.scalar_in lo cp = Some (URI.utf16_encode cp).
Proof.
  intros Hlo Hhi Hs. unfold URI.scalar_in.
  decide_comparisons; reflexivity.
Qed.

Lemma assemble_utf8 (cp : N) (ps : list URI.piece) :
  cp < 0x110000 -> (cp < 0xD800 \/ 0xDFFF < cp) ->
  URI.assemble (map URI.Octet (URI.utf8_encode cp) ++ ps) =
  option_map (app (URI.utf16_encode cp)) (URI.assemble ps).
Proof.
  intros Hhi Hs. unfold URI.utf8_encode.
  destruct (N.ltb_spec cp 0x80) as [H1|H1];
    [|destruct (N.ltb_spec cp 0x800) as [H2|H2];
      [|destruct (N.ltb_spec cp 0x10000) as [H3|H3]]];
    cbn [map app URI.assemble]; unfold URI.continuation.
  - destruct (N.ltb_spec cp 128); [|lia].
    unfold URI.utf16_encode.
    destruct (N.ltb_spec cp 65536); [|lia]. reflexivity.
  - decide_comparisons. cbn [andb].
    match goal with
    | |- context [URI.scalar_in ?lo ?x] => replace x with cp by div_lia
    end.
    rewrite scalar_in_accepts by lia.
    destruct (URI.assemble ps); reflexivity.
  - decide_comparisons. cbn [andb].
    match goal with
    | |- context [URI.scalar_in ?lo ?x] => replace x with cp by div_lia
    end.
    rewrite scalar_in_accepts by lia.
    destruct (URI.assemble ps); reflexivity.
  - decide_comparisons. cbn [andb].
    match goal with
    | |- context [URI.scalar_in ?lo ?x] => replace x with cp by div_lia
    end.
    rewrite scalar_in_accepts by lia.
    destruct (URI.assemble ps); reflexivity.
Qed.

Lemma decode_literal (c : N) (e : jsstring) :
  c <> 37 ->
  URI.decodeURIComponent (c :: e) = option_map (cons c) (URI.decodeURIComponent e).
Proof.
  intros Hc. unfold URI.decodeURIComponent. cbn [URI.unescape].
  apply N.eqb_neq in Hc. rewrite Hc.
  destruct (URI.unescape e) as [ps|]; reflexivity.
Qed.

Lemma decode_escape (cp : N) (e : jsstring) :
  cp < 0x110000 -> (cp < 0xD800 \/ 0xDFFF < cp) ->
  URI.decodeURIComponent (URI.escape_code_point cp ++ e) =
  option_map (app (URI.utf16_encode cp)) (URI.decodeURIComponent e).
Proof.
  intros Hhi Hs. unfold URI.decodeURIComponent, URI.escape_code_point.
  rewrite unescape_octets by (apply utf8_encode_octets; exact Hhi).
  destruct (URI.unescape e) as [ps|]; cbn [option_map]; [|reflexivity].
  apply assemble_utf8; assumption.
Qed.

Lemma pair_code_point_scalar (hi lo : N) :
  is_high_surrogate hi = true -> is_low_surrogate lo = true ->
  URI.pair_code_point hi lo < 0x110000 /\ 0xDFFF < URI.pair_code_point hi lo /\
  URI.utf16_encode (URI.pair_code_point hi lo) = [hi; lo].
Proof.
  unfold is_high_surrogate, is_low_surrogate, URI.pair_code_point, URI.utf16_encode.
  intros Hhi Hlo. apply andb_prop in Hhi as [H1 H2], Hlo as [H3 H4].
  apply N.leb_le in H1, H2, H3, H4.
  split; [lia|]. split; [lia|].
  destruct (N.ltb_spec ((hi - 55296) * 1024 + (lo - 56320) + 65536) 65536); [lia|].
  f_equal; [|f_equal]; div_lia.
Qed.

Lemma unreserved_plain (c : N) :
  URI.unreserved c = true -> c <> 37 /\ c <> 10.
Proof.
  intros H. split; intros ->; vm_compute in H; discriminate.
Qed.

Lemma hex_upper_safe (d : N) : d < 16 -> uri_safe (hex_upper d) = true.
Proof.
  intros Hd.
  assert (H : In d [0;1;2;3;4;5;6;7;8;9;10;11;12;13;14;15]).
  { cbn [In]. lia. }
  cbn [In] in H.
  repeat (destruct H as [<-|H]; [reflexivity|]). destruct H.
Qed.

Lemma escape_safe (cp : N) :
  cp < 0x110000 -> Forall (fun c => uri_safe c = true) (URI.escape_code_point cp).
Proof.
  intros Hcp. unfold URI.escape_code_point.
  induction (utf8_encode_octets Hcp) as [|b bs Hb _ IH]; cbn [flat_map]; [constructor|].
  unfold URI.percent at 1. cbn [app].
  repeat constructor; [apply hex_upper_safe; div_lia..|exact IH].
Qed.

Lemma encodeURIComponent_facts (n : nat) :
  forall s e : jsstring,
    (List.length s <= n)%nat ->
    sixteen_bit s = true ->
    URI.encodeURIComponent s = Some e ->
    URI.decodeURIComponent e = Some s /\ Forall (fun c => uri_safe c = true) e.
Proof.
  induction n as [|n IH]; intros [|c s] e Hlen H16 Henc;
    cbn [List.length] in Hlen; try lia;
    try (injection Henc as <-; split; [reflexivity|constructor]).
  cbn [URI.encodeURIComponent] in Henc.
  cbn [sixteen_bit forallb] in H16. apply andb_prop in H16 as [Hc H16].
  apply N.ltb_lt in Hc. fold (sixteen_bit s) in H16.
  destruct (URI.unreserved c) eqn:Hun.
  - destruct (URI.encodeURIComponent s) as [e'|] eqn:He'; [|discriminate].
    injection Henc as <-.
    destruct (IH s e' ltac:(lia) H16 He') as [Hdec Hnl].
    destruct (unreserved_plain _ Hun) as [H37 H10].
    rewrite decode_literal, Hdec by exact H37. split; [reflexivity|].
    constructor; [unfold uri_safe; rewrite Hun; reflexivity|exact Hnl].
  - destruct (is_low_surrogate c) eqn:Hlow; [discriminate|].
    destruct (is_high_surrogate c) eqn:Hhigh.
    + destruct s as [|d s]; [discriminate|].
      destruct (is_low_surrogate d) eqn:Hd; [|discriminate].
      destruct (URI.encodeURIComponent s) as [e'|] eqn:He'; [|discriminate].
      injection Henc as <-.
      cbn [sixteen_bit forallb] in H16. apply andb_prop in H16 as [_ H16].
      cbn [List.length] in Hlen.
      destruct (IH s e' ltac:(lia) H16 He') as [Hdec Hnl].
      destruct (pair_code_point_scalar _ _ Hhigh Hd) as (Hmax & Hmin & Hpair).
      rewrite decode_escape, Hdec, Hpair by (try right; assumption).
      split; [reflexivity|].
      apply Forall_app. split; [apply escape_safe; exact Hmax|exact Hnl].
    + destruct (URI.encodeURIComponent s) as [e'|] eqn:He'; [|discriminate].
      injection Henc as <-.
      destruct (IH s e' ltac:(lia) H16 He') as [Hdec Hnl].
      assert (Hs : c < 0xD800 \/ 0xDFFF < c).
      { unfold is_low_surrogate, is_high_surrogate in Hlow, Hhigh.
        apply andb_false_iff in Hlow, Hhigh.
        rewrite !N.leb_gt in Hlow, Hhigh. lia. }
      rewrite decode_escape, Hdec by (try lia; exact Hs).
      unfold URI.utf16_encode. destruct (N.ltb_spec c 65536); [|lia].
      split; [reflexivity|].
      apply Forall_app. split; [apply escape_safe; lia|exact Hnl].
Qed.
End URIRoundTrip.

(** [decodeURIComponent] undoes [encodeURIComponent]. *)
Lemma decodeURIComponent_encodeURIComponent (s e : jsstring) :
  sixteen_bit s = true ->
  URI.encodeURIComponent s = Some e ->
  URI.decodeURIComponent e = Some s.
Proof.
  intros H16 Henc.
  exact (proj1 (@encodeURIComponent_facts (List.length s) s e (le_n _) H16 Henc)).
Qed.

Lemma encodeURIComponent_safe (s e : jsstring) :
  sixteen_bit s = true ->
  URI.encodeURIComponent s = Some e -> Forall (fun c => uri_safe c = true) e.
Proof.
  intros H16 Henc.
  exact (proj2 (@encodeURIComponent_facts (List.length s) s e (le_n _) H16 Henc)).
Qed.

Lemma encodeURIComponent_one_line (s e : jsstring) :
  sixteen_bit s = true ->
  URI.encodeURIComponent s = Some e -> ~ In 10%N e.
Proof.
  intros H16 Henc Hin.
  pose proof (encodeURIComponent_safe _ H16 Henc) as Hsafe.
  rewrite Forall_forall in Hsafe. specialize (Hsafe _ Hin). discriminate.
Qed.

Lemma split_on_line (sep : N) (s : jsstring) :
  ~ In sep s -> split_on sep s = [s].
Proof.
  induction s as [|c s IH]; [reflexivity|]. intros Hin. cbn [split_on].
  destruct (N.eqb_spec c sep) as [->|_]; [exfalso; apply Hin; left; reflexivity|].
  rewrite IH; [reflexivity|]. intros H. apply Hin. right. exact H.
Qed.

Lemma split_on_app (sep : N) (s t : jsstring) :
  ~ In sep s ->
  split_on sep (s ++ sep :: t) = s :: split_on sep t.
Proof.
  induction s as [|c s IH]; intros Hin; cbn [app split_on].
  - rewrite N.eqb_refl. reflexivity.
  - destruct (N.eqb_spec c sep) as [->|_]; [exfalso; apply Hin; left; reflexivity|].
    rewrite IH; [reflexivity|]. intros H. apply Hin. right. exact H.
Qed.

(** Splitting undoes joining when no part holds the separator. *)
Lemma split_on_join (sep : N) (parts : list jsstring) :
  parts <> [] ->
  Forall (fun p => ~ In sep p) parts ->
  split_on sep (join [sep] parts) = parts.
Proof.
  intros Hne Hparts. induction Hparts as [|p parts Hp Hparts IH]; [congruence|].
  destruct parts as [|q parts].
  - cbn [join]. apply split_on_line, Hp.
  - change (join [sep] (p :: q :: parts)) with (p ++ sep :: join [sep] (q :: parts)).
    rewrite split_on_app by exact Hp. rewrite IH by discriminate. reflexivity.
Qed.

Lemma traverse_encode_decode (keys encs : list jsstring) :
  forallb sixteen_bit keys = true ->
  traverse URI.encodeURIComponent keys = Some encs ->
  traverse URI.decodeURIComponent encs = Some keys /\
  Forall (fun p => ~ In 10%N p) encs.
Proof.
  revert encs; induction keys as [|k keys IH]; intros encs H16 Henc.
  - injection Henc as <-. split; [reflexivity|constructor].
  - cbn [traverse] in Henc. cbn [forallb] in H16. apply andb_prop in H16 as [Hk H16].
    destruct (URI.encodeURIComponent k) as [e|] eqn:He; [|discriminate].
    destruct (traverse URI.encodeURIComponent keys) as [es|]; [|discriminate].
    injection Henc as <-.
    destruct (IH es H16 eq_refl) as [Hdec Hnl].
    cbn [traverse]. rewrite (decodeURIComponent_encodeURIComponent _ Hk He), Hdec.
    split; [reflexivity|].
    constructor; [exact (encodeURIComponent_one_line _ Hk He)|exact Hnl].
Qed.

Section ListRoundTrip.
Context {NM : NumberModel}.
Variable W : Type.
Variable transport : W -> request -> W * reply.

(** X8.  When the store answers with the keys, each encoded by
    [encodeURIComponent] and joined by newlines, [list] returns exactly
    these keys, in order, after the one request it sends. *)
Theorem list_returns_encoded_keys
  (this : Client.t) (prefix : option jsstring) (encoded : jsstring)
  (keys encs : list jsstring) (w w' : W) (status : N) :
  URI.encodeURIComponent (match prefix with Some p => p | None => [] end)
    = Some encoded ->
  forallb sixteen_bit keys = true ->
  traverse URI.encodeURIComponent keys = Some encs ->
  join [10%N] encs <> [] ->
  transport w (Client.list_request this encoded)
    = (w', Response status (join [10%N] encs)) ->
  run transport (Client.list this prefix) w =
  {| settled := Done keys; world := w';
     trace := [Client.list_request this encoded] |}.
Proof.
  intros Hprefix H16 Henc Htext Hreply.
  destruct (traverse_encode_decode _ H16 Henc) as [Hdec Hnl].
  rewrite run_list, Hprefix, Hreply.
  unfold Client.keys_of_text.
  destruct (join [10%N] encs) as [|c t] eqn:Hjoin; [congruence|].
  rewrite <- Hjoin, split_on_join, Hdec; [reflexivity| |exact Hnl].
  intros ->. discriminate.
Qed.

(** X5.  The prefix goes into the URL of the one request of [list] in a form
    made of unreserved characters and percent escapes only, from which
    [decodeURIComponent] gives the prefix back. *)
Theorem list_prefix_on_the_wire
  (this : Client.t) (p encoded : jsstring) (w : W) :
  sixteen_bit p = true ->
  URI.encodeURIComponent p = Some encoded ->
  trace (run transport (Client.list this (Some p)) w)
    = [Client.list_request this encoded] /\
  Forall (fun c => uri_safe c = true) encoded /\
  URI.decodeURIComponent encoded = Some p.
Proof.
  intros H16 Henc. split; [|split].
  - rewrite run_list, Henc.
    destruct (transport w (Client.list_request this encoded)) as [w' [st t|reason]];
      reflexivity.
  - exact (encodeURIComponent_safe _ H16 Henc).
  - exact (decodeURIComponent_encodeURIComponent _ H16 Henc).
Qed.
End ListRoundTrip.

(** ** Values that the codec changes *)

Section Lossy.
Context {NM : NumberModel}.

Lemma stringify_defined (v : value) :
  v <> Undefined -> stringify v = Some (text_of v).
Proof.
  intros Hv. unfold text_of. destruct v as [| |[|]| | | |]; try reflexivity.
  congruence.
Qed.

Lemma json_image_defined (v : value) : json_image v <> Undefined.
Proof.
  destruct v; cbn [json_image]; try discriminate.
  destruct (Number_isFinite n); discriminate.
Qed.

Lemma text_of_json_image (v : value) : text_of (json_image v) = text_of v.
Proof.
  induction v as [| | | | |elems IH|props IH] using value_induction;
    try reflexivity.
  - cbn [json_image]. destruct (Number_isFinite n) eqn:Hn; [reflexivity|].
    unfold text_of. cbn [stringify]. rewrite Hn. reflexivity.
  - unfold text_of. cbn [json_image stringify]. do 3 f_equal.
    rewrite map_map. induction IH as [|e elems He _ IH']; [reflexivity|].
    cbn [map]. f_equal; [exact He|exact IH'].
  - unfold text_of. cbn [json_image stringify]. do 3 f_equal.
    induction IH as [|[k v] props Hv _ IH']; [reflexivity|].
    cbn [flat_map fst snd] in *. rewrite flat_map_app, IH'. f_equal.
    destruct (stringify v) as [t|] eqn:Ht.
    + assert (Hdef : v <> Undefined) by (intros ->; discriminate).
      assert (Hflat : (match v with
                       | Undefined => []
                       | _ => [(k, json_image v)]
                       end) = [(k, json_image v)]).
      { destruct v; congruence. }
      rewrite Hflat. cbn [flat_map fst snd app].
      rewrite (stringify_defined (@json_image_defined v)), Hv.
      rewrite (stringify_defined Hdef) in Ht. injection Ht as <-. reflexivity.
    + destruct v as [| |[|]| | | |]; try discriminate. reflexivity.
Qed.

(** X3.  What [get] makes of the text that [set] sends for a value, raw
    option aside: the value with every [undefined] array element and every
    number that is not finite replaced by [null] and every property whose
    value is [undefined] left out.  For [undefined] itself the text is
    [undefined], which [get] rejects with its [SyntaxError]. *)
Theorem get_after_set_json_image
  (k : jsstring) (v : value) (options : option Client.get_options) :
  Client.wants_raw options = false ->
  serializable (json_image v) ->
  Client.decode k options (Client.encode v) =
  match v with
  | Undefined => Throw (Client.parse_failure k)
  | _ => Return (json_image v)
  end.
Proof.
  intros Hraw Hser.
  assert (Hcase : v = Undefined \/ v <> Undefined).
  { destruct v; [left; reflexivity|right; discriminate..]. }
  destruct Hcase as [->|Hdef].
  - unfold Client.decode. rewrite Hraw. reflexivity.
  - assert (Htext : Client.encode v = text_of (json_image v)).
    { unfold Client.encode, JSON_stringify. rewrite (stringify_defined Hdef).
      symmetry. apply text_of_json_image. }
    rewrite Htext.
    destruct (JSON_round_trip Hser) as [_ Hparse].
    destruct (text_of_start Hser) as (c & t' & Ht & _).
    unfold Client.decode. rewrite Hraw. rewrite Ht at 1. rewrite Hparse.
    pose proof (@json_image_defined v) as Hn.
    destruct v; try congruence; destruct (json_image _); try congruence; reflexivity.
Qed.
End Lossy.

(** ** Sequential composites: further properties *)

Section ObjectDistinct.
Variable A : Type.
Implicit Types (o : list (jsstring * A)) (k : jsstring) (v : A).

Lemma obj_insert_index_NoDup o i k v :
  ~ In k (obj_keys o) -> NoDup (obj_keys o) ->
  NoDup (obj_keys (obj_insert_index o i k v)).
Proof.
  induction o as [|[k0 v0] o IH]; cbn [obj_insert_index obj_keys map fst];
    intros Hk Hnd.
  - constructor; [intros []|constructor].
  - inversion Hnd as [|? ? Hk0 Hnd']; subst.
    assert (Hnew : NoDup (k :: k0 :: obj_keys o)).
    { constructor; [exact Hk|exact Hnd]. }
    destruct (array_index k0) as [j|]; [destruct (j <? i)%N|]; cbn [map fst];
      try exact Hnew.
    constructor.
    + fold (obj_keys (obj_insert_index o i k v)). rewrite obj_keys_insert_index.
      intros [->|Hin]; [apply Hk; left; reflexivity|exact (Hk0 Hin)].
    + apply IH; [|exact Hnd']. intros Hin. apply Hk. right. exact Hin.
Qed.

Lemma obj_append_NoDup o k v :
  ~ In k (obj_keys o) -> NoDup (obj_keys o) -> NoDup (obj_keys (o ++ [(k, v)])).
Proof.
  induction o as [|[k0 v0] o IH]; cbn [app obj_keys map fst]; intros Hk Hnd.
  - constructor; [intros []|constructor].
  - inversion Hnd as [|? ? Hk0 Hnd']; subst. constructor.
    + fold (obj_keys (o ++ [(k, v)])). unfold obj_keys. rewrite map_app, in_app_iff.
      cbn. intros [Hin|[->|[]]]; [exact (Hk0 Hin)|apply Hk; left; reflexivity].
    + apply IH; [|exact Hnd']. intros Hin. apply Hk. right. exact Hin.
Qed.

(** Assigning a property never duplicates a key. *)
Lemma obj_set_NoDup o k v :
  NoDup (obj_keys o) -> NoDup (obj_keys (obj_set o k v)).
Proof.
  intros Hnd. unfold obj_set. destruct (obj_has o k) eqn:Hhas.
  - rewrite obj_keys_replace. exact Hnd.
  - apply obj_has_false in Hhas. destruct (array_index k).
    + apply obj_insert_index_NoDup; assumption.
    + apply obj_append_NoDup; assumption.
Qed.

End ObjectDistinct.

Section CompositesMore.
Context {NM : NumberModel}.
Variable W : Type.
Variable transport : W -> request -> W * reply.
Variable this : Client.t.

Lemma trace_get (k : jsstring) (options : option Client.get_options) (w : W) :
  trace (run transport (Client.get this k options) w) = [Client.get_request this k].
Proof.
  rewrite run_get.
  destruct (transport w (Client.get_request this k)) as [w' [st t|reason]];
    reflexivity.
Qed.

Lemma run_getAll_loop_failure (done later : list jsstring) (k : jsstring) (e : exn) :
  forall (output : object) (w : W),
    reads_ok transport this done w = true ->
    settled (run transport (Client.get this k None)
                 (after_gets transport this done w)) = Failed e ->
    run transport (Client.getAll_loop this (done ++ k :: later) output) w =
    {| settled := Failed e;
       world := world (run transport (Client.get this k None)
                           (after_gets transport this done w));
       trace := map (Client.get_request this) (done ++ [k]) |}.
Proof.
  induction done as [|k0 done IH]; intros output w Hok Hfail;
    cbn [app Client.getAll_loop]; rewrite run_bind.
  - unfold after_gets in *. cbn [fold_left] in *. rewrite Hfail, trace_get.
    reflexivity.
  - cbn [reads_ok] in Hok.
    destruct (settled (run transport (Client.get this k0 None) w)) as [v|e0];
      [|discriminate].
    cbv zeta. rewrite IH; [|exact Hok|exact Hfail]. rewrite trace_get. reflexivity.
Qed.

(** X9.  [getAll] fails with the failure of [list], having sent nothing but
    the listing request; and with the failure of the first [get] that
    fails, having read the keys before it and no key after it. *)
Theorem getAll_stops_at_first_failure (w : W) :
  (forall e,
      settled (run transport (Client.list this None) w) = Failed e ->
      run transport (Client.getAll this) w =
      {| settled := Failed e;
         world := world (run transport (Client.list this None) w);
         trace := trace (run transport (Client.list this None) w) |}) /\
  (forall keys done k later e,
      settled (run transport (Client.list this None) w) = Done keys ->
      keys = done ++ k :: later ->
      reads_ok transport this done
               (world (run transport (Client.list this None) w)) = true ->
      settled (run transport (Client.get this k None)
                   (after_gets transport this done
                               (world (run transport (Client.list this None) w))))
        = Failed e ->
      run transport (Client.getAll this) w =
      {| settled := Failed e;
         world := world (run transport (Client.get this k None)
                             (after_gets transport this done
                                (world (run transport (Client.list this None) w))));
         trace := trace (run transport (Client.list this None) w) ++
                  map (Client.get_request this) (done ++ [k]) |}).
Proof.
  split.
  - intros e Hlist. unfold Client.getAll. rewrite run_bind, Hlist. reflexivity.
  - intros keys done k later e Hlist -> Hok Hfail.
    unfold Client.getAll. rewrite run_bind, Hlist. cbv zeta.
    rewrite run_getAll_loop_failure with (e := e); [reflexivity|exact Hok|exact Hfail].
Qed.

Lemma getAll_loop_NoDup (keys : list jsstring) :
  forall (output out : object) (w : W),
    NoDup (obj_keys output) ->
    settled (run transport (Client.getAll_loop this keys output) w) = Done out ->
    NoDup (obj_keys out).
Proof.
  induction keys as [|k keys IH]; intros output out w Hnd Hrun.
  - cbn in Hrun. injection Hrun as <-. exact Hnd.
  - cbn [Client.getAll_loop] in Hrun. rewrite run_bind in Hrun.
    destruct (settled (run transport (Client.get this k None) w)) as [v|e];
      [|discriminate].
    cbv zeta in Hrun. cbn [settled] in Hrun.
    eapply IH; [|exact Hrun]. apply obj_set_NoDup. exact Hnd.
Qed.

(** X11.  The object that [getAll] returns lists no key twice, however many
    times the listing has it. *)
Theorem getAll_distinct_keys (w : W) (out : object) :
  settled (run transport (Client.getAll this) w) = Done out ->
  NoDup (obj_keys out).
Proof.
  unfold Client.getAll. rewrite run_bind.
  destruct (settled (run transport (Client.list this None) w)) as [keys|e];
    [|discriminate].
  cbv zeta. cbn [settled]. apply getAll_loop_NoDup. constructor.
Qed.

Lemma run_getAll_loop_trace (keys : list jsstring) :
  forall (output out : object) (w : W),
    settled (run transport (Client.getAll_loop this keys output) w) = Done out ->
    trace (run transport (Client.getAll_loop this keys output) w) =
    map (Client.get_request this) keys.
Proof.
  induction keys as [|k keys IH]; intros output out w; [reflexivity|].
  cbn [Client.getAll_loop]. rewrite run_bind, trace_get.
  destruct (settled (run transport (Client.get this k None) w)) as [v|e];
    [|discriminate].
  cbv zeta. cbn [settled trace app map]. intros Hrun.
  erewrite IH by exact Hrun. reflexivity.
Qed.

Lemma getAll_loop_last_value (before later : list jsstring) (k : jsstring) (v : value) :
  forall (output out : object) (w : W),
    settled (run transport (Client.getAll_loop this (before ++ k :: later) output) w)
      = Done out ->
    ~ In k later ->
    settled (run transport (Client.get this k None)
                 (after_gets transport this before w)) = Done v ->
    obj_lookup out k = Some v.
Proof.
  induction before as [|k0 before IH]; intros output out w Hrun Hlater Hget;
    cbn [app Client.getAll_loop] in Hrun; rewrite run_bind in Hrun.
  - unfold after_gets in Hget. cbn [fold_left] in Hget. rewrite Hget in Hrun.
    cbv zeta in Hrun. cbn [settled] in Hrun.
    destruct (getAll_loop_result _ _ _ _ _ Hrun) as (_ & Hother & _).
    rewrite Hother by exact Hlater. apply obj_lookup_set_same.
  - destruct (settled (run transport (Client.get this k0 None) w)) as [v0|e];
      [|discriminate].
    cbv zeta in Hrun. cbn [settled] in Hrun.
    exact (IH _ _ _ Hrun Hlater Hget).
Qed.

(** X10.  When [getAll] returns, it has sent the listing request and then one
    read per listed key, in order, and every key is bound to the value that
    its read returned, the last read when a key is listed more than once. *)
Theorem getAll_reads_every_key (w : W) (out : object) :
  settled (run transport (Client.getAll this) w) = Done out ->
  exists keys,
    settled (run transport (Client.list this None) w) = Done keys /\
    trace (run transport (Client.getAll this) w) =
      trace (run transport (Client.list this None) w) ++
      map (Client.get_request this) keys /\
    (forall before k later v,
        keys = before ++ k :: later -> ~ In k later ->
        settled (run transport (Client.get this k None)
                   (after_gets transport this before
                               (world (run transport (Client.list this None) w))))
          = Done v ->
        obj_lookup out k = Some v).
Proof.
  unfold Client.getAll. rewrite run_bind.
  destruct (settled (run transport (Client.list this None) w)) as [keys|e];
    [|discriminate].
  cbv zeta. cbn [settled trace]. intros Hrun. exists keys.
  split; [reflexivity|]. split.
  - erewrite run_getAll_loop_trace by exact Hrun. reflexivity.
  - intros before k later v -> Hlater Hget.
    exact (getAll_loop_last_value _ _ _ _ _ Hrun Hlater Hget).
Qed.

Lemma run_setAll_loop_done (obj : jsobject) (keys : list jsstring) :
  forall w,
    settled (run transport (Client.setAll_loop this obj keys) w) = Done this ->
    Forall2 (fun k r => exists v, json_shaped (get_property obj k) = Some v /\
                                  r = Client.set_request this k v)
            keys (trace (run transport (Client.setAll_loop this obj keys) w)).
Proof.
  induction keys as [|k keys IH]; intros w; [constructor|].
  cbn [Client.setAll_loop]. rewrite run_bind, run_set.
  destruct (json_shaped (get_property obj k)) as [v|] eqn:Hv; [|discriminate].
  cbn [settled world trace].
  destruct (snd (transport w (Client.set_request this k v))); [|discriminate].
  cbv zeta. cbn [settled trace app]. intros H.
  constructor; [exists v; split; [exact Hv|reflexivity]|apply IH, H].
Qed.

Lemma for_in_keys_entries (obj : jsobject) :
  for_in_keys obj = map prop_name (for_in_entries obj).
Proof.
  induction obj as [|own proto IH]; [reflexivity|].
  cbn [for_in_keys for_in_entries]. rewrite map_app, IH. f_equal. clear IH.
  induction (for_in_entries proto) as [|p ps IHps]; [reflexivity|].
  cbn [map filter]. destruct (has_name (prop_name p) own); cbn [negb map];
    rewrite IHps; reflexivity.
Qed.

Lemma find_own_property (own : list property) (p : property) :
  keys_distinct (map prop_name own) = true -> In p own ->
  find (fun q => jsstring_eqb (prop_name q) (prop_name p)) own = Some p.
Proof.
  induction own as [|q own IH]; intros Hd Hin; [destruct Hin|].
  cbn [map keys_distinct] in Hd. apply andb_prop in Hd as [Hq Hd].
  apply negb_true_iff in Hq. cbn [find].
  destruct Hin as [->|Hin]; [rewrite jsstring_eqb_refl; reflexivity|].
  destruct (jsstring_eqb_spec (prop_name q) (prop_name p)) as [Heq|_];
    [|exact (IH Hd Hin)].
  assert (Hex : existsb (jsstring_eqb (prop_name q)) (map prop_name own) = true).
  { apply existsb_exists. exists (prop_name p). split.
    - apply in_map, Hin.
    - rewrite Heq. apply jsstring_eqb_refl. }
  congruence.
Qed.

Lemma find_no_property (own : list property) (k : jsstring) :
  has_name k own = false ->
  find (fun q => jsstring_eqb (prop_name q) k) own = None.
Proof.
  unfold has_name. induction own as [|q own IH]; [reflexivity|].
  cbn [existsb find]. destruct (jsstring_eqb (prop_name q) k); [discriminate|].
  exact IH.
Qed.

(** For a property that [for...in] comes to, [obj[key]] is its value. *)
Lemma get_property_entry (obj : jsobject) (p : property) :
  forallb (fun own => keys_distinct (map prop_name own)) obj = true ->
  In p (for_in_entries obj) ->
  get_property obj (prop_name p) = prop_value p.
Proof.
  induction obj as [|own proto IH]; intros Hd Hin; [destruct Hin|].
  cbn [forallb] in Hd. apply andb_prop in Hd as [Hown Hd].
  cbn [for_in_entries] in Hin. cbn [get_property].
  apply in_app_or in Hin as [Hin|Hin]; apply filter_In in Hin as [Hin Hp].
  - rewrite (find_own_property _ _ Hown Hin). reflexivity.
  - apply negb_true_iff in Hp. rewrite (find_no_property _ _ Hp).
    exact (IH Hd Hin).
Qed.

Lemma Forall2_map_In {A B C} (f : A -> B) (R : B -> C -> Prop) (Q : A -> C -> Prop)
      (l : list A) :
  (forall a c, In a l -> R (f a) c -> Q a c) ->
  forall t, Forall2 R (map f l) t -> Forall2 Q l t.
Proof.
  induction l as [|a l IH]; intros HRQ t H; inversion H; subst; constructor.
  - apply HRQ; [left; reflexivity|assumption].
  - apply IH; [|assumption]. intros a' c Ha'. apply HRQ. right. exact Ha'.
Qed.

(** X12.  When [setAll] of an object returns, the requests it has sent are
    the [set] requests of the properties that [for...in] comes to, name with
    value, in order: the object's own enumerable properties, then the
    enumerable properties of its prototypes that no nearer object has a
    property of the same name for. *)
Theorem setAll_posts_the_entries (obj : jsobject) (w : W) :
  forallb (fun own => keys_distinct (map prop_name own)) obj = true ->
  settled (run transport (Client.setAll this obj) w) = Done this ->
  Forall2 (fun p r => exists v, json_shaped (prop_value p) = Some v /\
                                r = Client.set_request this (prop_name p) v)
          (for_in_entries obj)
          (trace (run transport (Client.setAll this obj) w)).
Proof.
  intros Hd Hdone. unfold Client.setAll in *.
  pose proof (run_setAll_loop_done _ _ _ Hdone) as Hposts.
  rewrite for_in_keys_entries in Hposts |- *.
  revert Hposts. apply Forall2_map_In.
  intros p r Hp (v & Hv & ->). exists v. split; [|reflexivity].
  rewrite <- (get_property_entry _ _ Hd Hp). exact Hv.
Qed.
End CompositesMore.

(** ** Fan-out composites: further properties *)

Lemma length_replace_nth {A} (i : nat) (a : A) (l : list A) :
  List.length (replace_nth i a l) = List.length l.
Proof.
  revert i; induction l as [|b l IH]; intros [|i]; cbn; auto.
Qed.

Section FanOutMore.
Variable this : Client.t.
Variable f : fan_out Client.t Client.t.

Lemma settle_all_returned (ps : list (prog Client.t)) :
  Forall (fun p => p = Return this) ps -> result f = this ->
  settle f ps = Some (Done this).
Proof.
  intros H. unfold settle, Promise_all.
  assert (Hff : first_failure ps = None).
  { induction ps as [|p ps IH]; [reflexivity|].
    inversion H as [|? ? Hp Hps]; subst. cbn. auto. }
  assert (Hall : exists vs, all_values ps = Some vs).
  { clear Hff. unfold all_values. induction ps as [|p ps IH]; [cbn; eauto|].
    inversion H as [|? ? Hp Hps]; subst. cbn.
    destruct (IH Hps) as [vs Hvs]. rewrite Hvs. cbn. eexists; reflexivity. }
  destruct Hall as [vs Hvs]. rewrite Hff, Hvs. cbn. intros ->. reflexivity.
Qed.

Lemma settle_some_outstanding (ps : list (prog Client.t)) (i : nat) (p : prog Client.t) :
  Forall (fun q => is_outstanding q = true \/ q = Return this) ps ->
  nth_error ps i = Some p -> is_outstanding p = true ->
  settle f ps = None.
Proof.
  intros Hall Hi Hp. unfold settle, Promise_all.
  assert (Hff : first_failure ps = None).
  { clear Hi. induction Hall as [|q ps Hq _ IH]; cbn; auto.
    destruct Hq as [Hq|Hq]; [|rewrite Hq; exact IH].
    destruct q; try discriminate; auto. }
  assert (Hnone : all_values ps = None).
  { destruct (all_values ps) as [vs|] eqn:Hvs; auto.
    pose proof (all_values_nth _ _ Hvs Hi). congruence. }
  rewrite Hff, Hnone. reflexivity.
Qed.

Lemma verdict_stable (st : joining Client.t Client.t) (ev : event) (v : outcome Client.t) :
  prelude st = None -> verdict st = Some v ->
  prelude (step f st ev) = None /\ verdict (step f st ev) = Some v.
Proof.
  intros Hpre Hv. unfold step. rewrite Hpre.
  destruct ev as [rep|i rep]; [auto|].
  destruct (nth_error (children st) i) as [[a|e|r k]|]; auto.
  cbn. rewrite Hv. auto.
Qed.

Lemma verdict_stable_steps (evs : list event) (st : joining Client.t Client.t)
      (v : outcome Client.t) :
  prelude st = None -> verdict st = Some v ->
  verdict (fold_left (step f) evs st) = Some v.
Proof.
  revert st; induction evs as [|ev evs IH]; intros st Hpre Hv; cbn; auto.
  destruct (@verdict_stable st ev v Hpre Hv) as [Hpre' Hv']. auto.
Qed.

Lemma answered_snoc (evs : list event) (ev : event) (i : nat) :
  answered (evs ++ [ev]) i = answered evs i || answers i ev.
Proof. unfold answered. rewrite existsb_app. cbn. rewrite orb_false_r. reflexivity. Qed.

(** What the promises of a fan-out of deletes look like from their keys and
    from who has been answered. *)
Lemma children_shape (keys : list jsstring) (ps : list (prog Client.t))
      (done : nat -> bool) :
  List.length ps = List.length keys ->
  (forall i k, nth_error keys i = Some k ->
               nth_error ps i = Some (if done i then Return this else Client.delete this k)) ->
  Forall (fun q => is_outstanding q = true \/ q = Return this) ps /\
  ((forall i, i < List.length keys -> done i = true) ->
   Forall (fun q => q = Return this) ps).
Proof.
  intros Hlen Hch.
  assert (Hpoint : forall q, In q ps ->
             exists i k, nth_error keys i = Some k /\
                         q = if done i then Return this else Client.delete this k).
  { intros q Hq. apply In_nth_error in Hq as [i Hi].
    assert (Hlt : i < List.length keys).
    { rewrite <- Hlen. apply nth_error_Some. congruence. }
    destruct (nth_error keys i) as [k|] eqn:Hk; [|apply nth_error_None in Hk; lia].
    exists i, k. split; [exact Hk|]. rewrite (Hch i k Hk) in Hi. congruence. }
  split.
  - apply Forall_forall. intros q Hq. destruct (Hpoint q Hq) as (i & k & _ & ->).
    destruct (done i); [right|left]; reflexivity.
  - intros Hall. apply Forall_forall. intros q Hq.
    destruct (Hpoint q Hq) as (i & k & Hk & ->).
    rewrite Hall; [reflexivity|]. apply nth_error_Some. congruence.
Qed.

(** The promises of a fan-out of deletes that has only received responses:
    promise [i] is fulfilled if it has been answered and is still waiting
    otherwise, and the call is settled exactly as [Promise.all] of them. *)
Lemma answered_children (keys : list jsstring) (st0 : joining Client.t Client.t)
      (evs : list event) :
  prelude st0 = None ->
  children st0 = map (Client.delete this) keys ->
  verdict st0 = settle f (children st0) ->
  forallb is_answer evs = true ->
  let st := fold_left (step f) evs st0 in
  prelude st = None /\
  verdict st = settle f (children st) /\
  List.length (children st) = List.length keys /\
  forall i k, nth_error keys i = Some k ->
              nth_error (children st) i =
              Some (if answered evs i then Return this else Client.delete this k).
Proof.
  intros Hpre0 Hch0 Hv0. induction evs as [|ev evs IH] using rev_ind; intros Hans st.
  - subst st. cbn. repeat split; auto.
    + rewrite Hch0. apply length_map.
    + intros i k Hk. rewrite Hch0. rewrite nth_error_map, Hk. reflexivity.
  - rewrite forallb_app in Hans. apply andb_prop in Hans as [Hans Hev].
    cbn in Hev. rewrite andb_true_r in Hev.
    subst st. rewrite fold_left_app. cbn [fold_left].
    specialize (IH Hans). cbv zeta in IH.
    set (st := fold_left (step f) evs st0) in *.
    destruct IH as (Hpre & Hv & Hlen & Hch).
    destruct ev as [rep|j [status text|reason]]; try discriminate.
    assert (Hsame : forall i k, nth_error keys i = Some k ->
                (j = i -> answered evs i = true) ->
                nth_error (children st) i =
                Some (if answered (evs ++ [PromiseReply j (Response status text)]) i
                      then Return this else Client.delete this k)).
    { intros i k Hk Hji. rewrite (Hch i k Hk), answered_snoc. cbn [answers].
      destruct (Nat.eqb_spec j i) as [Heq|Hne]; [|rewrite orb_false_r; reflexivity].
      rewrite (Hji Heq). reflexivity. }
    unfold step. rewrite Hpre.
    destruct (nth_error (children st) j) as [[a|e|r kont]|] eqn:Hj.
    + repeat split; auto. intros i k Hk. apply Hsame; auto.
      intros ->. rewrite (Hch i k Hk) in Hj.
      destruct (answered evs i); [reflexivity|discriminate].
    + repeat split; auto. intros i k Hk. apply Hsame; auto.
      intros ->. rewrite (Hch i k Hk) in Hj.
      destruct (answered evs i); [reflexivity|discriminate].
    + assert (Hjlt : j < List.length keys).
      { rewrite <- Hlen. apply nth_error_Some. congruence. }
      destruct (nth_error keys j) as [kj|] eqn:Hkj;
        [|apply nth_error_None in Hkj; lia].
      pose proof (Hch j kj Hkj) as Hchj. rewrite Hj in Hchj.
      destruct (answered evs j) eqn:Haj; [discriminate|].
      assert (Hfetch : Fetch r kont = Client.delete this kj) by congruence.
      pose proof (delete_resume Hfetch (Response status text)) as Hk. cbn in Hk.
      assert (Hvnone : verdict st = None).
      { rewrite Hv. destruct (children_shape keys (children st) (answered evs) Hlen Hch)
          as [Hshape _].
        exact (@settle_some_outstanding (children st) j (Fetch r kont) Hshape Hj
                                        eq_refl). }
      cbn [prelude verdict children issued]. rewrite Hvnone, Hk.
      split; [reflexivity|]. split; [reflexivity|]. split.
      * rewrite length_replace_nth. exact Hlen.
      * intros i k Hki. rewrite answered_snoc. cbn [answers].
        destruct (Nat.eqb_spec j i) as [->|Hne].
        -- rewrite orb_true_r. apply nth_error_replace_nth_same.
           rewrite Hlen. exact Hjlt.
        -- rewrite orb_false_r, nth_error_replace_nth_other by auto. apply Hch, Hki.
    + repeat split; auto. intros i k Hk. apply Hsame; auto.
      intros ->. rewrite (Hch i k Hk) in Hj. discriminate.
Qed.
End FanOutMore.

Lemma forallb_false_witness {A} (p : A -> bool) (l : list A) :
  forallb p l = false -> exists x, In x l /\ p x = false.
Proof.
  induction l as [|a l IH]; cbn; [discriminate|].
  destruct (p a) eqn:Ha; cbn.
  - intros H. destruct (IH H) as (x & Hx & Hpx). eauto.
  - intros _. eauto.
Qed.

Lemma first_failure_shape (this : Client.t) (ps : list (prog Client.t)) :
  Forall (fun q => is_outstanding q = true \/ q = Return this) ps ->
  first_failure ps = None.
Proof.
  induction 1 as [|q ps Hq _ IH]; cbn; auto.
  destruct Hq as [Hq|Hq]; [|rewrite Hq; exact IH].
  destruct q; try discriminate; auto.
Qed.

Section FanOutOutcomes.
Variable this : Client.t.

(** After responses only, [deleteMultiple] is in the state that the answers
    determine. *)
Lemma deleteMultiple_answered (keys : list jsstring) (evs : list event) :
  forallb is_answer evs = true ->
  let f := Client.deleteMultiple this keys in
  let st := steps f evs in
  prelude st = None /\
  verdict st = settle f (children st) /\
  List.length (children st) = List.length keys /\
  forall i k, nth_error keys i = Some k ->
              nth_error (children st) i =
              Some (if answered evs i then Return this else Client.delete this k).
Proof.
  intros Hans f st. subst st. unfold steps.
  apply (@answered_children this f keys (launch f) evs); auto.
Qed.

(** X13.  While every reply is a response, of whatever status and in whatever
    order, [deleteMultiple] is fulfilled, with the client, exactly when
    every delete has been answered, and is pending until then; the requests
    issued are the deletes of the keys, in order. *)
Theorem deleteMultiple_fulfilled_when_all_answered
  (keys : list jsstring) (evs : list event) :
  forallb is_answer evs = true ->
  let st := steps (Client.deleteMultiple this keys) evs in
  verdict st = (if forallb (answered evs) (seq 0 (List.length keys))
                then Some (Done this) else None) /\
  issued st = map (Client.delete_request this) keys.
Proof.
  intros Hans st.
  destruct (deleteMultiple_answered keys evs Hans) as (Hpre & Hv & Hlen & Hch).
  fold st in Hpre, Hv, Hlen, Hch. split.
  - rewrite Hv.
    destruct (children_shape this keys (children st) (answered evs) Hlen Hch)
      as [Hshape Hall].
    destruct (forallb (answered evs) (seq 0 (List.length keys))) eqn:Hfa.
    + apply settle_all_returned; [|reflexivity]. apply Hall. intros i Hi.
      rewrite forallb_forall in Hfa. apply Hfa, in_seq. lia.
    + apply forallb_false_witness in Hfa as (i & Hi & Hai).
      apply in_seq in Hi.
      destruct (nth_error keys i) as [k|] eqn:Hk; [|apply nth_error_None in Hk; lia].
      pose proof (Hch i k Hk) as Hci. rewrite Hai in Hci.
      exact (@settle_some_outstanding this _ (children st) i _ Hshape Hci eq_refl).
  - subst st. unfold steps.
    destruct (@steps_deleting this (Client.deleteMultiple this keys) keys evs
                (launch (Client.deleteMultiple this keys)) eq_refl) as [_ Hissued].
    + rewrite launch_deleteMultiple. apply deleting_start. reflexivity.
    + rewrite Hissued, launch_deleteMultiple. reflexivity.
Qed.

(** X14.  The first rejection of a delete that was still waiting is the
    result of [deleteMultiple], and stays the result whatever replies come
    after it. *)
Theorem deleteMultiple_first_rejection_wins
  (keys : list jsstring) (before later : list event) (i : nat) (reason : jsstring) :
  forallb is_answer before = true ->
  i < List.length keys ->
  answered before i = false ->
  verdict (steps (Client.deleteMultiple this keys)
                 (before ++ PromiseReply i (NetworkError reason) :: later))
    = Some (Failed (TransportError reason)).
Proof.
  intros Hans Hi Hai. unfold steps. rewrite fold_left_app. cbn [fold_left].
  destruct (deleteMultiple_answered keys before Hans) as (Hpre & Hv & Hlen & Hch).
  unfold steps in Hpre, Hv, Hlen, Hch.
  set (f := Client.deleteMultiple this keys) in *.
  set (st := fold_left (step f) before (launch f)) in *.
  destruct (children_shape this keys (children st) (answered before) Hlen Hch)
    as [Hshape _].
  destruct (nth_error keys i) as [k|] eqn:Hk; [|apply nth_error_None in Hk; lia].
  pose proof (Hch i k Hk) as Hci. rewrite Hai in Hci.
  assert (Hnone : verdict st = None).
  { rewrite Hv. exact (@settle_some_outstanding this f (children st) i _ Hshape Hci eq_refl). }
  assert (Hstep : prelude (step f st (PromiseReply i (NetworkError reason))) = None /\
                  verdict (step f st (PromiseReply i (NetworkError reason)))
                  = Some (Failed (TransportError reason))).
  { unfold step. rewrite Hpre, Hci. unfold Client.delete, fetch_. cbn [bind].
    cbn [prelude verdict issued children outstanding]. rewrite Hnone.
    split; [reflexivity|].
    unfold settle, Promise_all. rewrite first_failure_replace; auto.
    - apply (first_failure_shape Hshape).
    - rewrite Hlen. exact Hi. }
  destruct Hstep as [Hpre' Hv'].
  apply verdict_stable_steps; assumption.
Qed.

Lemma settle_result (f g : fan_out Client.t Client.t) (ps : list (prog Client.t)) :
  result f = result g -> settle f ps = settle g ps.
Proof. intros H. unfold settle. rewrite H. reflexivity. Qed.

Lemma steps_agree (f g : fan_out Client.t Client.t) (log : list request)
      (evs : list event) :
  result f = result g ->
  forall st1 st2 : joining Client.t Client.t,
    prelude st1 = None -> prelude st2 = None ->
    children st1 = children st2 -> verdict st1 = verdict st2 ->
    issued st1 = log ++ issued st2 ->
    children (fold_left (step f) evs st1) = children (fold_left (step g) evs st2) /\
    verdict (fold_left (step f) evs st1) = verdict (fold_left (step g) evs st2) /\
    issued (fold_left (step f) evs st1) = log ++ issued (fold_left (step g) evs st2).
Proof.
  intros Hfg. induction evs as [|ev evs IH]; intros st1 st2 Hp1 Hp2 Hch Hv Hi;
    cbn [fold_left]; [auto|].
  apply IH.
  - unfold step. rewrite Hp1. destruct ev; auto.
    destruct (nth_error (children st1) i) as [[]|]; auto.
  - unfold step. rewrite Hp2. destruct ev; auto.
    destruct (nth_error (children st2) i) as [[]|]; auto.
  - unfold step. rewrite Hp1, Hp2, Hch. destruct ev; auto.
    destruct (nth_error (children st2) i) as [[]|]; auto.
  - unfold step. rewrite Hp1, Hp2, Hch. destruct ev; auto.
    destruct (nth_error (children st2) i) as [[]|]; auto.
    cbn. rewrite Hv, (@settle_result f g _ Hfg). reflexivity.
  - unfold step. rewrite Hp1, Hp2, Hch. destruct ev; auto.
    destruct (nth_error (children st2) i) as [[]|]; auto.
    cbn. rewrite Hi, app_assoc. reflexivity.
Qed.

(** X15.  Once [list] has answered with keys, [empty] goes on as
    [deleteMultiple] of these keys does: the same promises and the same
    result after the same replies, the listing request coming before the
    same delete requests. *)
Theorem empty_is_deleteMultiple_of_listing
  (status : N) (text : jsstring) (keys : list jsstring) (evs : list event) :
  Client.keys_of_text text = Return keys ->
  let st := steps (Client.empty this) (LoopReply (Response status text) :: evs) in
  let st' := steps (Client.deleteMultiple this keys) evs in
  children st = children st' /\
  verdict st = verdict st' /\
  issued st = Client.list_request this [] :: issued st'.
Proof.
  intros Hkeys st st'. subst st st'.
  pose proof (@empty_after_list this status text keys Hkeys) as Hstart.
  unfold steps in *. cbn [fold_left] in *. rewrite Hstart.
  apply (@steps_agree (Client.empty this) (Client.deleteMultiple this keys)
           [Client.list_request this []] evs eq_refl);
    rewrite ?launch_deleteMultiple; reflexivity.
Qed.

(** X16.  When [list] fails, by a rejected request or by a listing that does
    not decode, [empty] fails with the same error; it has issued the listing
    request only and never issues a delete. *)
Theorem empty_fails_with_list
  (rep : reply) (e : exn) (evs : list event) :
  match rep with
  | Response _ text => Client.keys_of_text text = Throw e
  | NetworkError reason => e = TransportError reason
  end ->
  let st := steps (Client.empty this) (LoopReply rep :: evs) in
  verdict st = Some (Failed e) /\
  issued st = [Client.list_request this []] /\
  children st = [].
Proof.
  intros Hrep st.
  assert (Hfirst : steps (Client.empty this) [LoopReply rep] =
                   {| prelude := None; children := []; verdict := Some (Failed e);
                      issued := [Client.list_request this []] |}).
  { destruct rep as [status text|reason]; unfold steps, launch; cbn [fold_left];
      unfold Client.empty, Client.list;
      cbn [promises URI.encodeURIComponent uri_result bind fetch_text enter];
      unfold step; cbn [prelude issued app bind].
    - rewrite Hrep. reflexivity.
    - subst e. reflexivity. }
  assert (Hstay : forall evs' (s : joining Client.t Client.t),
             prelude s = None -> children s = [] ->
             fold_left (step (Client.empty this)) evs' s = s).
  { induction evs' as [|ev evs' IH]; intros s Hp Hc; cbn [fold_left]; auto.
    assert (Hs : step (Client.empty this) s ev = s).
    { unfold step. rewrite Hp, Hc. destruct ev as [|[|i] ?]; reflexivity. }
    rewrite Hs. apply IH; assumption. }
  subst st. unfold steps in *. cbn [fold_left] in *.
  rewrite Hfirst, Hstay; auto.
Qed.

(** X17.  With no key to delete, [deleteMultiple] is fulfilled at once
    without any request, and [empty], once an empty listing has arrived,
    is fulfilled having sent the listing request only; later
    replies change neither. *)
Theorem fan_out_of_nothing (status : N) (evs : list event) :
  (let st := steps (Client.deleteMultiple this []) evs in
   verdict st = Some (Done this) /\ issued st = []) /\
  (let st := steps (Client.empty this) (LoopReply (Response status []) :: evs) in
   verdict st = Some (Done this) /\ issued st = [Client.list_request this []]).
Proof.
  assert (Hstay : forall f evs' (s : joining Client.t Client.t),
             prelude s = None -> children s = [] ->
             fold_left (step f) evs' s = s).
  { intros f. induction evs' as [|ev evs' IH]; intros s Hp Hc; cbn [fold_left]; auto.
    assert (Hs : step f s ev = s).
    { unfold step. rewrite Hp, Hc. destruct ev as [|[|i] ?]; reflexivity. }
    rewrite Hs. apply IH; assumption. }
  split.
  - unfold steps. rewrite Hstay; split; reflexivity.
  - pose proof (@empty_after_list this status [] [] eq_refl) as Hstart.
    unfold steps in *. cbn [fold_left] in *.
    rewrite Hstart, Hstay; split; reflexivity.
Qed.
End FanOutOutcomes.

(** * Concrete runs *)

Module Runs.
Import Sample.
#[local] Existing Instance ExactDecimal.model.




Example sample_text :
  JSON_stringify sample =
  Some (jsq "{'1':[2.5,'a\'b',true,null],'name':{'n':-120}}").
Proof. reflexivity. Qed.

Lemma get_absent_normalization_witness :
  (settled (run scripted (Client.get db (js "k") None) [Response 200 []])
     = Done Null /\
   settled (run scripted (Client.get db (js "k") (Some {| Client.raw := Some true |}))
                [Response 200 []]) = Done (Str [])) /\
  settled (run scripted (Client.get db (js "k") None) [Response 200 (js " null ")])
    = Done Null.
Proof.
  split; [split|].
  - exact (proj1 (@get_absent_normalization _ _ scripted db (js "k") None
                    [Response 200 []] [] 200%N [] eq_refl) eq_refl).
  - exact (proj1 (@get_absent_normalization _ _ scripted db (js "k")
                    (Some {| Client.raw := Some true |})
                    [Response 200 []] [] 200%N [] eq_refl) eq_refl).
  - exact (proj2 (@get_absent_normalization _ _ scripted db (js "k") None
                    [Response 200 (js " null ")] [] 200%N (js " null ") eq_refl)
                 eq_refl eq_refl).
Defined.

Lemma get_decode_failure_witness :
  (exists message,
      settled (run scripted (Client.get db (js "k") None)
                   [Response 200 (js "{not valid}")])
        = Failed (SyntaxError message) /\
      message = js "Failed to parse value of " ++ js "k" ++
                js ", try passing a raw option to get the raw value" /\
      contains (js "k") message = true /\
      contains (js "raw option") message = true) /\
  settled (run scripted (Client.get db (js "k") (Some {| Client.raw := Some true |}))
               [Response 200 (js "{not valid}")])
    = Done (Str (js "{not valid}")).
Proof.
  assert (Hbody : js "{not valid}" <> []) by discriminate.
  split.
  - exact (proj1 (@get_decode_failure _ _ scripted db (js "k") None
                    [Response 200 (js "{not valid}")] [] 200%N (js "{not valid}")
                    eq_refl Hbody eq_refl) eq_refl).
  - exact (proj2 (@get_decode_failure _ _ scripted db (js "k")
                    (Some {| Client.raw := Some true |})
                    [Response 200 (js "{not valid}")] [] 200%N (js "{not valid}")
                    eq_refl Hbody eq_refl) eq_refl).
Defined.
Lemma list_protocol_witness :
  run scripted (Client.list db (Some (js "a" ++ lone_high))) [Response 200 listing]
    = {| settled := Failed URIError; world := [Response 200 listing];
         trace := [] |} /\
  trace (run scripted (Client.list db (Some (js "a"))) [Response 200 listing])
    = [{| method := GET;
          url := js "https://kv.example/db?encode=true&prefix=a";
          headers := []; body := None |}] /\
  settled (run scripted (Client.list db (Some (js "a"))) [Response 200 listing])
    = Done [js "a/b"; js "a c"].
Proof.
  split.
  - exact (proj1 (@list_protocol (list reply) scripted db
                    (Some (js "a" ++ lone_high)) [Response 200 listing]) eq_refl).
  - assert (Hbody : listing <> []) by discriminate.
    assert (Hkeys : Forall2 (fun segment k => URI.decodeURIComponent segment = Some k)
                            (split_on 10%N listing) [js "a/b"; js "a c"]).
    { repeat constructor. }
    destruct (proj2 (@list_protocol (list reply) scripted db
                       (Some (js "a")) [Response 200 listing]) eq_refl)
      as (encoded & Henc & Htrace & Hreply).
    injection Henc as <-.
    split; [exact Htrace|].
    exact (proj1 (proj2 (Hreply [] 200%N listing eq_refl) Hbody) _ Hkeys).
Defined.

(** C7, the claim as stated, at a prefix that is a high surrogate on its
    own: [list] issues no request at all. *)
Lemma list_unpaired_surrogate_issues_no_request :
  trace (run scripted (Client.list db (Some lone_high)) [Response 200 []]) = [] /\
  settled (run scripted (Client.list db (Some lone_high)) [Response 200 []])
    = Failed URIError /\
  ~ (exists req,
        trace (run scripted (Client.list db (Some lone_high)) [Response 200 []])
          = [req]).
Proof.
  split; [reflexivity|]. split; [reflexivity|].
  intros [req H]. cbv in H. discriminate H.
Qed.

Lemma setAll_sequential_witness :
  run scripted (Client.setAll db with_prototype) [Response 200 []; Response 200 []]
    = {| settled := Done db; world := [];
         trace := [post (js "a") (js "2"); post (js "inherited") (js "1")] |} /\
  run scripted (Client.setAll db (literal three))
      [Response 200 []; NetworkError (js "down"); Response 200 []]
    = {| settled := Failed (TransportError (js "down"));
         world := [Response 200 []];
         trace := [post (js "a") (js "1"); post (js "b") (js "2")] |} /\
  run scripted (Client.setAll db with_bigint)
      [Response 200 []; Response 200 []; Response 200 []]
    = {| settled := Failed TypeError;
         world := [Response 200 []; Response 200 []];
         trace := [post (js "a") (js "1")] |}.
Proof.
  split; [|split].
  - exact (proj1 (@setAll_sequential _ (list reply) scripted db with_prototype
                    [Response 200 []; Response 200 []] []
                    [js "a"; js "inherited"] [] [dec 2 0; dec 1 0]
                    [Response 200 []; Response 200 []]
                    eq_refl eq_refl eq_refl eq_refl) eq_refl).
  - exact (proj1 (proj2 (@setAll_sequential _ (list reply) scripted db (literal three)
                    [Response 200 []; NetworkError (js "down"); Response 200 []]
                    [NetworkError (js "down"); Response 200 []]
                    [js "a"] [js "b"; js "c"] [dec 1 0] [Response 200 []]
                    eq_refl eq_refl eq_refl eq_refl))
                 (js "b") [js "c"] (dec 2 0) [Response 200 []] (js "down")
                 eq_refl eq_refl eq_refl).
  - exact (proj2 (proj2 (@setAll_sequential _ (list reply) scripted db with_bigint
                    [Response 200 []; Response 200 []; Response 200 []]
                    [Response 200 []; Response 200 []]
                    [js "a"] [js "b"; js "c"] [dec 1 0] [Response 200 []]
                    eq_refl eq_refl eq_refl eq_refl))
                 (js "b") [js "c"] eq_refl eq_refl).
Defined.

(** C9, the claim as stated, at a BigInt: the transport would answer, yet
    [set] fails, with an error that is not the transport's, and nothing has
    been sent. *)
Lemma set_bigint_fails_before_fetch :
  run scripted (Client.set db (js "k") (BigInt 10)) [Response 200 []]
    = {| settled := Failed TypeError; world := [Response 200 []]; trace := [] |} /\
  settled (run scripted (Client.set db (js "k") (BigInt 10)) [Response 200 []])
    <> Done db /\
  ~ (exists reason,
        settled (run scripted (Client.set db (js "k") (BigInt 10)) [Response 200 []])
          = Failed (TransportError reason)).
Proof.
  split; [reflexivity|]. split.
  - intros H. cbv in H. discriminate H.
  - intros [reason H]. cbv in H. discriminate H.
Qed.

(** C8, the claim as stated, at the environment without variables: the
    variable is absent and no endpoint is given, yet construction does not
    fail; it yields a client whose endpoint is [undefined]. *)
Lemma constructor_does_not_fail_fast :
  no_variables (js "REPLIT_DB_URL") = Done None /\
  Client.constructor no_variables None = Done {| Client.key := None |} /\
  ~ (exists e, Client.constructor no_variables None = Failed e).
Proof.
  split; [reflexivity|]. split; [reflexivity|]. intros [e He]. discriminate He.
Qed.

Lemma constructor_without_endpoint_witness :
  Client.constructor no_variables None = Done {| Client.key := None |} /\
  Client.key_text {| Client.key := None |} = js "undefined".
Proof.
  exact (proj1 (@constructor_without_endpoint no_variables None (or_introl eq_refl))
               eq_refl).
Defined.


(** C2, the claim as stated, at three keys of which the second is rejected
    first: every delete has been issued, the failure is already the call's
    result, and the first and the third delete are still in flight. *)
Lemma deleteMultiple_rejects_before_settlement :
  let st := steps (Client.deleteMultiple db k123)
                  [PromiseReply 1 (NetworkError (js "down"))] in
  issued st = map (Client.delete_request db) k123 /\
  verdict st = Some (Failed (TransportError (js "down"))) /\
  in_flight st = [0; 2] /\
  ~ (in_flight st = []).
Proof. cbv zeta. repeat split; try reflexivity. discriminate. Qed.

Lemma fan_out_rejects_on_first_failure_witness :
  (let st := steps (Client.deleteMultiple db k123)
                   ([] ++ [] ++ [PromiseReply 1 (NetworkError (js "down"))]) in
   verdict st = Some (Failed (TransportError (js "down"))) /\
   issued st = issued (steps (Client.deleteMultiple db k123) ([] ++ [])) /\
   forall j, j <> 1 ->
             nth_error (children st) j =
             nth_error (children (steps (Client.deleteMultiple db k123) ([] ++ []))) j) /\
  (let before := [LoopReply (Response 200 two_keys)] in
   let st := steps (Client.empty db)
                   (before ++ [] ++ [PromiseReply 0 (NetworkError (js "down"))]) in
   verdict st = Some (Failed (TransportError (js "down"))) /\
   issued st = issued (steps (Client.empty db) (before ++ [])) /\
   forall j, j <> 0 ->
             nth_error (children st) j =
             nth_error (children (steps (Client.empty db) (before ++ []))) j).
Proof.
  split.
  - destruct (@fan_out_rejects_on_first_failure db (Client.deleteMultiple db k123)
                [] k123 (or_introl (conj eq_refl eq_refl))) as (_ & _ & H).
    destruct (H []) as (_ & _ & Hrej).
    exact (Hrej 1 (Client.delete db (js "k2")) (js "down") eq_refl eq_refl eq_refl).
  - destruct (@fan_out_rejects_on_first_failure db (Client.empty db)
                [LoopReply (Response 200 two_keys)] [js "a"; js "b"]
                (or_intror (conj eq_refl
                   (ex_intro _ 200%N (ex_intro _ two_keys (conj eq_refl eq_refl))))))
      as (_ & _ & H).
    destruct (H []) as (_ & _ & Hrej).
    exact (Hrej 0 (Client.delete db (js "a")) (js "down") eq_refl eq_refl eq_refl).
Defined.

(** The platform models on a few texts. *)

Example encode_reserved :
  URI.encodeURIComponent (js "a/b c&d=e") = Some (js "a%2Fb%20c%26d%3De").
Proof. reflexivity. Qed.

Example decode_reserved :
  URI.decodeURIComponent (js "a%2Fb%20c") = Some (js "a/b c").
Proof. reflexivity. Qed.

Example decode_malformed : URI.decodeURIComponent (js "100%") = None.
Proof. reflexivity. Qed.

Example encode_three_octets :
  URI.encodeURIComponent [0x20AC%N] = Some (js "%E2%82%AC").
Proof. reflexivity. Qed.

Example decode_three_octets :
  URI.decodeURIComponent (js "%E2%82%AC") = Some [0x20AC%N].
Proof. reflexivity. Qed.

Example encode_surrogate_pair :
  URI.encodeURIComponent [0xD83D%N; 0xDE00%N] = Some (js "%F0%9F%98%80").
Proof. reflexivity. Qed.

Example decode_surrogate_pair :
  URI.decodeURIComponent (js "%F0%9F%98%80") = Some [0xD83D%N; 0xDE00%N].
Proof. reflexivity. Qed.

Example encode_lone_surrogate : URI.encodeURIComponent [0xD83D%N] = None.
Proof. reflexivity. Qed.

Example decode_overlong : URI.decodeURIComponent (js "%C0%80") = None.
Proof. reflexivity. Qed.

Example parse_not_valid : JSON_parse (js "{not valid}") = None.
Proof. reflexivity. Qed.

Example parse_empty : JSON_parse [] = None.
Proof. reflexivity. Qed.

Example parse_trailing : JSON_parse (js "[1,2]x") = None.
Proof. reflexivity. Qed.

Example parse_leading_zero : JSON_parse (js "01") = None.
Proof. reflexivity. Qed.

Example parse_spaced_null : JSON_parse (js " null ") = Some Null.
Proof. reflexivity. Qed.

Example parse_escapes :
  JSON_parse (jsq "'\u0041\n\/'") = Some (Str [65%N; 10%N; 47%N]).
Proof. reflexivity. Qed.

Example parse_property_order :
  JSON_parse (jsq "{'b':1,'10':2,'9':3,'b':4}") =
  Some (Obj [(js "9", dec 3 0); (js "10", dec 2 0); (js "b", dec 4 0)]).
Proof. reflexivity. Qed.

Example stringify_undefined_inside :
  JSON_stringify (Obj [(js "a", Arr [Undefined; Null]); (js "u", Undefined)]) =
  Some (jsq "{'a':[null,null]}").
Proof. reflexivity. Qed.

Example stringify_not_finite :
  JSON_stringify (Arr [Num (ExactDecimal.NaN : number);
                       Num (ExactDecimal.Infinity true : number)]) =
  Some (js "[null,null]").
Proof. reflexivity. Qed.

Example stringify_control_and_lone_surrogate :
  JSON_stringify (Str [1%N; 0xD800%N; 65%N]) = Some (jsq "'\u0001\ud800A'").
Proof. reflexivity. Qed.

Example number_printing :
  map ExactDecimal.toString
      [ExactDecimal.of_token (js "1e21"); ExactDecimal.of_token (js "0.000001");
       ExactDecimal.of_token (js "1.5e-7"); ExactDecimal.of_token (js "-120.50")] =
  [js "1e+21"; js "0.000001"; js "1.5e-7"; js "-120.5"].
Proof. reflexivity. Qed.

(** With no endpoint at all the requests are addressed to the text
    [undefined]. *)
Example request_without_endpoint :
  url (Client.get_request {| Client.key := None |} (js "k")) = js "undefined/k".
Proof. reflexivity. Qed.

(** [undefined] as a value to set is sent as the text [undefined]. *)
Example set_undefined :
  body (Client.set_request db (js "k") Undefined) = Some (js "k=undefined").
Proof. reflexivity. Qed.

(** [getAll] on a listing of two keys, the first of which has no value. *)
Example getAll_run :
  settled (run scripted (Client.getAll db)
               [Response 200 two_keys; Response 200 []; Response 200 (js "1")])
  = Done [(js "a", Null); (js "b", dec 1 0)].
Proof. reflexivity. Qed.

(** [deleteMultiple] when every delete is answered: fulfilled at the last
    reply, nothing in flight. *)
Example deleteMultiple_all_answered :
  let st := steps (Client.deleteMultiple db k123)
                  [PromiseReply 2 (Response 200 []); PromiseReply 0 (Response 404 []);
                   PromiseReply 1 (Response 500 [])] in
  verdict st = Some (Done db) /\ in_flight st = [].
Proof. split; reflexivity. Qed.

Example deleteMultiple_pending :
  let st := steps (Client.deleteMultiple db k123)
                  [PromiseReply 2 (Response 200 []); PromiseReply 0 (Response 404 [])] in
  verdict st = None /\ in_flight st = [1].
Proof. split; reflexivity. Qed.

(** Runs for the further properties. *)

Lemma get_raw_verbatim_witness :
  settled (run scripted (Client.get db (js "k") raw_option) [Response 200 (js "1")])
    = Done (Str (js "1")).
Proof.
  exact (@get_raw_verbatim _ _ scripted db (js "k") raw_option
           [Response 200 (js "1")] eq_refl).
Defined.

Lemma get_list_ignore_status_witness :
  settled (run scripted (Client.get db (js "k") None) [Response 200 (js "1")]) =
  settled (run scripted (Client.get db (js "k") None) [Response 404 (js "1")]) /\
  settled (run scripted (Client.list db None) [Response 200 (js "1")]) =
  settled (run scripted (Client.list db None) [Response 500 (js "1")]).
Proof.
  split.
  - exact (proj1 (@get_list_ignore_status _ _ _ scripted scripted db (js "k") None
                    None [] [Response 200 (js "1")] [] [Response 404 (js "1")] []
                    200%N 404%N (js "1")) eq_refl eq_refl).
  - exact (proj2 (@get_list_ignore_status _ _ _ scripted scripted db (js "k") None
                    None [] [Response 200 (js "1")] [] [Response 500 (js "1")] []
                    200%N 500%N (js "1")) eq_refl eq_refl eq_refl).
Defined.

Lemma holes_image_serializable : serializable (json_image holes).
Proof. repeat (constructor; try reflexivity). Qed.

Lemma get_after_set_json_image_witness :
  Client.encode holes = jsq "{'b':[null,null,2.5]}" /\
  Client.decode (js "k") None (Client.encode holes)
    = Return (Obj [(js "b", Arr [Null; Null; dec 25 (-1)])]).
Proof.
  split; [reflexivity|].
  exact (@get_after_set_json_image _ (js "k") holes None eq_refl
           holes_image_serializable).
Defined.

Lemma list_lone_surrogate_prefix_witness :
  run scripted (Client.list db (Some (js "ab" ++ lone_high))) [Response 200 []]
    = {| settled := Failed URIError; world := [Response 200 []]; trace := [] |}.
Proof.
  exact (@list_lone_surrogate_prefix _ scripted db (js "ab") lone_high
           [Response 200 []] eq_refl eq_refl).
Defined.

Lemma list_prefix_on_the_wire_witness :
  trace (run scripted (Client.list db (Some (js "a/b c"))) [])
    = [Client.list_request db (js "a%2Fb%20c")] /\
  Forall (fun c => uri_safe c = true) (js "a%2Fb%20c") /\
  URI.decodeURIComponent (js "a%2Fb%20c") = Some (js "a/b c").
Proof.
  exact (@list_prefix_on_the_wire _ scripted db (js "a/b c") (js "a%2Fb%20c") []
           eq_refl eq_refl).
Defined.

Lemma list_malformed_segment_witness :
  settled (run scripted (Client.list db None) [Response 200 bad_listing])
    = Failed URIError.
Proof.
  refine (@list_malformed_segment _ scripted db None [] [Response 200 bad_listing]
            [] 200%N bad_listing eq_refl eq_refl _).
  apply Exists_cons_tl, Exists_cons_hd. reflexivity.
Defined.

Lemma list_one_key_per_segment_witness :
  List.length [js "a"; []] = S (count_occ N.eq_dec trailing_listing 10%N) /\
  (forall body, trailing_listing = body ++ [10%N] ->
                exists keys', [js "a"; []] = keys' ++ [[]]).
Proof.
  refine (@list_one_key_per_segment _ scripted db None [] [Response 200 trailing_listing]
            [] 200%N trailing_listing [js "a"; []] eq_refl eq_refl _ eq_refl).
  discriminate.
Defined.

Lemma list_returns_encoded_keys_witness :
  run scripted (Client.list db (Some (js "a"))) [Response 200 listing]
    = {| settled := Done [js "a/b"; js "a c"]; world := [];
         trace := [Client.list_request db (js "a")] |}.
Proof.
  refine (@list_returns_encoded_keys _ scripted db (Some (js "a")) (js "a")
            [js "a/b"; js "a c"] [js "a%2Fb"; js "a%20c"]
            [Response 200 listing] [] 200%N eq_refl eq_refl eq_refl _ eq_refl).
  discriminate.
Defined.

Lemma getAll_stops_at_first_failure_witness :
  run scripted (Client.getAll db) [NetworkError (js "down")]
    = {| settled := Failed (TransportError (js "down")); world := [];
         trace := [Client.list_request db []] |} /\
  run scripted (Client.getAll db)
      [Response 200 two_keys; Response 200 (js "1"); NetworkError (js "down");
       Response 200 (js "2")]
    = {| settled := Failed (TransportError (js "down"));
         world := [Response 200 (js "2")];
         trace := [Client.list_request db []; Client.get_request db (js "a");
                   Client.get_request db (js "b")] |}.
Proof.
  split.
  - exact (proj1 (@getAll_stops_at_first_failure _ _ scripted db
                    [NetworkError (js "down")])
                 (TransportError (js "down")) eq_refl).
  - exact (proj2 (@getAll_stops_at_first_failure _ _ scripted db
                    [Response 200 two_keys; Response 200 (js "1");
                     NetworkError (js "down"); Response 200 (js "2")])
                 [js "a"; js "b"] [js "a"] (js "b") []
                 (TransportError (js "down")) eq_refl eq_refl eq_refl eq_refl).
Defined.

Lemma getAll_reads_every_key_witness :
  exists keys,
    settled (run scripted (Client.list db None)
                 [Response 200 repeated_listing; Response 200 (js "1");
                  Response 200 (js "2"); Response 200 (js "3")]) = Done keys /\
    trace (run scripted (Client.getAll db)
               [Response 200 repeated_listing; Response 200 (js "1");
                Response 200 (js "2"); Response 200 (js "3")]) =
      trace (run scripted (Client.list db None)
               [Response 200 repeated_listing; Response 200 (js "1");
                Response 200 (js "2"); Response 200 (js "3")]) ++
      map (Client.get_request db) keys /\
    obj_lookup read_twice (js "a") = Some (dec 3 0).
Proof.
  destruct (@getAll_reads_every_key _ _ scripted db
              [Response 200 repeated_listing; Response 200 (js "1");
               Response 200 (js "2"); Response 200 (js "3")] read_twice eq_refl)
    as (keys & Hlist & Htrace & Hvalue).
  exists keys. split; [exact Hlist|]. split; [exact Htrace|].
  assert (Hk : keys = [js "a"; js "b"; js "a"]).
  { cbv in Hlist. injection Hlist as <-. reflexivity. }
  apply (Hvalue [js "a"; js "b"] (js "a") []).
  - exact Hk.
  - intros [].
  - reflexivity.
Defined.

Lemma getAll_distinct_keys_witness : NoDup (obj_keys read_twice).
Proof.
  exact (@getAll_distinct_keys _ _ scripted db
           [Response 200 repeated_listing; Response 200 (js "1");
            Response 200 (js "2"); Response 200 (js "3")] read_twice eq_refl).
Defined.

Lemma setAll_posts_the_entries_witness :
  for_in_entries shadowing =
    [own_property (js "a") (Plain (dec 2 0));
     own_property (js "inherited") (Plain (dec 1 0))] /\
  Forall2 (fun p r => exists v, json_shaped (prop_value p) = Some v /\
                                r = Client.set_request db (prop_name p) v)
          (for_in_entries shadowing)
          (trace (run scripted (Client.setAll db shadowing)
                      [Response 200 []; Response 200 []])).
Proof.
  split; [reflexivity|].
  exact (@setAll_posts_the_entries _ _ scripted db shadowing
           [Response 200 []; Response 200 []] eq_refl eq_refl).
Defined.

Lemma deleteMultiple_fulfilled_when_all_answered_witness :
  (let st := steps (Client.deleteMultiple db k123)
                   [PromiseReply 2 (Response 200 []); PromiseReply 0 (Response 404 []);
                    PromiseReply 1 (Response 200 [])] in
   verdict st = Some (Done db) /\
   issued st = map (Client.delete_request db) k123) /\
  (let st := steps (Client.deleteMultiple db k123)
                   [PromiseReply 2 (Response 200 []); PromiseReply 0 (Response 404 [])] in
   verdict st = None /\
   issued st = map (Client.delete_request db) k123).
Proof.
  split.
  - exact (@deleteMultiple_fulfilled_when_all_answered db k123
             [PromiseReply 2 (Response 200 []); PromiseReply 0 (Response 404 []);
              PromiseReply 1 (Response 200 [])] eq_refl).
  - exact (@deleteMultiple_fulfilled_when_all_answered db k123
             [PromiseReply 2 (Response 200 []); PromiseReply 0 (Response 404 [])]
             eq_refl).
Defined.

Lemma deleteMultiple_first_rejection_wins_witness :
  verdict (steps (Client.deleteMultiple db k123)
                 ([PromiseReply 0 (Response 200 [])] ++
                  PromiseReply 2 (NetworkError (js "down")) ::
                  [PromiseReply 1 (Response 200 []);
                   PromiseReply 2 (Response 200 [])]))
    = Some (Failed (TransportError (js "down"))).
Proof.
  exact (@deleteMultiple_first_rejection_wins db k123
           [PromiseReply 0 (Response 200 [])]
           [PromiseReply 1 (Response 200 []); PromiseReply 2 (Response 200 [])]
           2 (js "down") eq_refl (le_n 3) eq_refl).
Defined.

Lemma empty_is_deleteMultiple_of_listing_witness :
  let st := steps (Client.empty db)
                  (LoopReply (Response 200 two_keys) ::
                   [PromiseReply 1 (Response 200 [])]) in
  let st' := steps (Client.deleteMultiple db [js "a"; js "b"])
                   [PromiseReply 1 (Response 200 [])] in
  children st = children st' /\
  verdict st = verdict st' /\
  issued st = Client.list_request db [] :: issued st'.
Proof.
  exact (@empty_is_deleteMultiple_of_listing db 200%N two_keys [js "a"; js "b"]
           [PromiseReply 1 (Response 200 [])] eq_refl).
Defined.

Lemma empty_fails_with_list_witness :
  (let st := steps (Client.empty db)
                   (LoopReply (NetworkError (js "down")) ::
                    [PromiseReply 0 (Response 200 [])]) in
   verdict st = Some (Failed (TransportError (js "down"))) /\
   issued st = [Client.list_request db []] /\
   children st = []) /\
  (let st := steps (Client.empty db) (LoopReply (Response 200 bad_listing) :: []) in
   verdict st = Some (Failed URIError) /\
   issued st = [Client.list_request db []] /\
   children st = []).
Proof.
  split.
  - exact (@empty_fails_with_list db (NetworkError (js "down"))
             (TransportError (js "down")) [PromiseReply 0 (Response 200 [])] eq_refl).
  - exact (@empty_fails_with_list db (Response 200 bad_listing) URIError [] eq_refl).
Defined.

End Runs.
